(** * rindo-core: the agency monitor (scripts/monitor_agencies.py)

    A shallow embedding of the monitoring pipeline: road-name
    normalisation, status classification, URL canonicalisation, the HTML
    harvest, the event merge and the crawl loop of [run], followed by the
    properties of the design document that can be stated over them.

    Conventions.
    - A Python [str] is a list of Unicode code points ([pstr], code points
      as [N]); a [bytes] value is a list of octets, also [N].
    - A Python [dict] with string keys is a [gmap string pyval].
    - A call that may raise returns an [option]; [None] is the exception.
    - What Python takes from outside the repository (the clock, the
      network, the HTML parser, Unicode tables) is an explicit argument. *)

From Stdlib Require Import ZArith NArith List Bool Lia String Ascii.
From stdpp Require Import base option list gmap strings.

Local Open Scope N_scope.

(** ** Python strings *)

Abbreviation pstr := (list N).
Abbreviation octets := (list N).

Definition is_cont (b : N) : bool := (128 <=? b) && (b <=? 191).

(** [bytes.decode("utf-8", errors)]: every maximal ill-formed prefix
    becomes [bad], which is U+FFFD for "replace" and nothing for
    "ignore". *)
Fixpoint utf8_decode_with (bad : pstr) (bs : octets) : pstr :=
  match bs with
  | [] => []
  | b1 :: r1 =>
    if b1 <? 128 then b1 :: utf8_decode_with bad r1
    else if (194 <=? b1) && (b1 <=? 223) then
      match r1 with
      | [] => bad
      | b2 :: r2 =>
        if is_cont b2 then ((b1 - 192) * 64 + (b2 - 128)) :: utf8_decode_with bad r2
        else bad ++ utf8_decode_with bad r1
      end
    else if (224 <=? b1) && (b1 <=? 239) then
      match r1 with
      | [] => bad
      | b2 :: r2 =>
        if ((if b1 =? 224 then 160 else 128) <=? b2)
           && (b2 <=? (if b1 =? 237 then 159 else 191)) then
          match r2 with
          | [] => bad
          | b3 :: r3 =>
            if is_cont b3
            then ((b1 - 224) * 4096 + (b2 - 128) * 64 + (b3 - 128)) :: utf8_decode_with bad r3
            else bad ++ utf8_decode_with bad r2
          end
        else bad ++ utf8_decode_with bad r1
      end
    else if (240 <=? b1) && (b1 <=? 244) then
      match r1 with
      | [] => bad
      | b2 :: r2 =>
        if ((if b1 =? 240 then 144 else 128) <=? b2)
           && (b2 <=? (if b1 =? 244 then 143 else 191)) then
          match r2 with
          | [] => bad
          | b3 :: r3 =>
            if is_cont b3 then
              match r3 with
              | [] => bad
              | b4 :: r4 =>
                if is_cont b4
                then ((b1 - 240) * 262144 + (b2 - 128) * 4096
                      + (b3 - 128) * 64 + (b4 - 128)) :: utf8_decode_with bad r4
                else bad ++ utf8_decode_with bad r3
              end
            else bad ++ utf8_decode_with bad r2
          end
        else bad ++ utf8_decode_with bad r1
      end
    else bad ++ utf8_decode_with bad r1
  end.

Definition utf8_decode : octets -> pstr := utf8_decode_with [65533].

(** [bytes.decode("utf-8", "ignore")] *)
Definition decode_ignore : octets -> pstr := utf8_decode_with [].

(** One code point of [str.encode("utf-8")]; [None] is the
    UnicodeEncodeError raised on a surrogate. *)
Definition utf8_encode1 (c : N) : option octets :=
  if c <? 128 then Some [c]
  else if c <? 2048 then Some [192 + c / 64; 128 + c mod 64]
  else if c <? 65536 then
    if (55296 <=? c) && (c <=? 57343) then None
    else Some [224 + c / 4096; 128 + (c / 64) mod 64; 128 + c mod 64]
  else if c <? 1114112 then
    Some [240 + c / 262144; 128 + (c / 4096) mod 64;
          128 + (c / 64) mod 64; 128 + c mod 64]
  else None.

Fixpoint utf8_encode (s : pstr) : option octets :=
  match s with
  | [] => Some []
  | c :: s' =>
    match utf8_encode1 c, utf8_encode s' with
    | Some b, Some bs => Some (b ++ bs)
    | _, _ => None
    end
  end.

(** String literals of the source, written as they are there. *)
Definition u (s : string) : pstr :=
  utf8_decode (map N_of_ascii (list_ascii_of_string s)).

Definition pstr_eqb (a b : pstr) : bool := bool_decide (a = b).

(** [s.startswith(p)] *)
Fixpoint startswith (p s : pstr) : bool :=
  match p, s with
  | [], _ => true
  | _ :: _, [] => false
  | a :: p', b :: s' => (a =? b) && startswith p' s'
  end.

(** [p in s] *)
Fixpoint contains (p s : pstr) : bool :=
  startswith p s ||
  match s with
  | [] => false
  | _ :: s' => contains p s'
  end.

(** [s.endswith(p)] *)
Definition endswith (p s : pstr) : bool := startswith (rev p) (rev s).

(** [s.replace(old, "")] for a non-empty [old]: occurrences are found
    left to right and do not overlap.  [skip] counts the characters of the
    occurrence being dropped. *)
Fixpoint remove_from (old : pstr) (skip : nat) (s : pstr) : pstr :=
  match s with
  | [] => []
  | c :: s' =>
    match skip with
    | S k => remove_from old k s'
    | O => if startswith old s then remove_from old (length old - 1) s'
           else c :: remove_from old 0 s'
    end
  end.

Definition remove_all (old s : pstr) : pstr := remove_from old 0 s.

(** [str.isspace] of one character, which is also [\s] of [re] on [str]
    patterns. *)
Definition isspace (c : N) : bool :=
  ((9 <=? c) && (c <=? 13)) || ((28 <=? c) && (c <=? 32))
  || (c =? 133) || (c =? 160) || (c =? 5760)
  || ((8192 <=? c) && (c <=? 8202))
  || (c =? 8232) || (c =? 8233) || (c =? 8239) || (c =? 8287) || (c =? 12288).

Fixpoint lstrip (s : pstr) : pstr :=
  match s with
  | [] => []
  | c :: s' => if isspace c then lstrip s' else s
  end.

(** [s.strip()] *)
Definition strip (s : pstr) : pstr := rev (lstrip (rev (lstrip s))).

(** [re.sub("[...]", "", s)] for a one-character class. *)
Definition remove_class (cls : N -> bool) (s : pstr) : pstr :=
  filter (fun c => cls c = false) s.

(** [re.sub("(a1|a2|...)$", "", s)].  [$] holds at the end of the string
    and before a line feed that ends it; the leftmost position where an
    alternative reaches [$] is the only match. *)
Fixpoint remove_at_end (alts : list pstr) (s : pstr) : pstr :=
  if existsb (pstr_eqb s) alts then []
  else if existsb (fun a => pstr_eqb s (a ++ [10])) alts then [10]
  else match s with
       | [] => []
       | c :: s' => c :: remove_at_end alts s'
       end.

(** ** Regular expressions, as far as [re.search] is asked whether there
    is a match *)

Inductive regex : Type :=
| RNone
| REps
| RChr (cls : N -> bool)
| RSeq (r1 r2 : regex)
| RAlt (r1 r2 : regex)
| RStar (r : regex).

(** [(r)?] and [r+] *)
Definition ROpt (r : regex) : regex := RAlt r REps.
Definition RPlus (r : regex) : regex := RSeq r (RStar r).

(** A literal, character by character. *)
Fixpoint RLit (s : pstr) : regex :=
  match s with
  | [] => REps
  | c :: s' => RSeq (RChr (N.eqb c)) (RLit s')
  end.

(** [a1|a2|...] *)
Definition RAlts (rs : list regex) : regex := foldr RAlt RNone rs.

(** [[lo-hi]] *)
Definition in_range (lo hi c : N) : bool := (lo <=? c) && (c <=? hi).

Fixpoint nullable (r : regex) : bool :=
  match r with
  | RNone => false
  | REps => true
  | RChr _ => false
  | RSeq a b => nullable a && nullable b
  | RAlt a b => nullable a || nullable b
  | RStar _ => true
  end.

Fixpoint deriv (c : N) (r : regex) : regex :=
  match r with
  | RNone => RNone
  | REps => RNone
  | RChr cls => if cls c then REps else RNone
  | RSeq a b =>
    if nullable a then RAlt (RSeq (deriv c a) b) (deriv c b)
    else RSeq (deriv c a) b
  | RAlt a b => RAlt (deriv c a) (deriv c b)
  | RStar a => RSeq (deriv c a) (RStar a)
  end.

(** [rx.match(s)] finds a match: some prefix of [s] is in the language. *)
Fixpoint re_match (r : regex) (s : pstr) : bool :=
  nullable r ||
  match s with
  | [] => false
  | c :: s' => re_match (deriv c r) s'
  end.

(** [rx.search(s)] finds a match: some suffix of [s] has such a prefix. *)
Fixpoint re_search (r : regex) (s : pstr) : bool :=
  re_match r s ||
  match s with
  | [] => false
  | _ :: s' => re_search r s'
  end.

(** ** Name normalisation (monitor_agencies.py, 344-350) *)

(** [[　\s]] *)
Definition cls_blank (c : N) : bool := (c =? 12288) || isspace c.

(** [[（）()・･‐\-—―ｰ]] *)
Definition punct_chars : pstr := Eval vm_compute in u "（）()・･‐-—―ｰ".
Definition cls_punct (c : N) : bool := existsb (N.eqb c) punct_chars.

Definition s_rindo : pstr := Eval vm_compute in u "林道".
Definition s_kanrido : pstr := Eval vm_compute in u "森林管理道".
Definition name_tails : list pstr :=
  Eval vm_compute in [u "線"; u "せん"; u "道"].

Definition norm_rindo_name (s : pstr) : pstr :=
  match s with
  | [] => []
  | _ =>
    let t := remove_class cls_blank s in
    let t := remove_all s_kanrido (remove_all s_rindo t) in
    let t := remove_at_end name_tails t in
    let t := remove_class cls_punct t in
    t
  end.

(** ** Status classification *)

(** P_STATUS (monitor_agencies.py, 296-300): pattern and label, in the
    order of the list. *)
Definition P_STATUS : list (regex * pstr) :=
  Eval vm_compute in
  [ (RSeq (ROpt (RAlts [RLit (u "全面"); RLit (u "全線")]))
       (RSeq (RLit (u "通行止")) (ROpt (RLit (u "め")))),
     u "通行止");
    (RAlts [RLit (u "通行規制"); RLit (u "規制"); RLit (u "片側交互");
            RLit (u "大型車通行止")],
     u "規制");
    (RAlts [RLit (u "解除"); RLit (u "通行可"); RLit (u "通行可能")],
     u "解除") ].

(** [pick_status] (352-356): the label of the first pattern found. *)
Definition pick_status (text : pstr) : option pstr :=
  snd <$> find (fun p => re_search (fst p) text) P_STATUS.

Definition _YMN_CLOSED_PAT : regex :=
  Eval vm_compute in RAlts [RLit (u "通行止"); RLit (u "全面通行止")].
Definition _YMN_OPEN_PAT : regex :=
  Eval vm_compute in RAlts [RLit (u "規制はありません"); RLit (u "規制なし")].
Definition _YMN_REG_PAT : regex :=
  Eval vm_compute in
  RAlts [RLit (u "規制"); RLit (u "片側"); RLit (u "交互"); RLit (u "迂回");
         RLit (u "う回"); RLit (u "チェーン"); RLit (u "チェーン規制")].

(** _YMN_NUM_PAT (131).  [\d] is the Unicode decimal-digit table,
    [isdecimal] here. *)
Definition _YMN_NUM_PAT (isdecimal : N -> bool) : regex :=
  RAlts
    [ RSeq (RPlus (RChr isdecimal))
        (RSeq (ROpt (RSeq (RLit (u ".")) (RPlus (RChr isdecimal))))
           (RAlts [RSeq (RLit (u "km")) (RSeq (ROpt (RLit (u "/"))) (RLit (u "h")));
                   RLit (u "kmh"); RLit (u "km"); RLit (u "m"); RLit (u "t");
                   RLit (u "ｔ"); RLit (u "％"); RLit (u "%")]));
      RSeq (RPlus (RChr (in_range 65296 65305)))
        (RAlts [RLit (u "ｋｍ/ｈ"); RLit (u "ｋｍ"); RLit (u "ｍ"); RLit (u "ｔ")]) ].

Definition st_closed : pstr := u "closed".
Definition st_regulated : pstr := u "regulated".
Definition st_open : pstr := u "open".

(** [_yn_pick_status] (151-166): (status, status_jp). *)
Definition _yn_pick_status (isdecimal : N -> bool) (page_text : pstr)
  : pstr * pstr :=
  let t := page_text in
  if re_search _YMN_CLOSED_PAT t then (st_closed, u "通行止")
  else if re_search _YMN_OPEN_PAT t then (st_open, u "規制はありません")
  else if re_search _YMN_REG_PAT t || re_search (_YMN_NUM_PAT isdecimal) t
       then (st_regulated, u "規制")
  else (st_open, u "開放").

(** ** SHA-1 ([hashlib.sha1]) on octets *)

Definition w32 (x : N) : N := x mod 4294967296.

Definition rotl (n x : N) : N :=
  w32 (N.lor (N.shiftl x n) (N.shiftr x (32 - n))).

Fixpoint chunk_fuel {A} (fuel n : nat) (l : list A) : list (list A) :=
  match fuel with
  | O => []
  | S f =>
    match l with
    | [] => []
    | _ => take n l :: chunk_fuel f n (drop n l)
    end
  end.

Definition chunk {A} (n : nat) (l : list A) : list (list A) :=
  chunk_fuel (length l) n l.

Definition be_word (b : octets) : N := fold_left (fun a x => a * 256 + x) b 0.

Definition be_bytes8 (n : N) : octets :=
  map (fun i => (n / 256 ^ i) mod 256) [7; 6; 5; 4; 3; 2; 1; 0].

Definition sha1_pad (m : octets) : octets :=
  m ++ [128] ++ repeat 0 ((119 - length m mod 64) mod 64)%nat
    ++ be_bytes8 (8 * N.of_nat (length m)).

Fixpoint sha1_expand (n : nat) (w : list N) : list N :=
  match n with
  | O => w
  | S n' =>
    let t := length w in
    let x := N.lxor (N.lxor (nth (t - 3) w 0) (nth (t - 8) w 0))
                    (N.lxor (nth (t - 14) w 0) (nth (t - 16) w 0)) in
    sha1_expand n' (w ++ [rotl 1 x])
  end.

Definition sha1_state : Type := N * N * N * N * N.

Definition sha1_round (st : sha1_state) (tw : nat * N) : sha1_state :=
  let '(a, b, c, d, e) := st in
  let '(t, w) := tw in
  let '(f, k) :=
    if (t <? 20)%nat then
      (N.lor (N.land b c) (N.land (N.lxor b 4294967295) d), 1518500249)
    else if (t <? 40)%nat then (N.lxor (N.lxor b c) d, 1859775393)
    else if (t <? 60)%nat then
      (N.lor (N.lor (N.land b c) (N.land b d)) (N.land c d), 2400959708)
    else (N.lxor (N.lxor b c) d, 3395469782) in
  (w32 (rotl 5 a + f + e + k + w), a, rotl 30 b, c, d).

Definition sha1_block (h : sha1_state) (block : octets) : sha1_state :=
  let w := sha1_expand 64 (map be_word (chunk 4 block)) in
  let '(a, b, c, d, e) := fold_left sha1_round (imap pair w) h in
  let '(h0, h1, h2, h3, h4) := h in
  (w32 (h0 + a), w32 (h1 + b), w32 (h2 + c), w32 (h3 + d), w32 (h4 + e)).

Definition sha1 (m : octets) : sha1_state :=
  fold_left sha1_block (chunk 64 (sha1_pad m))
    (1732584193, 4023233417, 2562383102, 271733878, 3285377520).

Definition hexdigit (d : N) : N := if d <? 10 then 48 + d else 87 + d.

Definition hex8 (w : N) : pstr :=
  map (fun i => hexdigit ((w / 16 ^ i) mod 16)) [7; 6; 5; 4; 3; 2; 1; 0].

(** [hashlib.sha1(m).hexdigest()] *)
Definition sha1_hexdigest (m : octets) : pstr :=
  let '(h0, h1, h2, h3, h4) := sha1 m in
  hex8 h0 ++ hex8 h1 ++ hex8 h2 ++ hex8 h3 ++ hex8 h4.

(** ** [urllib.parse], as canonical_url uses it

    The functions below follow Lib/urllib/parse.py of CPython 3.11.4 and
    later.  [urlunsplit] changed with 3.12.4 in what it writes back when
    there is no authority; both versions are given, and the library
    record says which one is at hand. *)

(** [s.partition(c)]: the text before the first [c] and the text after
    it, [None] when [c] does not occur. *)
Fixpoint cut (c : N) (s : pstr) : option (pstr * pstr) :=
  match s with
  | [] => None
  | x :: s' =>
    if x =? c then Some ([], s')
    else match cut c s' with
         | Some (a, b) => Some (x :: a, b)
         | None => None
         end
  end.

(** [s.split(c)] *)
Fixpoint split_on (c : N) (s : pstr) : list pstr :=
  match s with
  | [] => [[]]
  | x :: s' =>
    if x =? c then [] :: split_on c s'
    else match split_on c s' with
         | h :: t => (x :: h) :: t
         | [] => [[x]]
         end
  end.

(** [sep.join(l)] *)
Fixpoint join (sep : pstr) (l : list pstr) : pstr :=
  match l with
  | [] => []
  | [x] => x
  | x :: l' => x ++ sep ++ join sep l'
  end.

(** The longest prefix without a character of [stop], and the rest. *)
Fixpoint span_until (stop : N -> bool) (s : pstr) : pstr * pstr :=
  match s with
  | [] => ([], [])
  | c :: s' =>
    if stop c then ([], s)
    else let '(a, b) := span_until stop s' in (c :: a, b)
  end.

(** What [urllib.parse] depends on outside the code read here.
    [urlsplit] asks the [ipaddress] and [unicodedata] modules about an
    authority: both answer whether the check lets it pass.  [urlunsplit]
    changed with CPython 3.12.4, and the repository pins no release. *)
Record netloc_checks : Type := {
  (** [_check_bracketed_netloc], for an authority with "[" and "]" *)
  bracketed_netloc_ok : pstr -> bool;
  (** the NFKC test of [_checknetloc], for an authority that is not ASCII *)
  nfkc_netloc_ok : pstr -> bool;
  (** [true] for the [urlunsplit] of CPython 3.12.4 and later, which puts
      "//" back in front of a path that starts with "//" (gh-67693);
      [false] for the one of the releases up to 3.12.3 *)
  unsplit_keeps_slashes : bool
}.

(** _WHATWG_C0_CONTROL_OR_SPACE *)
Definition c0_or_space (c : N) : bool := c <=? 32.

Fixpoint lstrip_c0 (s : pstr) : pstr :=
  match s with
  | [] => []
  | c :: s' => if c0_or_space c then lstrip_c0 s' else s
  end.

(** _UNSAFE_URL_BYTES_TO_REMOVE *)
Definition tab_cr_lf (c : N) : bool := (c =? 9) || (c =? 13) || (c =? 10).

Definition ascii_alpha (c : N) : bool := in_range 65 90 c || in_range 97 122 c.
Definition ascii_digit (c : N) : bool := in_range 48 57 c.

Definition scheme_char (c : N) : bool :=
  ascii_alpha c || ascii_digit c || (c =? 43) || (c =? 45) || (c =? 46).

Definition ascii_lower (c : N) : N := if in_range 65 90 c then c + 32 else c.

Definition uses_netloc : list pstr :=
  Eval vm_compute in
  map u [""%string; "ftp"; "http"; "gopher"; "nntp"; "telnet"; "imap"; "wais";
         "file"; "mms"; "https"; "shttp"; "snews"; "prospero"; "rtsp";
         "rtspu"; "rsync"; "svn"; "svn+ssh"; "sftp"; "nfs"; "git";
         "git+ssh"; "ws"; "wss"].

(** The scheme test of [urlsplit]: [i = url.find(":")], [i > 0], a first
    character that is an ASCII letter, and scheme characters up to [i]. *)
Definition split_scheme (url : pstr) : pstr * pstr :=
  match cut 58 url with
  | Some (c :: pre, rest) =>
    if ascii_alpha c && forallb scheme_char (c :: pre)
    then (map ascii_lower (c :: pre), rest)
    else ([], url)
  | _ => ([], url)
  end.

Definition netloc_delim (c : N) : bool := (c =? 47) || (c =? 63) || (c =? 35).

(** [_splitnetloc(url, 2)] under [url[:2] == "//"] *)
Definition split_netloc (url : pstr) : pstr * pstr :=
  match url with
  | 47 :: 47 :: r => span_until netloc_delim r
  | _ => ([], url)
  end.

Definition has (c : N) (s : pstr) : bool := existsb (N.eqb c) s.

Definition isascii (s : pstr) : bool := forallb (fun c => c <? 128) s.

Definition cut_or (c : N) (s : pstr) : pstr * pstr :=
  match cut c s with
  | Some ab => ab
  | None => (s, [])
  end.

(** [urlsplit(url)]: (scheme, netloc, path, query, fragment), or [None]
    for the ValueError of an authority that fails a check. *)
Definition urlsplit (L : netloc_checks) (url : pstr)
  : option (pstr * pstr * pstr * pstr * pstr) :=
  let url := remove_class tab_cr_lf (lstrip_c0 url) in
  let '(scheme, url) := split_scheme url in
  let '(netloc, url) := split_netloc url in
  if xorb (has 91 netloc) (has 93 netloc) then None
  else if has 91 netloc && has 93 netloc && negb (bracketed_netloc_ok L netloc)
  then None
  else
    let '(url, fragment) := cut_or 35 url in
    let '(url, query) := cut_or 63 url in
    if negb (isascii netloc) && negb (nfkc_netloc_ok L netloc) then None
    else Some (scheme, netloc, url, query, fragment).

(** [urlunsplit((scheme, netloc, url, query, fragment))] as of CPython
    3.12.4 *)
Definition urlunsplit_3_12_4 (scheme netloc url query fragment : pstr) : pstr :=
  let url :=
    match netloc with
    | _ :: _ =>
      [47; 47] ++ netloc ++
        match url with
        | [] => []
        | c :: _ => if c =? 47 then url else 47 :: url
        end
    | [] =>
      if startswith [47; 47] url then [47; 47] ++ url
      else if negb (pstr_eqb scheme []) && bool_decide (scheme ∈ uses_netloc)
              && (pstr_eqb url [] || startswith [47] url)
      then [47; 47] ++ url
      else url
    end in
  let url := match scheme with [] => url | _ => scheme ++ [58] ++ url end in
  let url := match query with [] => url | _ => url ++ [63] ++ query end in
  let url := match fragment with [] => url | _ => url ++ [35] ++ fragment end in
  url.

(** [urlunsplit] as CPython had it up to 3.12.3, before "//" was put
    back in front of a path that starts with "//" (gh-67693). *)
Definition urlunsplit_3_11 (scheme netloc url query fragment : pstr) : pstr :=
  let url :=
    if negb (pstr_eqb netloc [])
       || (negb (pstr_eqb scheme []) && bool_decide (scheme ∈ uses_netloc)
           && negb (startswith [47; 47] url))
    then [47; 47] ++ netloc ++
         (if negb (pstr_eqb url []) && negb (startswith [47] url)
          then 47 :: url else url)
    else url in
  let url := match scheme with [] => url | _ => scheme ++ [58] ++ url end in
  let url := match query with [] => url | _ => url ++ [63] ++ query end in
  let url := match fragment with [] => url | _ => url ++ [35] ++ fragment end in
  url.

(** [urlunsplit((scheme, netloc, url, query, fragment))] of the release
    at hand *)
Definition urlunsplit (L : netloc_checks) (scheme netloc url query fragment : pstr)
  : pstr :=
  if unsplit_keeps_slashes L
  then urlunsplit_3_12_4 scheme netloc url query fragment
  else urlunsplit_3_11 scheme netloc url query fragment.

Definition hexval (c : N) : option N :=
  if ascii_digit c then Some (c - 48)
  else if in_range 65 70 c then Some (c - 55)
  else if in_range 97 102 c then Some (c - 87)
  else None.

(** [unquote] on a string with a "%": runs of ASCII characters have
    their escapes replaced by octets and are decoded as UTF-8; the other
    characters stay.  [acc] holds the octets of the run being read. *)
Fixpoint unquote_from (acc : octets) (s : pstr) : pstr :=
  match s with
  | [] => utf8_decode acc
  | c :: s1 =>
    if 128 <=? c then utf8_decode acc ++ c :: unquote_from [] s1
    else if c =? 37 then
      match s1 with
      | h1 :: h2 :: s3 =>
        match hexval h1, hexval h2 with
        | Some a, Some b => unquote_from (acc ++ [16 * a + b]) s3
        | _, _ => unquote_from (acc ++ [37]) s1
        end
      | _ => unquote_from (acc ++ [37]) s1
      end
    else unquote_from (acc ++ [c]) s1
  end.

(** [unquote(string)], with encoding "utf-8" and errors "replace" *)
Definition unquote (s : pstr) : pstr :=
  if has 37 s then unquote_from [] s else s.

(** [s.replace("+", " ")] *)
Definition plus_to_space (s : pstr) : pstr :=
  map (fun c => if c =? 43 then 32 else c) s.

(** [parse_qsl(qs, keep_blank_values=True)] *)
Definition parse_field (name_value : pstr) : list (pstr * pstr) :=
  match name_value with
  | [] => []
  | _ =>
    let '(n, v) := cut_or 61 name_value in
    [(unquote (plus_to_space n), unquote (plus_to_space v))]
  end.

Definition parse_qsl (qs : pstr) : list (pstr * pstr) :=
  match qs with
  | [] => []
  | _ => flat_map parse_field (split_on 38 qs)
  end.

(** _ALWAYS_SAFE *)
Definition always_safe (b : N) : bool :=
  ascii_alpha b || ascii_digit b
  || (b =? 95) || (b =? 46) || (b =? 45) || (b =? 126).

Definition hexdigit_upper (d : N) : N := if d <? 10 then 48 + d else 55 + d.

(** [quote_from_bytes(bs, safe)] *)
Definition quote_from_bytes (safe : N -> bool) (bs : octets) : pstr :=
  flat_map (fun b => if always_safe b || safe b then [b]
                     else [37; hexdigit_upper (b / 16); hexdigit_upper (b mod 16)])
           bs.

(** [quote(string, safe)]; [None] is the UnicodeEncodeError. *)
Definition quote (safe : N -> bool) (s : pstr) : option pstr :=
  quote_from_bytes safe <$> utf8_encode s.

(** [quote_plus(string)] *)
Definition quote_plus (s : pstr) : option pstr :=
  if negb (has 32 s) then quote (fun _ => false) s
  else map (fun c => if c =? 32 then 43 else c) <$> quote (N.eqb 32) s.

(** [urlencode(query, doseq=True)] on a list of pairs of strings *)
Fixpoint encode_fields (q : list (pstr * pstr)) : option (list pstr) :=
  match q with
  | [] => Some []
  | (k, v) :: q' =>
    k' ← quote_plus k; v' ← quote_plus v; l ← encode_fields q';
    Some ((k' ++ [61] ++ v') :: l)
  end.

Definition urlencode (q : list (pstr * pstr)) : option pstr :=
  join [38] <$> encode_fields q.

Definition s_area_id : pstr := Eval vm_compute in u "area_id".

(** [canonical_url] (monitor_agencies.py, 94-99) *)
Definition canonical_url (L : netloc_checks) (url : pstr) : option pstr :=
  let u0 := fst (cut_or 35 url) in
  '(scheme, netloc, path, query, _) ← urlsplit L u0;
  let q := filter (fun kv => fst kv ≠ s_area_id) (parse_qsl query) in
  qs ← urlencode q;
  Some (urlunsplit L scheme netloc path qs []).

(** [make_event_id] (562-563); [None] when the text cannot be encoded. *)
Definition make_event_id (pref norm_name source_url : pstr) : option pstr :=
  bs ← utf8_encode (pref ++ [124] ++ norm_name ++ [124] ++ source_url);
  Some (take 16 (sha1_hexdigest bs)).

(** Authority checks that let nothing pass: enough for an authority that
    is ASCII and has no brackets, which never reaches them. *)
Definition plain_netlocs : netloc_checks :=
  {| bracketed_netloc_ok := fun _ => false; nfkc_netloc_ok := fun _ => false;
     unsplit_keeps_slashes := true |}.

(** The same with the [urlunsplit] of the releases up to 3.12.3. *)
Definition plain_netlocs_3_11 : netloc_checks :=
  {| bracketed_netloc_ok := fun _ => false; nfkc_netloc_ok := fun _ => false;
     unsplit_keeps_slashes := false |}.

(** ** Event dictionaries *)

(** The values of an event dictionary: every extractor of the file puts
    strings and [None] there, and so does the merge. *)
Inductive pyval : Type :=
| PNone
| PStr (s : pstr).

#[global] Instance pyval_eq_dec : EqDecision pyval.
Proof. solve_decision. Defined.

Abbreviation edict := (gmap string pyval).

(** [d.get(k)] *)
Definition get (k : string) (d : edict) : pyval := default PNone (d !! k).

(** [v or d] for a string [d] *)
Definition str_or (v : pyval) (d : pstr) : pstr :=
  match v with
  | PStr (c :: s) => c :: s
  | _ => d
  end.

Definition opt_str (o : option pstr) : pyval :=
  match o with
  | Some s => PStr s
  | None => PNone
  end.

(** PREF_NAME2CODE (79-87) *)
Definition PREF_NAME2CODE : list (pstr * pstr) :=
  Eval vm_compute in
  map (fun p => (u (fst p), u (snd p)))
  [ ("北海道","01"); ("青森県","02"); ("岩手県","03"); ("宮城県","04");
    ("秋田県","05"); ("山形県","06"); ("福島県","07"); ("茨城県","08");
    ("栃木県","09"); ("群馬県","10"); ("埼玉県","11"); ("千葉県","12");
    ("東京都","13"); ("神奈川県","14"); ("新潟県","15"); ("富山県","16");
    ("石川県","17"); ("福井県","18"); ("山梨県","19"); ("長野県","20");
    ("岐阜県","21"); ("静岡県","22"); ("愛知県","23"); ("三重県","24");
    ("滋賀県","25"); ("京都府","26"); ("大阪府","27"); ("兵庫県","28");
    ("奈良県","29"); ("和歌山県","30"); ("鳥取県","31"); ("島根県","32");
    ("岡山県","33"); ("広島県","34"); ("山口県","35"); ("徳島県","36");
    ("香川県","37"); ("愛媛県","38"); ("高知県","39"); ("福岡県","40");
    ("佐賀県","41"); ("長崎県","42"); ("熊本県","43"); ("大分県","44");
    ("宮崎県","45"); ("鹿児島県","46"); ("沖縄県","47") ]%string.

(** [PREF_NAME2CODE.get(pref)] *)
Definition pref_code_of (pref : pstr) : pyval :=
  opt_str (snd <$> find (fun p => pstr_eqb (fst p) pref) PREF_NAME2CODE).

(** ** The event merge (monitor_agencies.py, 565-603) *)

(** The event store document: its "events" list and its "updated" stamp. *)
Record store : Type := {
  events : list edict;
  updated : pyval
}.

(** [{e.get("id"): i for i, e in enumerate(events) if e.get("id")}]: a
    later record replaces an earlier one under the same id. *)
Definition index_of (evs : list edict) : gmap pstr nat :=
  foldl (fun m ie =>
           match get "id" (snd ie) with
           | PStr (c :: s) => <[c :: s := fst ie]> m
           | _ => m
           end)
        ∅ (imap pair evs).

(** The payload built for one raw event; [None] when canonical_url or
    make_event_id raises. *)
Definition payload_of (L : netloc_checks) (now pref source_url : pstr)
    (raw_name norm : pstr) (ev : edict) : option (pstr * edict) :=
  let src_raw := str_or (get "source_url" ev) source_url in
  src ← canonical_url L src_raw;
  eid ← make_event_id pref norm src;
  Some (eid,
        list_to_map
          [ ("id", PStr eid);
            ("pref", PStr pref);
            ("pref_code", pref_code_of pref);
            ("name", PStr (match raw_name with [] => norm | _ => raw_name end));
            ("norm_name", PStr norm);
            ("status", get "status" ev);
            ("reason", get "reason" ev);
            ("from", get "from" ev);
            ("to", get "to" ev);
            ("source_url", PStr src);
            ("updated_at", PStr now) ]%string).

(** [{k: v for k, v in payload.items() if v is not None}] *)
Definition not_none (payload : edict) : edict :=
  filter (fun kv => snd kv ≠ PNone) payload.

(** [ev.get("name") or ev.get("norm_name") or ""] *)
Definition raw_name_of (ev : edict) : pstr :=
  str_or (get "name" ev) (str_or (get "norm_name" ev) []).

(** [ev.get("norm_name") or norm_rindo_name(raw_name)] *)
Definition norm_of (ev : edict) : pstr :=
  str_or (get "norm_name" ev) (norm_rindo_name (raw_name_of ev)).

(** One turn of the loop over [new_events]: the index [idx] is the one
    built before the loop. *)
Definition merge_one (L : netloc_checks) (now pref source_url : pstr)
    (idx : gmap pstr nat) (evs : list edict) (ev : edict)
  : option (list edict) :=
  let raw_name := raw_name_of ev in
  let norm := norm_of ev in
  match raw_name, norm with
  | [], [] => Some evs
  | _, _ =>
    '(eid, payload) ← payload_of L now pref source_url raw_name norm ev;
    match idx !! eid with
    | Some i => Some (alter (fun old => not_none payload ∪ old) i evs)
    | None => Some (evs ++ [payload])
    end
  end.

Fixpoint merge_loop (L : netloc_checks) (now pref source_url : pstr)
    (idx : gmap pstr nat) (evs : list edict) (new_events : list edict)
  : option (list edict) :=
  match new_events with
  | [] => Some evs
  | ev :: rest =>
    evs' ← merge_one L now pref source_url idx evs ev;
    merge_loop L now pref source_url idx evs' rest
  end.

(** [merge_events(base, new_events, pref, source_url)]; [now] is what
    now_iso() returns at its one call. *)
Definition merge_events (L : netloc_checks) (now : pstr) (base : store)
    (new_events : list edict) (pref source_url : pstr) : option store :=
  evs ← merge_loop L now pref source_url (index_of (events base))
          (events base) new_events;
  Some {| events := evs; updated := PStr now |}.

(** The id under which a raw event is merged. *)
Definition event_key (L : netloc_checks) (pref source_url : pstr) (ev : edict)
  : option pstr :=
  src ← canonical_url L (str_or (get "source_url" ev) source_url);
  make_event_id pref (norm_of ev) src.

(** The record a later merge finds under an id: the one the index of
    the list points to. *)
Definition stored (evs : list edict) (eid : pstr) : option edict :=
  i ← index_of evs !! eid; evs !! i.

(** The status of a record is one of the strings of [allowed]. *)
Definition status_among (allowed : list pstr) (e : edict) : Prop :=
  exists s, In s allowed /\ get "status" e = PStr s.

(** The labels of P_STATUS and the codes of extract_generic_jp. *)
Definition STATUS_LABELS : list pstr :=
  Eval vm_compute in [u "通行止"; u "規制"; u "解除"].
Definition STATUS_CODES : list pstr := [st_closed; st_regulated; st_open].

(** ** Extraction from HTML (monitor_agencies.py, 352-512) *)

(** What the [re] engine returns for the patterns with groups: the named
    groups of the successive matches, in the order [finditer] yields
    them, or of the first match for [search]. *)
Record re_groups : Type := {
  (** group "n" of each match of P_RINDO_1 *)
  P_RINDO_1_n : pstr -> list pstr;
  (** group "n" of each match of P_RINDO_2 *)
  P_RINDO_2_n : pstr -> list pstr;
  (** groups "from" and "to" of P_RANGE.search *)
  P_RANGE_from_to : pstr -> option (pstr * pstr);
  (** group "d" of P_DATE_SINGLE.search *)
  P_DATE_SINGLE_d : pstr -> option pstr;
  (** groups "name" and "status" of each match of the pattern of
      extract_generic_jp *)
  generic_name_status : pstr -> list (pstr * pstr)
}.

(** REASONS (301), the group of the fourth entry written out. *)
Definition REASONS : list pstr :=
  Eval vm_compute in
  map u ["落石"; "倒木"; "崩落"; "土砂崩れ"; "土砂流出"; "凍結"; "積雪"; "台風";
         "豪雨"; "地震"; "崩土"; "工事"; "補修"; "点検"; "伐採"; "路肩損傷";
         "路面損傷"]%string.

(** [rx.search(s).group(0)] for an alternation of literals: the leftmost
    position where one fits, and there the first that fits. *)
Fixpoint first_literal (alts : list pstr) (s : pstr) : option pstr :=
  match find (fun a => startswith a s) alts with
  | Some a => Some a
  | None =>
    match s with
    | [] => None
    | _ :: s' => first_literal alts s'
    end
  end.

Definition pick_reason (text : pstr) : option pstr := first_literal REASONS text.

Definition pick_range (G : re_groups) (text : pstr) : option pstr * option pstr :=
  match P_RANGE_from_to G text with
  | Some (f, t) => (Some f, Some t)
  | None =>
    match P_DATE_SINGLE_d G text with
    | Some d => (Some d, None)
    | None => (None, None)
    end
  end.

Definition NAME_HEAD_RE : regex :=
  Eval vm_compute in
  RAlts (map (fun s => RLit (u s))
           ["路線名"; "林道名"; "森林管理道名"; "名称"; "路線"; "路線等"; "路線番号"]%string).

Definition BAD_NAME_SUBSTR : list pstr :=
  Eval vm_compute in
  map u ["路線名"; "市町村"; "現在"; "管理"; "センター"; "注意"; "について";
         "お知らせ"]%string.

(** [(not nm) or len(nm) < 2 or any(b in nm for b in BAD_NAME_SUBSTR)] *)
Definition bad_name (nm : pstr) : bool :=
  pstr_eqb nm [] || (length nm <? 2)%nat
  || existsb (fun b => contains b nm) BAD_NAME_SUBSTR.

(** [pick_names] (369-382).  The names are collected in a set; its
    elements are listed here in the order they were first added. *)
Definition pick_names (G : re_groups) (text : pstr) : list pstr :=
  let names :=
    remove_dups (map norm_rindo_name (P_RINDO_1_n G text)
                 ++ map norm_rindo_name (P_RINDO_2_n G text)) in
  filter (fun n => bad_name n = false) names.

(** The parsed page, as far as harvest_from_html reads it. *)
Record html_doc : Type := {
  (** for each table, its rows, each the texts of its th and td cells *)
  doc_tables : list (list (list pstr));
  (** the texts of the li nodes, then of the p nodes *)
  doc_li : list pstr;
  doc_p : list pstr;
  (** [doc.text(separator="\n")] *)
  doc_text : pstr
}.

Definition s_kanrido_short : pstr := Eval vm_compute in u "管理道".
Definition s_kisei : pstr := Eval vm_compute in u "規制".

(** The dictionary each tier appends. *)
Definition harvest_event (G : re_groups) (nm st text : pstr) : edict :=
  list_to_map
    [ ("name", PStr (nm ++ s_rindo));
      ("norm_name", PStr nm);
      ("status", PStr st);
      ("reason", opt_str (pick_reason text));
      ("from", opt_str (fst (pick_range G text)));
      ("to", opt_str (snd (pick_range G text)));
      ("snippet", PStr (take 160 text)) ]%string.

Definition mentions_road (s : pstr) : bool :=
  contains s_rindo s || contains s_kanrido_short s.

Fixpoint find_index {A} (p : A -> bool) (l : list A) : option nat :=
  match l with
  | [] => None
  | x :: l' => if p x then Some O else S <$> find_index p l'
  end.

(** The column guessed when no header names it (400-411): for each of
    the first columns, the rows among [rows[1:8]] that mention a road
    there; the largest (count, column) pair wins if its count is not 0. *)
Definition guess_name_idx (headers : list pstr) (rows : list (list pstr))
  : option nat :=
  let cand :=
    map (fun i =>
           (length (filter (fun tr => mentions_road (default [] (map strip tr !! i)) = true)
                      (take 7 (drop 1 rows))),
            i))
        (seq 0 (Nat.min 6 (Nat.max 1 (length headers)))) in
  let best :=
    foldl (fun b c => if (fst b <=? fst c)%nat then c else b) (O, O) cand in
  if (0 <? fst best)%nat then Some (snd best) else None.

(** One row of a table (413-438). *)
Definition table_row_events (G : re_groups) (name_idx : option nat)
    (tr : list pstr) : list edict :=
  let cells := map strip tr in
  if (length cells <? 2)%nat then []
  else
    let row_text := join [32] cells in
    match pick_status row_text with
    | Some (c :: st) =>
      let nm_raw := default [] (i ← name_idx; cells !! i) in
      let nm_raw :=
        match nm_raw with
        | [] => default [] (head (pick_names G row_text))
        | _ => nm_raw
        end in
      let nm := norm_rindo_name nm_raw in
      if bad_name nm then [] else [harvest_event G nm (c :: st) row_text]
    | _ => []
    end.

Definition table_events (G : re_groups) (rows : list (list pstr)) : list edict :=
  match rows with
  | [] => []
  | row0 :: _ =>
    let headers := map strip row0 in
    let name_idx :=
      match find_index (re_search NAME_HEAD_RE) headers with
      | Some i => Some i
      | None => guess_name_idx headers rows
      end in
    flat_map (table_row_events G name_idx) (drop 1 rows)
  end.

Definition STATUS_WORD_RE : regex :=
  Eval vm_compute in
  RAlts (map (fun s => RLit (u s)) ["通行止"; "規制"; "解除"; "通行可"; "通行可能"]%string).

(** One li or p node, or one line of the body (443-461, 466-484). *)
Definition line_events (G : re_groups) (text : pstr) : list edict :=
  let line := strip text in
  match line with
  | [] => []
  | _ =>
    if negb (mentions_road line) || negb (re_search STATUS_WORD_RE line) then []
    else
      let st := match pick_status line with
                | Some (c :: st) => c :: st
                | _ => s_kisei
                end in
      flat_map (fun n => let nm := norm_rindo_name n in
                         if bad_name nm then [] else [harvest_event G nm st line])
               (pick_names G line)
  end.

(** The line boundaries of [str.splitlines]. *)
Definition linebreak (c : N) : bool :=
  in_range 10 13 c || in_range 28 30 c || (c =? 133) || (c =? 8232) || (c =? 8233).

Fixpoint splitlines_from (cur : pstr) (s : pstr) : list pstr :=
  match s with
  | [] => match cur with [] => [] | _ => [cur] end
  | c :: s' =>
    if linebreak c then
      cur :: match s' with
             | c' :: s'' =>
               if (c =? 13) && (c' =? 10) then splitlines_from [] s''
               else splitlines_from [] s'
             | [] => []
             end
    else splitlines_from (cur ++ [c]) s'
  end.

Definition splitlines (s : pstr) : list pstr := splitlines_from [] s.

(** The three tiers of harvest_from_html (385-485), in the order the
    function runs them. *)
Definition tier_tables (G : re_groups) (doc : html_doc) : list edict :=
  flat_map (table_events G) (doc_tables doc).

Definition tier_nodes (G : re_groups) (doc : html_doc) : list edict :=
  flat_map (line_events G) (doc_li doc ++ doc_p doc).

Definition tier_body (G : re_groups) (doc : html_doc) : list edict :=
  flat_map (line_events G) (splitlines (doc_text doc)).

Definition harvest_from_html (G : re_groups) (doc : html_doc) : list edict :=
  tier_tables G doc ++ tier_nodes G doc ++ tier_body G doc.

(** [extract_generic_jp] (488-512) *)
Definition generic_code (stj : pstr) : pstr :=
  if contains (u "通行止") stj then st_closed
  else if existsb (fun k => contains k stj) [u "規制"; u "片側交互通行"; u "一部"]
  then st_regulated
  else if existsb (fun k => contains k stj) [u "解除"; u "通行可"] then st_open
  else [].

Definition extract_generic_jp (G : re_groups) (text base_url pref : pstr)
  : list edict :=
  flat_map
    (fun m =>
       let raw := fst m in
       let stj := snd m in
       let code := generic_code stj in
       let nm := norm_rindo_name raw in
       match code, nm with
       | _ :: _, _ :: _ =>
         [list_to_map
            [ ("pref", PStr pref);
              ("name", PStr (nm ++ s_rindo));
              ("norm_name", PStr nm);
              ("status", PStr code);
              ("reason", PNone);
              ("from", PNone);
              ("to", PNone);
              ("snippet", PStr (take 160 (raw ++ [32] ++ stj)));
              ("source_url", PStr base_url) ]%string]
       | _, _ => []
       end)
    (generic_name_status G text).

(** ** The crawl (monitor_agencies.py, 324-341, 543-560, 639-791) *)

(** One entry of state.json. *)
Record fingerprint : Type := {
  fp_etag : option pstr;
  fp_last_modified : option pstr;
  fp_length : option nat;
  fp_sha1 : option pstr;
  fp_checked_at : option pstr
}.

(** [state.get(url, {})] on a URL without an entry. *)
Definition no_fingerprint : fingerprint :=
  {| fp_etag := None; fp_last_modified := None; fp_length := None;
     fp_sha1 := None; fp_checked_at := None |}.

(** An HTTP response: status, headers under lower-case names, body. *)
Record response : Type := {
  status_code : N;
  headers : gmap string pstr;
  content : octets
}.

(** One entry of agencies.json, with the defaults of [run] filled in:
    [max_depth] is [int(crawl.get("max_depth", 1))] and [same_domain] is
    [bool(crawl.get("same_domain", True))]. *)
Record agency : Type := {
  ag_pref : pstr;
  ag_watch : list pstr;
  ag_auto_seeds : list pstr;
  ag_domains : list pstr;
  ag_max_depth : Z;
  ag_same_domain : bool;
  (** watch_patterns and the rest of "crawl", which only discover_links
      reads *)
  ag_patterns : list pstr
}.

(** What a run takes from outside: the clock, the network, and the
    routines that go through an HTML, PDF or OCR library.  The two
    Yamanashi parsers and discover_links are kept at this level: no
    property below reads inside them. *)
Record world : Type := {
  (** the successive readings of now_iso() *)
  clock : nat -> pstr;
  (** [client.get(url, headers=...)] with the If-None-Match and
      If-Modified-Since headers given; [None] is an exception *)
  http_get : pstr -> option pstr -> option pstr -> option response;
  (** [HTMLParser(html)] *)
  parse_html : pstr -> html_doc;
  discover_links : pstr -> pstr -> agency -> bool -> list pstr;
  (** the "url" fields of parse_yamanashi_list *)
  parse_yamanashi_list : pstr -> pstr -> pstr -> list pstr;
  parse_yamanashi_kisai : pstr -> pstr -> pstr -> list edict;
  extract_text_from_pdf_bytes : octets -> pstr;
  ocr_pdf_bytes_to_text : octets -> pstr;
  ocr_bytes_image_to_text : octets -> pstr;
  groups : re_groups;
  checks : netloc_checks
}.

(** [load_json(p, default)] (324-328).  [doc] is what
    [json.loads(p.read_text(...))] gives, [None] when either raises. *)
Definition load_json {A} (doc : option A) (default : A) : A :=
  match doc with
  | Some v => v
  | None => default
  end.

(** [s.lower()] as the crawl uses it, to look for ".pdf", ".jpg", ".jpeg"
    and ".png": only an ASCII letter lower-cases to a letter of these. *)
Definition lower (s : pstr) : pstr := map ascii_lower s.

Definition header (name : string) (hdr : gmap string pstr) : option pstr :=
  match hdr !! name with
  | Some (c :: v) => Some (c :: v)
  | _ => None
  end.

(** [(r.headers.get("content-type") or "").lower()] *)
Definition content_type (hdr : gmap string pstr) : pstr :=
  lower (default [] (hdr !! "content-type"%string)).

(** [st.get(k)] read as a condition or sent as a header: an empty string
    counts as absent. *)
Definition truthy_str (o : option pstr) : option pstr :=
  match o with
  | Some (c :: v) => Some (c :: v)
  | _ => None
  end.

(** [conditional_get] (543-560): content type, the body if it is to be
    processed, and the response headers. *)
Definition conditional_get (W : world) (url : pstr) (st : fingerprint)
  : pstr * option octets * gmap string pstr :=
  match http_get W url (truthy_str (fp_etag st)) (truthy_str (fp_last_modified st)) with
  | None => ([], None, ∅)
  | Some r =>
    if status_code r =? 304 then (content_type (headers r), None, headers r)
    else
      let body := content r in
      let changed :=
        match header "etag" (headers r) with
        | Some e => bool_decide (Some e ≠ fp_etag st)
        | None => false
        end
        || match header "last-modified" (headers r) with
           | Some m => bool_decide (Some m ≠ fp_last_modified st)
           | None => false
           end
        || bool_decide (Some (length body) ≠ fp_length st)
        || bool_decide (Some (sha1_hexdigest body) ≠ fp_sha1 st) in
      (content_type (headers r), if changed then Some body else None, headers r)
  end.

(** The state of the loop over one target's queue, and of the run. *)
Record crawl_state : Type := {
  tick : nat;
  fps : gmap pstr fingerprint;
  out : store;
  total_changes : nat;
  queue : list (pstr * nat);
  seen : gset pstr
}.

Inductive outcome (A : Type) : Type :=
| Ok (a : A)
| Raised
| NoFuel.
Arguments Ok {A} a.
Arguments Raised {A}.
Arguments NoFuel {A}.

Definition raise_none {A} (o : option A) : outcome A :=
  match o with
  | Some a => Ok a
  | None => Raised
  end.

Definition bind_outcome {A B} (m : outcome A) (k : A -> outcome B) : outcome B :=
  match m with
  | Ok a => k a
  | Raised => Raised
  | NoFuel => NoFuel
  end.

Definition YAMANASHI_HOSTS : list pstr :=
  Eval vm_compute in [u "www.pref.yamanashi.jp"; u "pref.yamanashi.jp"].

(** [urlparse(url).netloc] *)
Definition netloc_of (L : netloc_checks) (url : pstr) : option pstr :=
  (fun r => snd (fst (fst (fst r)))) <$> urlsplit L url.

(** [_same_domain] (339-341) *)
Definition _same_domain (L : netloc_checks) (url : pstr) (domains : list pstr)
  : option bool :=
  (fun host => existsb (fun d => endswith d host) domains) <$> netloc_of L url.

(** The links of discover_links that the loop keeps (748-754). *)
Fixpoint keep_links (L : netloc_checks) (same_dom : bool) (domains : list pstr)
    (seen : gset pstr) (cand : list pstr) : option (list pstr) :=
  match cand with
  | [] => Some []
  | u2 :: rest =>
    ok ← (if same_dom then _same_domain L u2 domains else Some true);
    l ← keep_links L same_dom domains seen rest;
    Some (if ok && bool_decide (u2 ∉ seen) then u2 :: l else l)
  end.

(** What the branch on the content type leaves behind (716-772): the
    events, the links to enqueue, the URL as reassigned by the PDF branch
    and the number of clock readings made. *)
Definition dispatch (W : world) (ag : agency) (auto : bool) (seen : gset pstr)
    (now : pstr) (url : pstr) (depth : nat) (ct : pstr) (body : octets)
  : option (list edict * list pstr * pstr * nat) :=
  let pref := ag_pref ag in
  let deeper := bool_decide (Z.of_nat depth < ag_max_depth ag)%Z in
  if contains (u "text/html") ct then
    let html := decode_ignore body in
    host ← netloc_of (checks W) url;
    let '(events, links, ticks) :=
      if bool_decide (host ∈ YAMANASHI_HOSTS) then
        if endswith (u ".pdf") (lower url) then ([], [], O)
        else if endswith (u "pref.yamanashi.jp") host
                && contains (u "/rindoujyouhou/kisei.php") url
        then (parse_yamanashi_kisai W html url now, [], 1%nat)
        else
          ([],
           if deeper
           then filter (fun u2 => u2 ≠ [] ∧ u2 ∉ seen) (parse_yamanashi_list W html url now)
           else [],
           1%nat)
      else (harvest_from_html (groups W) (parse_html W html), [], O) in
    events ←
      match events with
      | [] =>
        base ← canonical_url (checks W) url;
        Some (extract_generic_jp (groups W) (doc_text (parse_html W html)) base pref)
      | _ => Some events
      end;
    more ←
      (if deeper
       then keep_links (checks W) (ag_same_domain ag) (ag_domains ag) seen
              (discover_links W html url ag auto)
       else Some []);
    Some (events, links ++ more, url, ticks)
  else if contains (u "application/pdf") ct || endswith (u ".pdf") (lower url) then
    url' ← canonical_url (checks W) url;
    let txt := extract_text_from_pdf_bytes W body in
    let txt := if (length txt <? 30)%nat then ocr_pdf_bytes_to_text W body else txt in
    Some (extract_generic_jp (groups W) txt url' pref, [], url', O)
  else if existsb (fun ext => contains ext (lower url)) [u ".jpg"; u ".jpeg"; u ".png"]
          || contains (u "image/") ct then
    base ← canonical_url (checks W) url;
    Some (extract_generic_jp (groups W) (ocr_bytes_image_to_text W body) base pref,
          [], url, O)
  else Some ([], [], url, O).

(** One turn of the [while queue] loop (684-787) for a target of agency
    [ag]; the queue is not empty. *)
Definition visit (W : world) (dry_run full : bool) (ag : agency) (auto : bool)
    (s : crawl_state) (url : pstr) (depth : nat) (rest : list (pstr * nat))
  : outcome crawl_state :=
  let s := {| tick := tick s; fps := fps s; out := out s;
              total_changes := total_changes s; queue := rest; seen := seen s |} in
  if bool_decide (url ∈ seen s) then Ok s
  else
    let seen' := {[ url ]} ∪ seen s in
    let s := {| tick := tick s; fps := fps s; out := out s;
                total_changes := total_changes s; queue := rest; seen := seen' |} in
    let st := default no_fingerprint (fps s !! url) in
    let fetched :=
      if full then
        match http_get W url None None with
        | Some r => (content_type (headers r), Some (content r), headers r)
        | None => ([], None, ∅)
        end
      else conditional_get W url st in
    let '(ct, body, hdr) := fetched in
    match body with
    | None => Ok s
    | Some body =>
      bind_outcome
        (raise_none (dispatch W ag auto seen' (clock W (tick s)) url depth ct body))
        (fun '(evs, more_links, url', ticks) =>
           let t := (tick s + ticks)%nat in
           bind_outcome
             (match evs with
              | _ :: _ =>
                if dry_run then Ok (out s, total_changes s, t)
                else
                  bind_outcome
                    (raise_none (merge_events (checks W) (clock W t) (out s) evs
                                   (ag_pref ag) url'))
                    (fun o => Ok (o, S (total_changes s), S t))
              | [] => Ok (out s, total_changes s, t)
              end)
             (fun '(o, changes, t) =>
                Ok {| tick := S t;
                      fps := <[ url' :=
                                 {| fp_etag := hdr !! "etag"%string;
                                    fp_last_modified := hdr !! "last-modified"%string;
                                    fp_length := Some (length body);
                                    fp_sha1 := Some (sha1_hexdigest body);
                                    fp_checked_at := Some (clock W t) |} ]> (fps s);
                      out := o;
                      total_changes := changes;
                      queue := rest ++ map (fun u2 => (u2, S depth)) more_links;
                      seen := seen' |}))
    end.

(** The loop over the queue of one target, for at most [fuel] turns. *)
Fixpoint crawl (W : world) (dry_run full : bool) (ag : agency) (auto : bool)
    (fuel : nat) (s : crawl_state) : outcome crawl_state :=
  match queue s with
  | [] => Ok s
  | (url, depth) :: rest =>
    match fuel with
    | O => NoFuel
    | S fuel' =>
      bind_outcome (visit W dry_run full ag auto s url depth rest)
        (crawl W dry_run full ag auto fuel')
    end
  end.

(** The entry URLs (645-657): (agency, url, auto). *)
Definition targets_of (agencies : list agency) : list (agency * pstr * bool) :=
  flat_map
    (fun ag =>
       match ag_watch ag with
       | _ :: _ => map (fun x => (ag, x, false)) (ag_watch ag)
       | [] => map (fun x => (ag, x, true)) (ag_auto_seeds ag)
       end)
    agencies.

(** [targets[:limit]] under [if limit] *)
Definition limit_targets {A} (limit : option Z) (l : list A) : list A :=
  match limit with
  | None => l
  | Some z =>
    if (z =? 0)%Z then l
    else if (0 <? z)%Z then take (Z.to_nat z) l
    else take (length l - Z.to_nat (- z)) l
  end.

(** The loop over the targets (667-787): each starts from its own queue
    and its own set of seen URLs. *)
Fixpoint crawl_targets (W : world) (dry_run full : bool) (fuel : nat)
    (ts : list (agency * pstr * bool)) (s : crawl_state) : outcome crawl_state :=
  match ts with
  | [] => Ok s
  | (ag, url, auto) :: ts' =>
    bind_outcome
      (crawl W dry_run full ag auto fuel
         {| tick := tick s; fps := fps s; out := out s;
            total_changes := total_changes s; queue := [(url, O)]; seen := ∅ |})
      (crawl_targets W dry_run full fuel ts')
  end.

(** The three documents a run reads, each [None] when it cannot be read
    or parsed. *)
Record files : Type := {
  REG_FILE : option (list agency);
  STATE_FILE : option (gmap pstr fingerprint);
  OUT_FILE : option store
}.

(** What a run hands to save_json: the event store, when it is written,
    and the state, when it is. *)
Record saved : Type := {
  saved_out : option store;
  saved_state : option (gmap pstr fingerprint)
}.

(** [run] (639-791), each queue given [fuel] turns.  The snapshots of
    pages and files are not part of the model. *)
Definition run (W : world) (F : files) (dry_run full : bool) (limit : option Z)
    (fuel : nat) : outcome saved :=
  let agencies := load_json (REG_FILE F) [] in
  let state := load_json (STATE_FILE F) ∅ in
  let out0 := load_json (OUT_FILE F) {| events := []; updated := PStr (clock W O) |} in
  let targets := limit_targets limit (targets_of agencies) in
  match targets with
  | [] => Ok {| saved_out := None; saved_state := None |}
  | _ =>
    bind_outcome
      (crawl_targets W dry_run full fuel targets
         {| tick := 1; fps := state; out := out0; total_changes := O;
            queue := []; seen := ∅ |})
      (fun s =>
         Ok {| saved_out :=
                 if negb dry_run && (0 <? total_changes s)%nat then Some (out s) else None;
               saved_state := Some (fps s) |})
  end.

(** * Definitions used by the statements *)

Ltac by_vm :=
  lazymatch goal with
  | |- @eq ?T _ ?r => vm_cast_no_check (@eq_refl T r)
  end.

(** ** Regular expressions: the derivative matcher against the languages *)
Inductive matches : regex -> pstr -> Prop :=
| M_eps : matches REps []
| M_chr cls c : cls c = true -> matches (RChr cls) [c]
| M_seq a b s t : matches a s -> matches b t -> matches (RSeq a b) (s ++ t)
| M_alt_l a b s : matches a s -> matches (RAlt a b) s
| M_alt_r a b s : matches b s -> matches (RAlt a b) s
| M_star_nil a : matches (RStar a) []
| M_star_app a s t : matches a s -> matches (RStar a) t -> matches (RStar a) (s ++ t).

Create HintDb re discriminated.

#[local] Hint Constructors matches : re.

(** ** Status classification *)
Definition s_tsukodome : pstr := Eval vm_compute in u "通行止".

(** ** The index of the merge *)
Definition index_step (m : gmap pstr nat) (ie : nat * edict) : gmap pstr nat :=
  match get "id" (snd ie) with
  | PStr (c :: s) => <[c :: s := fst ie]> m
  | _ => m
  end.

(** What the loop keeps true of the list it works on, [base] being the
    list the index was built from: the records of [base] stay where they
    are with their ids, and what is appended has an id the index lacks. *)
Definition loop_inv (base evs : list edict) : Prop :=
  (forall j e0, base !! j = Some e0 ->
     exists e, evs !! j = Some e /\ get "id" e = get "id" e0)
  /\ (forall j e, (length base <= j)%nat -> evs !! j = Some e ->
        exists k, get "id" e = PStr k /\ index_of base !! k = None).

(** An event of the harvest is the dictionary built from a name that
    passed the name filter and from a label. *)
Definition harvested (G : re_groups) (e : edict) : Prop :=
  exists nm st text,
    e = harvest_event G nm st text /\ bad_name nm = false /\ In st STATUS_LABELS.

(** ** Sample inputs *)
(** A [re] engine on texts where none of the patterns with groups has a
    match. *)
Definition no_matches : re_groups :=
  {| P_RINDO_1_n := fun _ => [];
     P_RINDO_2_n := fun _ => [];
     P_RANGE_from_to := fun _ => None;
     P_DATE_SINGLE_d := fun _ => None;
     generic_name_status := fun _ => [] |}.

Definition empty_store : store := {| events := []; updated := PNone |}.

(** A page with one table: header 路線名 / 状況, one row. *)
Definition table_page : html_doc :=
  {| doc_tables := [[[u "路線名"; u "状況"]; [u "大平林道"; u "全面通行止"]]];
     doc_li := [];
     doc_p := [];
     doc_text := join [10] [u "路線名"; u "状況"; u "大平林道"; u "全面通行止"] |}.

Definition s_komori_line : pstr := Eval vm_compute in u "林道小森線は通行規制中です".

(** The same table followed by a paragraph about another road.  In the
    paragraph P_RINDO_1 has one match, 林道小森線 with 小森 as its name. *)
Definition table_and_text_page : html_doc :=
  {| doc_tables := [[[u "路線名"; u "状況"]; [u "大平林道"; u "全面通行止"]]];
     doc_li := [];
     doc_p := [s_komori_line];
     doc_text := join [10] [u "路線名"; u "状況"; u "大平林道"; u "全面通行止";
                            s_komori_line] |}.

Definition komori_matches : re_groups :=
  {| P_RINDO_1_n := fun s => if pstr_eqb s s_komori_line then [u "小森"] else [];
     P_RINDO_2_n := fun _ => [];
     P_RANGE_from_to := fun _ => None;
     P_DATE_SINGLE_d := fun _ => None;
     generic_name_status := fun _ => [] |}.

Definition ev_of (name norm status : string) : edict :=
  list_to_map [("name"%string, PStr (u name)); ("norm_name"%string, PStr (u norm));
               ("status"%string, PStr (u status))].

Definition sample_url : pstr := Eval vm_compute in u "https://example.jp/rindo.html".

Definition sample_pref : pstr := Eval vm_compute in u "山梨県".

(** A record of the store, as an earlier run left it, and the store
    that holds it. *)
Definition rec_taihei : edict :=
  list_to_map [("id"%string, PStr (u "31525d973b8761cc"));
               ("name"%string, PStr (u "大平林道"));
               ("norm_name"%string, PStr (u "大平"));
               ("status"%string, PStr (u "通行止"));
               ("reason"%string, PStr (u "落石"));
               ("updated_at"%string, PStr (u "2024-10-01T09:00:00+09:00"))].

Definition store_taihei : store :=
  {| events := [rec_taihei]; updated := PStr (u "2024-10-01T09:00:00+09:00") |}.

(** [store_taihei] after the merge of an "open" report of the same road,
    a day later. *)
Definition store_taihei_open : store :=
  Eval vm_compute in
  default empty_store
    (merge_events plain_netlocs (u "2024-10-02T09:00:00+09:00") store_taihei
       [ev_of "大平林道" "大平" "open"] sample_pref sample_url).

(** ** Sample worlds *)
Definition ok_value {A} (o : outcome A) : option A :=
  match o with
  | Ok a => Some a
  | _ => None
  end.

(** A world whose pages parse to [doc], without links, PDF text or OCR
    text. *)
Definition quiet_world (clock : nat -> pstr)
    (http_get : pstr -> option pstr -> option pstr -> option response)
    (doc : html_doc) : world :=
  {| clock := clock;
     http_get := http_get;
     parse_html := fun _ => doc;
     discover_links := fun _ _ _ _ => [];
     parse_yamanashi_list := fun _ _ _ => [];
     parse_yamanashi_kisai := fun _ _ _ => [];
     extract_text_from_pdf_bytes := fun _ => [];
     ocr_pdf_bytes_to_text := fun _ => [];
     ocr_bytes_image_to_text := fun _ => [];
     groups := no_matches;
     checks := plain_netlocs |}.

(** The clock of the samples: the n-th reading is "2024-10-02T09:00:0n". *)
Definition sample_clock (n : nat) : pstr := u "2024-10-02T09:00:0" ++ [48 + N.of_nat n].

Definition sample_agency : agency :=
  {| ag_pref := sample_pref;
     ag_watch := [sample_url];
     ag_auto_seeds := [];
     ag_domains := [u "example.jp"];
     ag_max_depth := 1;
     ag_same_domain := true;
     ag_patterns := [] |}.

(** A server that answers every request with 304 Not Modified. *)
Definition world_not_modified : world :=
  quiet_world sample_clock
    (fun _ _ _ => Some {| status_code := 304; headers := ∅; content := [] |})
    table_page.

(** A server that answers every request with the page of [table_page]. *)
Definition world_table_page : world :=
  quiet_world sample_clock
    (fun _ _ _ =>
       Some {| status_code := 200;
               headers := {[ "content-type"%string := u "text/html; charset=utf-8" ]};
               content := [] |})
    table_page.

Definition seen_before : crawl_state :=
  {| tick := 1;
     fps := {[ sample_url :=
                 {| fp_etag := Some (u "abc");
                    fp_last_modified := None;
                    fp_length := Some 120%nat;
                    fp_sha1 := Some (u "da39a3ee5e6b4b0d3255bfef95601890afd80709");
                    fp_checked_at := Some (u "2024-10-01T09:00:00") |} ]};
     out := empty_store;
     total_changes := 0;
     queue := [(sample_url, O)];
     seen := ∅ |}.



(** ** UTF-8: decoding what was encoded *)
(** Settles the comparisons of the goal that the hypotheses decide. *)
Ltac nbool :=
  repeat match goal with
         | |- context [?a <? ?b] =>
           first [ rewrite (proj2 (N.ltb_lt a b)) by lia
                 | rewrite (proj2 (N.ltb_ge a b)) by lia ]
         | |- context [?a <=? ?b] =>
           first [ rewrite (proj2 (N.leb_le a b)) by lia
                 | rewrite (proj2 (N.leb_gt a b)) by lia ]
         | |- context [?a =? ?b] =>
           first [ rewrite (proj2 (N.eqb_eq a b)) by lia
                 | rewrite (proj2 (N.eqb_neq a b)) by lia ]
         end.

(** The characters a quoted string is made of. *)
Definition quoted_char (safe : N -> bool) (c : N) : bool :=
  always_safe c || (c =? 37) || safe c.

(** The characters of what quote_plus returns. *)
Definition plus_char (c : N) : bool := always_safe c || (c =? 37) || (c =? 43).

(** The characters of an encoded query. *)
Definition query_char (c : N) : bool := plus_char c || (c =? 61) || (c =? 38).

(** An encoded field: key, "=", value, both quoted. *)
Definition field_of (kv : pstr * pstr) (f : pstr) : Prop :=
  exists k' v',
    quote_plus (fst kv) = Some k' /\ quote_plus (snd kv) = Some v'
    /\ f = k' ++ 61 :: v'.

(** ** Splitting a URL and putting it together again *)
(** The checks of urlsplit on the authority, taken together. *)
Definition netloc_passes (L : netloc_checks) (netloc : pstr) : bool :=
  negb (xorb (has 91 netloc) (has 93 netloc))
  && negb (has 91 netloc && has 93 netloc && negb (bracketed_netloc_ok L netloc))
  && negb (negb (isascii netloc) && negb (nfkc_netloc_ok L netloc)).

(** The text that urlsplit parses: leading controls and blanks stripped,
    tabs and line ends removed. *)
Definition cleaned (url : pstr) : pstr := remove_class tab_cr_lf (lstrip_c0 url).

(** No scheme is found in front of the text. *)
Definition no_scheme (s : pstr) : bool :=
  match cut 58 s with
  | Some (c :: pre, _) => negb (ascii_alpha c && forallb scheme_char (c :: pre))
  | _ => true
  end.

(** A scheme as urlsplit returns it: empty, or lower-case scheme
    characters after a letter. *)
Definition scheme_ok (scheme : pstr) : Prop :=
  scheme = []
  \/ exists c pre,
       scheme = c :: pre /\ ascii_alpha c = true
       /\ forallb scheme_char (c :: pre) = true
       /\ map ascii_lower (c :: pre) = c :: pre.

(** What urlsplit returns for a text without "#": the three parts that
    urlunsplit writes back in front of the query. *)
Record url_parts (scheme netloc path : pstr) : Prop := {
  parts_scheme : scheme_ok scheme;
  parts_netloc : Forall (fun c => netloc_delim c = false) netloc;
  parts_path : ~ In 63 path /\ ~ In 35 path;
  parts_clean : Forall (fun c => tab_cr_lf c = false) (netloc ++ path);
  parts_rooted : netloc <> [] -> path = [] \/ exists p, path = 47 :: p;
  parts_bare : scheme = [] -> no_scheme path = true /\ lstrip_c0 path = path
}.

(** The authority and the path as urlunsplit writes them. *)
Definition unsplit_body (scheme netloc path : pstr) : pstr :=
  match netloc with
  | _ :: _ =>
    [47; 47] ++ netloc ++
      match path with
      | [] => []
      | c :: _ => if c =? 47 then path else 47 :: path
      end
  | [] =>
    if startswith [47; 47] path then [47; 47] ++ path
    else if negb (pstr_eqb scheme []) && bool_decide (scheme ∈ uses_netloc)
            && (pstr_eqb path [] || startswith [47] path)
    then [47; 47] ++ path
    else path
  end.

Definition query_tail (qs : pstr) : pstr :=
  match qs with
  | [] => []
  | _ => 63 :: qs
  end.

(** The authority and the path as the urlunsplit of the releases up to
    3.12.3 writes them. *)
Definition unsplit_body_3_11 (scheme netloc path : pstr) : pstr :=
  if negb (pstr_eqb netloc [])
     || (negb (pstr_eqb scheme []) && bool_decide (scheme ∈ uses_netloc)
         && negb (startswith [47; 47] path))
  then [47; 47] ++ netloc ++
       (if negb (pstr_eqb path []) && negb (startswith [47] path)
        then 47 :: path else path)
  else path.

(** [urlsplit] finds an authority that is not empty in the URL, read up
    to its first "#". *)
Definition has_authority (L : netloc_checks) (url : pstr) : bool :=
  match urlsplit L (fst (cut_or 35 url)) with
  | Some (_, _ :: _, _, _, _) => true
  | _ => false
  end.

(** A character that urlsplit neither removes nor reads as the start of
    the fragment. *)
Definition url_char (c : N) : Prop := tab_cr_lf c = false /\ c <> 35.

(** ** canonical_url on the urlunsplit of CPython 3.11 *)
(** [canonical_url] (monitor_agencies.py, 94-99) run on that urlunsplit *)
Definition canonical_url_3_11 (L : netloc_checks) (url : pstr) : option pstr :=
  let u0 := fst (cut_or 35 url) in
  '(scheme, netloc, path, query, _) ← urlsplit L u0;
  let q := filter (fun kv => fst kv ≠ s_area_id) (parse_qsl query) in
  qs ← urlencode q;
  Some (urlunsplit_3_11 scheme netloc path qs []).

(** ** More on the merge: the index, insertion, the frame *)
(** A lower-case hexadecimal digit. *)
Definition hex_lower (c : N) : bool := in_range 48 57 c || in_range 97 102 c.

(** No surrogate, and inside the code space: what [str.encode("utf-8")]
    accepts. *)
Definition encodable (c : N) : bool :=
  (c <? 55296) || ((57343 <? c) && (c <? 1114112)).

(** A raw event about another road, and the payload the merge builds
    for it at the sample page. *)
Definition ev_komori : edict := ev_of "小森林道" "小森" "規制".

Definition payload_komori : pstr * edict :=
  Eval vm_compute in
  default ([], ∅)
    (payload_of plain_netlocs (u "2024-10-02T09:00:00+09:00") sample_pref sample_url
       (raw_name_of ev_komori) (norm_of ev_komori) ev_komori).

(** A [re] engine on a text where the pattern of extract_generic_jp has
    one match: 大平線 with 通行止. *)
Definition generic_matches : re_groups :=
  {| P_RINDO_1_n := fun _ => [];
     P_RINDO_2_n := fun _ => [];
     P_RANGE_from_to := fun _ => None;
     P_DATE_SINGLE_d := fun _ => None;
     generic_name_status := fun _ => [(u "大平線", u "通行止")] |}.

Definition ev_generic : edict :=
  Eval vm_compute in
  default ∅ (head (extract_generic_jp generic_matches (u "大平線は通行止です")
                     sample_url sample_pref)).

(** ** Change detection and the state of the crawl *)
(** The entry run writes into the state for a processed response
    (780-783). *)
Definition fingerprint_of (hdr : gmap string pstr) (body : octets) (checked : pstr)
  : fingerprint :=
  {| fp_etag := hdr !! "etag"%string;
     fp_last_modified := hdr !! "last-modified"%string;
     fp_length := Some (length body);
     fp_sha1 := Some (sha1_hexdigest body);
     fp_checked_at := Some checked |}.

(** The response of the server of [world_table_page]. *)
Definition resp_table_page : response :=
  {| status_code := 200;
     headers := {[ "content-type"%string := u "text/html; charset=utf-8" ]};
     content := [] |}.

(** The state of a run that starts from [store_taihei], and what the
    dry crawl of the sample page leaves of it. *)
Definition state_taihei : crawl_state :=
  {| tick := 1; fps := ∅; out := store_taihei; total_changes := 0;
     queue := []; seen := ∅ |}.

Definition state_taihei_dry : crawl_state :=
  Eval vm_compute in
  default state_taihei
    (ok_value (crawl_targets world_table_page true false 5
                 [(sample_agency, sample_url, false)] state_taihei)).

(** The branch on the content type, and the whole turn, for the sample
    page fetched from [state_taihei]. *)
Definition dispatch_table_page : list edict * list pstr * pstr * nat :=
  Eval vm_compute in
  default ([], [], [], O)
    (dispatch world_table_page sample_agency false ({[ sample_url ]} ∪ seen state_taihei)
       (clock world_table_page (tick state_taihei)) sample_url O
       (content_type (headers resp_table_page)) (content resp_table_page)).

Definition state_taihei_visited : crawl_state :=
  Eval vm_compute in
  default state_taihei
    (ok_value (visit world_table_page false false sample_agency false state_taihei
                 sample_url O [])).

















(** * make_roads_from_master.py *)
(** What the script takes from the Unicode tables and the [html]
    module. *)
Record text_lib : Type := {
  (** [unicodedata.normalize("NFKC", s)] *)
  nfkc : pstr -> pstr;
  (** [html.unescape(s)] *)
  unescape : pstr -> pstr;
  (** [s.lower()] *)
  str_lower : pstr -> pstr
}.

(** [s.replace(old, new)] for single characters *)
Definition replace_char (old new : N) (s : pstr) : pstr :=
  map (fun c => if c =? old then new else c) s.

(** [re.sub("[opens].*?[closes]", "", s)].  [pending] holds the text
    read since an opening character that has not met its closing one yet;
    [.] stops at a line feed, and then, as at the end of the string, no
    opening character of the pending text has a match. *)
Fixpoint remove_bracketed (opens closes : N -> bool) (pending : option pstr)
    (s : pstr) : pstr :=
  match s with
  | [] => default [] pending
  | c :: s' =>
    match pending with
    | None =>
      if opens c then remove_bracketed opens closes (Some [c]) s'
      else c :: remove_bracketed opens closes None s'
    | Some p =>
      if closes c then remove_bracketed opens closes None s'
      else if c =? 10 then p ++ c :: remove_bracketed opens closes None s'
      else remove_bracketed opens closes (Some (p ++ [c])) s'
    end
  end.

(** [re.sub("(a1|a2|...)", "", s)] for non-empty literals: at each
    position the first alternative that fits is dropped.  [skip] counts
    the characters of the occurrence being dropped. *)
Fixpoint remove_alts (alts : list pstr) (skip : nat) (s : pstr) : pstr :=
  match s with
  | [] => []
  | c :: s' =>
    match skip with
    | S k => remove_alts alts k s'
    | O =>
      match find (fun a => startswith a s) alts with
      | Some a => remove_alts alts (length a - 1) s'
      | None => c :: remove_alts alts 0 s'
      end
    end
  end.

Definition square_open : pstr := Eval vm_compute in u "【［[{〔".

Definition square_close : pstr := Eval vm_compute in u "】］]}〕".

Definition round_open : pstr := Eval vm_compute in u "（(".

Definition round_close : pstr := Eval vm_compute in u ")）".

(** [[（）()・･‐\-—―ｰ\s　]] *)
Definition cls_punct_blank (c : N) : bool := cls_punct c || isspace c || (c =? 12288).

Definition s_sen : pstr := Eval vm_compute in u "線".

(** [norm_name] (29-44) *)
Definition norm_name (T : text_lib) (s : pstr) : pstr :=
  match s with
  | [] => []
  | _ =>
    let s := nfkc T s in
    let s := unescape T s in
    let s := remove_bracketed (fun c => has c square_open) (fun c => has c square_close)
               None s in
    let s := remove_bracketed (fun c => has c round_open) (fun c => has c round_close)
               None s in
    let s := replace_char 8211 45 (replace_char 8213 45 (replace_char 65293 45 s)) in
    let s := replace_char 12533 12459 (replace_char 12534 12465 s) in
    let s := remove_all s_kanrido s in
    let s := remove_alts [u "県営"; u "市営"; u "町営"; u "村営"] 0 s in
    let s := remove_at_end [u "本線"; u "幹線"] s in
    let s := remove_at_end [u "支線"; u "支"] s in
    let s := remove_all s_sen (remove_all s_rindo s) in
    remove_class cls_punct_blank s
  end.

(** status_code (46-58) of make_roads_from_master.py; the response field
    above has the name, so the function is [road_status_code] here. *)
Definition road_status_code (T : text_lib) (jp_or_en : pstr) : pstr :=
  match jp_or_en with
  | [] => st_open
  | _ =>
    let t := jp_or_en in
    let tl := str_lower T t in
    if contains (u "closed") tl then st_closed
    else if contains (u "regulated") tl || contains (u "restriction") tl
            || contains (u "traffic control") tl then st_regulated
    else if contains (u "open") tl || contains (u "reopen") tl then st_open
    else if contains (u "通行止") t then st_closed
    else if existsb (fun k => contains k t)
              [u "規制"; u "片側交互通行"; u "交互"; u "う回"; u "一部"] then st_regulated
    else if existsb (fun k => contains k t) [u "解除"; u "通行可"; u "復旧"] then st_open
    else st_open
  end.

(** SEV (60); [None] is the KeyError of a status that is not a key. *)
Definition SEV (code : pstr) : option N :=
  if pstr_eqb code st_open then Some 1
  else if pstr_eqb code st_regulated then Some 2
  else if pstr_eqb code st_closed then Some 3
  else None.

(** [s.zfill(2)] *)
Definition zfill2 (s : pstr) : pstr :=
  match s with
  | [] => [48; 48]
  | [c] => if (c =? 43) || (c =? 45) then [c; 48] else [48; c]
  | _ => s
  end.

(** [a < b] on [str]: code point by code point. *)
Fixpoint pstr_ltb (a b : pstr) : bool :=
  match a, b with
  | _, [] => false
  | [], _ :: _ => true
  | x :: a', y :: b' => (x <? y) || ((x =? y) && pstr_ltb a' b')
  end.

(** The candidate load_events builds for an event (78-85). *)
Record cand : Type := {
  c_norm_name : pstr;
  c_pref_code : pstr;
  c_status : pstr;
  c_status_jp : pstr;
  c_source_url : pstr;
  c_updated_at : pstr
}.

(** A [dict] with [str] keys, in the order of insertion. *)
Definition dict_get {V} (k : pstr) (d : list (pstr * V)) : option V :=
  snd <$> find (fun kv => pstr_eqb (fst kv) k) d.

Definition dict_set {V} (k : pstr) (v : V) (d : list (pstr * V)) : list (pstr * V) :=
  if existsb (fun kv => pstr_eqb (fst kv) k) d
  then map (fun kv => if pstr_eqb (fst kv) k then (k, v) else kv) d
  else d ++ [(k, v)].

(** The key and the candidate of an event, or [None] for an event that
    is passed over (72-86). *)
Definition cand_of (T : text_lib) (e : edict) : option (pstr * cand) :=
  let nm := norm_name T (str_or (get "norm_name" e) (str_or (get "name" e) [])) in
  let pc := zfill2 (str_or (get "pref_code" e) []) in
  match nm, pc with
  | _ :: _, _ :: _ =>
    let code := road_status_code T (str_or (get "status" e) (str_or (get "status_jp" e) [])) in
    Some (pc ++ [124] ++ nm,
          {| c_norm_name := nm;
             c_pref_code := pc;
             c_status := code;
             c_status_jp := str_or (get "status_jp" e) [];
             c_source_url := str_or (get "source_url" e) [];
             c_updated_at := str_or (get "updated_at" e) [] |})
  | _, _ => None
  end.

(** The test of 92-93 on a candidate and the best one so far. *)
Definition beats (c cur : cand) : option bool :=
  sc ← SEV (c_status c);
  scur ← SEV (c_status cur);
  Some ((scur <? sc) || ((sc =? scur) && pstr_ltb (c_updated_at cur) (c_updated_at c))).

(** The loop of load_events (71-94) over [data.get("events", [])], on
    [best] and [all_by_key]. *)
Fixpoint load_loop (T : text_lib) (evs : list edict)
    (best : list (pstr * cand)) (all_by_key : list (pstr * list cand))
  : option (list (pstr * cand) * list (pstr * list cand)) :=
  match evs with
  | [] => Some (best, all_by_key)
  | e :: evs' =>
    match cand_of T e with
    | None => load_loop T evs' best all_by_key
    | Some (key, c) =>
      let all_by_key := dict_set key (default [] (dict_get key all_by_key) ++ [c]) all_by_key in
      match dict_get key best with
      | None => load_loop T evs' (dict_set key c best) all_by_key
      | Some cur =>
        match beats c cur with
        | Some b => load_loop T evs' (if b then dict_set key c best else best) all_by_key
        | None => None
        end
      end
    end
  end.

(** [load_events] (62-99) on the events of reg_events.json: best,
    by_name and all_by_key. *)
Definition load_events (T : text_lib) (evs : list edict)
  : option (list (pstr * cand) * list (pstr * list cand) * list (pstr * list cand)) :=
  '(best, all_by_key) ← load_loop T evs [] [];
  let by_name :=
    foldl (fun (d : list (pstr * list cand)) (v : cand) =>
             dict_set (c_norm_name v) (default [] (dict_get (c_norm_name v) d) ++ [v]) d)
      [] (map snd best) in
  Some (best, by_name, all_by_key).

(** The characters norm_name rewrites or removes one by one. *)
Definition norm_name_gone : pstr := Eval vm_compute in u "線－―–ヶヵ".

(** ** load_events: the best candidate of a key *)
(** The keys and candidates of the events that load_events does not pass
    over, in the order of the events, and those of one key. *)
Definition cands_of (T : text_lib) (evs : list edict) : list (pstr * cand) :=
  omap (cand_of T) evs.

Definition cands_for (T : text_lib) (key : pstr) (evs : list edict) : list cand :=
  map snd (filter (fun kc => fst kc = key) (cands_of T evs)).

(** The severity of a candidate, and "[c] does not beat [b]": [c] is
    less severe, or as severe and not updated later. *)
Definition sev (c : cand) : N := default 0 (SEV (c_status c)).

Definition not_better (c b : cand) : Prop :=
  sev c < sev b
  \/ (sev c = sev b /\ pstr_ltb (c_updated_at b) (c_updated_at c) = false).

(** What the loop of load_events keeps true of [best] and [all_by_key],
    [done] being the keys and candidates met so far. *)
Definition load_inv (done : list (pstr * cand)) (best : list (pstr * cand))
    (all_by_key : list (pstr * list cand)) : Prop :=
  Forall (fun kc => is_Some (SEV (c_status (snd kc)))) done
  /\ forall key,
       match map snd (filter (fun kc => fst kc = key) done) with
       | [] => dict_get key best = None /\ dict_get key all_by_key = None
       | cs =>
         dict_get key all_by_key = Some cs
         /\ exists b, dict_get key best = Some b /\ In b cs
                      /\ forall c, In c cs -> not_better c b
       end.

(** The values of [vs] whose norm_name is [nm], in their order. *)
Definition named (nm : pstr) (vs : list cand) : list cand :=
  filter (fun v => c_norm_name v = nm) vs.

(** * Properties *)

Example norm_rindo_name_ex1 :
  norm_rindo_name (u "林道 大平線") = u "大平".
Proof. vm_compute. reflexivity. Qed.

Example pick_status_ex1 :
  pick_status (u "全面通行止め") = Some (u "通行止")
  /\ pick_status (u "通行規制解除") = Some (u "規制")
  /\ pick_status (u "abc") = None.
Proof. vm_compute. auto. Qed.

Example sha1_abc :
  sha1_hexdigest (u "abc") = u "a9993e364706816aba3e25717850c26c9cd0d89d".
Proof. vm_compute. reflexivity. Qed.

Example sha1_two_blocks :
  sha1_hexdigest (u "abcdbcdecdefdefgefghfghighijhijkijkljklmklmnlmnomnopnopq")
  = u "84983e441c3bd26ebaae4aa1f95129e5e54670f1".
Proof. vm_compute. reflexivity. Qed.

Example canonical_url_ex1 :
  canonical_url plain_netlocs (u "https://www.pref.yamanashi.jp/rindoujyouhou/kisei.php?id=12&area_id=3#top")
  = Some (u "https://www.pref.yamanashi.jp/rindoujyouhou/kisei.php?id=12").
Proof. vm_compute. reflexivity. Qed.

Example merge_events_ex1 :
  (map (fun e => (get "id" e, get "pref_code" e, get "source_url" e, get "status" e))
   <$> (events <$> merge_events plain_netlocs (u "T1") {| events := []; updated := PNone |}
     [list_to_map [("name"%string, PStr (u "大平林道")); ("norm_name"%string, PStr (u "大平"));
                   ("status"%string, PStr (u "通行止"))]]
     (u "山梨県") (u "https://example.jp/a.html#x")))
  = Some [(PStr (u "557ab095fcc92b6d"), PStr (u "19"),
           PStr (u "https://example.jp/a.html"), PStr (u "通行止"))].
Proof. by_vm. Qed.

(** ** Strings *)
Lemma startswith_spec (p s : pstr) :
  startswith p s = true <-> exists r, s = p ++ r.
Proof.
  revert s. induction p as [|a p IH]; intros s; simpl.
  - split; eauto.
  - destruct s as [|b s]; simpl.
    + split; [discriminate | intros [r Hr]; discriminate].
    + rewrite andb_true_iff, N.eqb_eq, IH. split.
      * intros [-> [r ->]]. eauto.
      * intros [r Hr]. injection Hr as -> ->. eauto.
Qed.

Lemma contains_spec (p s : pstr) :
  contains p s = true <-> exists l r, s = l ++ p ++ r.
Proof.
  induction s as [|c s IH]; simpl.
  - rewrite orb_false_r, startswith_spec. split.
    + intros [r Hr]. exists [], r. exact Hr.
    + intros [l [r Hr]]. destruct l; simpl in Hr; [eauto | discriminate].
  - rewrite orb_true_iff, startswith_spec, IH. split.
    + intros [[r Hr] | [l [r Hr]]].
      * exists [], r. exact Hr.
      * exists (c :: l), r. simpl. congruence.
    + intros [[|x l] [r Hr]]; simpl in Hr.
      * left. eauto.
      * right. injection Hr as -> ->. eauto.
Qed.

Lemma contains_app_l (p a b : pstr) :
  contains p a = true -> contains p (a ++ b) = true.
Proof.
  rewrite !contains_spec. intros [l [r ->]]. exists l, (r ++ b).
  now rewrite <- !app_assoc.
Qed.

Lemma contains_app_r (p a b : pstr) :
  contains p b = true -> contains p (a ++ b) = true.
Proof.
  rewrite !contains_spec. intros [l [r ->]]. exists (a ++ l), r.
  now rewrite <- !app_assoc.
Qed.

Lemma matches_none_inv (w : pstr) : matches RNone w -> False.
Proof. inversion 1. Qed.

Lemma matches_eps_inv (w : pstr) : matches REps w -> w = [].
Proof. inversion 1; reflexivity. Qed.

Lemma matches_chr_inv (cls : N -> bool) (w : pstr) :
  matches (RChr cls) w -> exists c, w = [c] /\ cls c = true.
Proof. inversion 1; subst; eauto. Qed.

Lemma matches_seq_inv (a b : regex) (w : pstr) :
  matches (RSeq a b) w -> exists s t, w = s ++ t /\ matches a s /\ matches b t.
Proof. inversion 1; subst; eauto 6. Qed.

Lemma matches_alt_inv (a b : regex) (w : pstr) :
  matches (RAlt a b) w -> matches a w \/ matches b w.
Proof. inversion 1; subst; auto. Qed.

Lemma matches_star_cons (a : regex) (c : N) (s : pstr) :
  matches (RStar a) (c :: s) ->
  exists s1 s2, s = s1 ++ s2 /\ matches a (c :: s1) /\ matches (RStar a) s2.
Proof.
  intros H. remember (RStar a) as r eqn:Hr. remember (c :: s) as w eqn:Hw.
  revert c s Hw.
  induction H as [| | | | | |a' s' t' Hs _ Ht IHt]; try discriminate.
  intros c s Hw. injection Hr as ->.
  destruct s' as [|x s'']; simpl in Hw.
  - apply IHt; auto.
  - injection Hw as <- <-. eauto.
Qed.

Lemma nullable_spec (r : regex) : nullable r = true <-> matches r [].
Proof.
  induction r as [| |cls|a IHa b IHb|a IHa b IHb|a IHa]; simpl.
  - split; [discriminate | intros H; destruct (matches_none_inv _ H)].
  - split; auto with re.
  - split; [discriminate |].
    intros H. apply matches_chr_inv in H as [c [Hc _]]. discriminate.
  - rewrite andb_true_iff, IHa, IHb. split.
    + intros [H1 H2]. change (@nil N) with (@nil N ++ []). auto with re.
    + intros H. apply matches_seq_inv in H as [s [t [Heq [Hs Ht]]]].
      symmetry in Heq. apply app_eq_nil in Heq as [-> ->]. auto.
  - rewrite orb_true_iff, IHa, IHb. split.
    + intros [H|H]; auto with re.
    + apply matches_alt_inv.
  - split; auto with re.
Qed.

Lemma deriv_spec (c : N) (r : regex) (s : pstr) :
  matches (deriv c r) s <-> matches r (c :: s).
Proof.
  revert s.
  induction r as [| |cls|a IHa b IHb|a IHa b IHb|a IHa]; intros s; simpl.
  - split; intros H; destruct (matches_none_inv _ H).
  - split; intros H; [destruct (matches_none_inv _ H) |].
    apply matches_eps_inv in H. discriminate.
  - destruct (cls c) eqn:Hc; split; intros H.
    + apply matches_eps_inv in H as ->. auto with re.
    + apply matches_chr_inv in H as [c' [Heq _]]. injection Heq as _ ->. constructor.
    + destruct (matches_none_inv _ H).
    + apply matches_chr_inv in H as [c' [Heq Hc']]. injection Heq as <- _. congruence.
  - destruct (nullable a) eqn:Hn; split; intros H.
    + apply matches_alt_inv in H as [H|H].
      * apply matches_seq_inv in H as [s1 [s2 [-> [H1 H2]]]].
        apply IHa in H1. change (c :: s1 ++ s2) with ((c :: s1) ++ s2).
        auto with re.
      * apply IHb in H. change (c :: s) with ([] ++ c :: s).
        apply M_seq; [now apply nullable_spec | assumption].
    + apply matches_seq_inv in H as [s1 [s2 [Heq [H1 H2]]]].
      destruct s1 as [|x s1]; simpl in Heq.
      * subst s2. apply M_alt_r. now apply IHb.
      * injection Heq as <- ->. apply M_alt_l.
        apply M_seq; [now apply IHa | assumption].
    + apply matches_seq_inv in H as [s1 [s2 [-> [H1 H2]]]].
      apply IHa in H1. change (c :: s1 ++ s2) with ((c :: s1) ++ s2).
      auto with re.
    + apply matches_seq_inv in H as [s1 [s2 [Heq [H1 H2]]]].
      destruct s1 as [|x s1]; simpl in Heq.
      * apply nullable_spec in H1. congruence.
      * injection Heq as <- ->. apply M_seq; [now apply IHa | assumption].
  - split; intros H; apply matches_alt_inv in H as [H|H];
      ((apply M_alt_l; now apply IHa) || (apply M_alt_r; now apply IHb)).
  - split; intros H.
    + apply matches_seq_inv in H as [s1 [s2 [-> [H1 H2]]]].
      apply IHa in H1. change (c :: s1 ++ s2) with ((c :: s1) ++ s2).
      auto with re.
    + apply matches_star_cons in H as [s1 [s2 [-> [H1 H2]]]].
      apply M_seq; [now apply IHa | assumption].
Qed.

Lemma re_match_spec (r : regex) (s : pstr) :
  re_match r s = true <-> exists s1 s2, s = s1 ++ s2 /\ matches r s1.
Proof.
  revert r. induction s as [|c s IH]; intros r.
  - simpl. rewrite orb_false_r, nullable_spec. split.
    + intros H. exists [], []. auto.
    + intros [s1 [s2 [Heq H]]]. symmetry in Heq.
      apply app_eq_nil in Heq as [-> ->]. assumption.
  - change (re_match r (c :: s)) with (nullable r || re_match (deriv c r) s).
    rewrite orb_true_iff, nullable_spec, IH. split.
    + intros [H | [s1 [s2 [-> H]]]].
      * exists [], (c :: s). auto.
      * exists (c :: s1), s2. split; [reflexivity | now apply deriv_spec].
    + intros [[|x s1] [s2 [Heq H]]]; simpl in Heq.
      * left. assumption.
      * injection Heq as -> ->. right. exists s1, s2. split; [reflexivity | now apply deriv_spec].
Qed.

Lemma re_search_spec (r : regex) (s : pstr) :
  re_search r s = true <-> exists l m t, s = l ++ m ++ t /\ matches r m.
Proof.
  induction s as [|c s IH].
  - change (re_search r []) with (re_match r [] || false).
    rewrite orb_false_r, re_match_spec. split.
    + intros [m [t [Heq H]]]. exists [], m, t. auto.
    + intros [l [m [t [Heq H]]]]. destruct l; simpl in Heq; [eauto | discriminate].
  - change (re_search r (c :: s)) with (re_match r (c :: s) || re_search r s).
    rewrite orb_true_iff, re_match_spec, IH. split.
    + intros [[m [t [Heq H]]] | [l [m [t [-> H]]]]].
      * exists [], m, t. auto.
      * exists (c :: l), m, t. auto.
    + intros [[|x l] [m [t [Heq H]]]]; simpl in Heq.
      * left. eauto.
      * injection Heq as -> ->. right. eauto.
Qed.

Lemma matches_lit (p s : pstr) : matches (RLit p) s <-> s = p.
Proof.
  revert s. induction p as [|c p IH]; intros s; simpl.
  - split; [apply matches_eps_inv | intros ->; constructor].
  - split.
    + intros H. apply matches_seq_inv in H as [s1 [s2 [-> [H1 H2]]]].
      apply matches_chr_inv in H1 as [c' [-> Hc]]. apply N.eqb_eq in Hc as <-.
      apply IH in H2 as ->. reflexivity.
    + intros ->. change (c :: p) with ([c] ++ p).
      apply M_seq; [constructor; apply N.eqb_refl | now apply IH].
Qed.

Lemma matches_alts (rs : list regex) (s : pstr) :
  matches (RAlts rs) s <-> exists r, In r rs /\ matches r s.
Proof.
  induction rs as [|r rs IH]; simpl.
  - split; [intros H; destruct (matches_none_inv _ H) | intros [r [[] _]]].
  - split.
    + intros H. apply matches_alt_inv in H as [H|H].
      * eauto.
      * apply IH in H as [r' [Hin Hm]]. eauto.
    + intros [r' [[-> | Hin] Hm]].
      * now apply M_alt_l.
      * apply M_alt_r, IH. eauto.
Qed.

(** [re.search] of an alternation of literals asks whether one occurs. *)
Lemma re_search_literals (ps : list pstr) (s : pstr) :
  re_search (RAlts (map RLit ps)) s = existsb (fun p => contains p s) ps.
Proof.
  apply eq_true_iff_eq. rewrite re_search_spec, existsb_exists. split.
  - intros [l [m [t [-> H]]]]. apply matches_alts in H as [r [Hin Hm]].
    apply in_map_iff in Hin as [p [<- Hp]]. apply matches_lit in Hm as ->.
    exists p. split; [assumption | apply contains_spec; eauto].
  - intros [p [Hp Hc]]. apply contains_spec in Hc as [l [t ->]].
    exists l, p, t. split; [reflexivity |].
    apply matches_alts. exists (RLit p). split; [now apply in_map | now apply matches_lit].
Qed.

(** ** Name normalisation *)
Lemma pstr_eqb_eq (a b : pstr) : pstr_eqb a b = true <-> a = b.
Proof. unfold pstr_eqb. apply bool_decide_eq_true. Qed.

Lemma existsb_false_forall {A} (f : A -> bool) (l : list A) :
  existsb f l = false <-> forall x, In x l -> f x = false.
Proof.
  induction l as [|y l IH]; simpl.
  - split; [intros _ x [] | reflexivity].
  - rewrite orb_false_iff, IH. split.
    + intros [Hy Hl] x [<- | Hx]; auto.
    + intros H. split; [apply H; auto | intros x Hx; apply H; auto].
Qed.

Lemma remove_class_Forall (cls : N -> bool) (s : pstr) :
  Forall (fun c => cls c = false) (remove_class cls s).
Proof.
  unfold remove_class. apply Forall_forall. intros c Hc.
  apply list_elem_of_filter in Hc as [Hc _]. exact Hc.
Qed.

Lemma remove_class_keeps (P : N -> Prop) (cls : N -> bool) (s : pstr) :
  Forall P s -> Forall P (remove_class cls s).
Proof.
  unfold remove_class. rewrite !Forall_forall. intros H c Hc.
  apply list_elem_of_filter in Hc as [_ Hc]. auto.
Qed.

Lemma remove_class_id (cls : N -> bool) (s : pstr) :
  Forall (fun c => cls c = false) s -> remove_class cls s = s.
Proof.
  unfold remove_class. induction 1 as [|c s Hc _ IH]; [reflexivity |].
  rewrite filter_cons_True by exact Hc. now rewrite IH.
Qed.

Lemma remove_from_keeps (P : N -> Prop) (old : pstr) (k : nat) (s : pstr) :
  Forall P s -> Forall P (remove_from old k s).
Proof.
  intros H. revert k. induction H as [|c s Hc Hs IH]; intros k; simpl; [constructor |].
  destruct k; [destruct (startswith old (c :: s)) |]; auto.
Qed.

Lemma remove_all_absent (old s : pstr) :
  contains old s = false -> remove_all old s = s.
Proof.
  unfold remove_all. induction s as [|c s IH]; [reflexivity |].
  change (contains old (c :: s)) with (startswith old (c :: s) || contains old s).
  rewrite orb_false_iff. intros [H1 H2].
  change (remove_from old 0 (c :: s))
    with (if startswith old (c :: s) then remove_from old (length old - 1) s
          else c :: remove_from old 0 s).
  rewrite H1, IH by assumption. reflexivity.
Qed.

Lemma remove_at_end_nil (alts : list pstr) : remove_at_end alts [] = [].
Proof.
  change (remove_at_end alts [])
    with (if existsb (pstr_eqb []) alts then []
          else if existsb (fun a => pstr_eqb [] (a ++ [10])) alts then [10]
          else @nil N).
  destruct (existsb (pstr_eqb []) alts); [reflexivity |].
  destruct (existsb (fun a => pstr_eqb [] (a ++ [10])) alts) eqn:E; [| reflexivity].
  apply existsb_exists in E as [a [_ E]]. apply pstr_eqb_eq in E.
  destruct a; discriminate.
Qed.

Lemma remove_at_end_keeps (P : N -> Prop) (alts : list pstr) (s : pstr) :
  Forall P s -> Forall P (remove_at_end alts s).
Proof.
  induction 1 as [|c s Hc Hs IH].
  - rewrite remove_at_end_nil. constructor.
  - change (remove_at_end alts (c :: s))
      with (if existsb (pstr_eqb (c :: s)) alts then []
            else if existsb (fun a => pstr_eqb (c :: s) (a ++ [10])) alts then [10]
            else c :: remove_at_end alts s).
    destruct (existsb (pstr_eqb (c :: s)) alts); [constructor |].
    destruct (existsb (fun a => pstr_eqb (c :: s) (a ++ [10])) alts) eqn:E;
      [| constructor; assumption].
    apply existsb_exists in E as [a [_ E]]. apply pstr_eqb_eq in E.
    assert (H : Forall P (a ++ [10])) by (rewrite <- E; constructor; assumption).
    apply Forall_app in H as [_ H]. exact H.
Qed.

Lemma endswith_spec (p s : pstr) :
  endswith p s = true <-> exists l, s = l ++ p.
Proof.
  unfold endswith. rewrite startswith_spec. split.
  - intros [r Hr]. exists (rev r).
    rewrite <- (rev_involutive s), Hr, rev_app_distr, rev_involutive. reflexivity.
  - intros [l ->]. exists (rev l). apply rev_app_distr.
Qed.

Lemma remove_at_end_absent (alts : list pstr) (s : pstr) :
  Forall (fun a => endswith a s = false) alts ->
  Forall (fun c => c <> 10) s ->
  remove_at_end alts s = s.
Proof.
  intros Ha Hs. induction Hs as [|c s Hc Hs IH].
  - apply remove_at_end_nil.
  - change (remove_at_end alts (c :: s))
      with (if existsb (pstr_eqb (c :: s)) alts then []
            else if existsb (fun a => pstr_eqb (c :: s) (a ++ [10])) alts then [10]
            else c :: remove_at_end alts s).
    rewrite Forall_forall in Ha.
    assert (E1 : existsb (pstr_eqb (c :: s)) alts = false).
    { apply existsb_false_forall. intros a Hin. apply not_true_iff_false.
      intros E. apply pstr_eqb_eq in E.
      specialize (Ha a (proj2 (list_elem_of_In _ _) Hin)).
      apply not_true_iff_false in Ha. apply Ha, endswith_spec.
      exists []. exact E. }
    assert (E2 : existsb (fun a => pstr_eqb (c :: s) (a ++ [10])) alts = false).
    { apply existsb_false_forall. intros a Hin. apply not_true_iff_false.
      intros E. apply pstr_eqb_eq in E.
      assert (H : Forall (fun c => c <> 10) (a ++ [10]))
        by (rewrite <- E; constructor; assumption).
      apply Forall_app in H as [_ H]. inversion H; subst. congruence. }
    rewrite E1, E2, IH; [reflexivity |].
    apply Forall_forall. intros a Hin. specialize (Ha a Hin).
    apply not_true_iff_false. intros E. apply endswith_spec in E as [l ->].
    apply not_true_iff_false in Ha. apply Ha, endswith_spec.
    exists (c :: l). reflexivity.
Qed.

(** What every result of norm_rindo_name has: no blank, no punctuation
    of the two classes the function deletes. *)
Lemma norm_rindo_name_clean (x : pstr) :
  Forall (fun c => cls_blank c = false) (norm_rindo_name x)
  /\ Forall (fun c => cls_punct c = false) (norm_rindo_name x).
Proof.
  destruct x as [|c x]; [split; constructor |].
  unfold norm_rindo_name. split.
  - apply remove_class_keeps, remove_at_end_keeps, remove_from_keeps,
      remove_from_keeps, remove_class_Forall.
  - apply remove_class_Forall.
Qed.

Lemma norm_rindo_name_settled (y : pstr) :
  Forall (fun c => cls_blank c = false) y ->
  Forall (fun c => cls_punct c = false) y ->
  contains s_rindo y = false ->
  contains s_kanrido y = false ->
  Forall (fun a => endswith a y = false) name_tails ->
  norm_rindo_name y = y.
Proof.
  intros Hb Hp Hr Hk Ht. destruct y as [|c y]; [reflexivity |].
  unfold norm_rindo_name.
  rewrite (remove_class_id cls_blank) by assumption.
  rewrite (remove_all_absent s_rindo) by assumption.
  rewrite (remove_all_absent s_kanrido) by assumption.
  rewrite remove_at_end_absent; [now apply remove_class_id | assumption |].
  eapply Forall_impl; [exact Hb |].
  intros a Ha ->. vm_compute in Ha. discriminate.
Qed.

Lemma startswith_head (p s : pstr) (c : N) :
  startswith (c :: p) s = true -> In c s.
Proof. intros H. apply startswith_spec in H as [r ->]. now left. Qed.

Lemma contains_head (p s : pstr) (c : N) :
  contains (c :: p) s = true -> In c s.
Proof.
  intros H. apply contains_spec in H as [l [r ->]].
  apply in_or_app. right. now left.
Qed.

Lemma endswith_head (p s : pstr) (c : N) :
  endswith (c :: p) s = true -> In c s.
Proof.
  intros H. apply endswith_spec in H as [l ->].
  apply in_or_app. right. now left.
Qed.

Lemma norm_rindo_name_keeps (P : N -> Prop) (x : pstr) :
  Forall P x -> Forall P (norm_rindo_name x).
Proof.
  intros H. destruct x as [|c x]; [constructor |].
  unfold norm_rindo_name.
  now apply remove_class_keeps, remove_at_end_keeps, remove_from_keeps,
    remove_from_keeps, remove_class_keeps.
Qed.

Lemma isascii_Forall (s : pstr) : isascii s = true <-> Forall (fun c => c < 128) s.
Proof.
  unfold isascii. rewrite forallb_forall, Forall_forall. split.
  - intros H c Hc. apply N.ltb_lt, H, list_elem_of_In, Hc.
  - intros H c Hc. apply N.ltb_lt, H, list_elem_of_In, Hc.
Qed.

(** C8, amended: norm_rindo_name is idempotent on every input that is
    ASCII only, and on every input whose result neither contains 林道 or
    森林管理道 nor ends in 線, せん or 道. *)
Theorem norm_rindo_name_idempotent_when_settled (x : pstr) :
  isascii x = true
  \/ (contains s_rindo (norm_rindo_name x) = false
      /\ contains s_kanrido (norm_rindo_name x) = false
      /\ Forall (fun a => endswith a (norm_rindo_name x) = false) name_tails) ->
  norm_rindo_name (norm_rindo_name x) = norm_rindo_name x.
Proof.
  intros H. destruct (norm_rindo_name_clean x) as [Hb Hp].
  assert (Hs : contains s_rindo (norm_rindo_name x) = false
               /\ contains s_kanrido (norm_rindo_name x) = false
               /\ Forall (fun a => endswith a (norm_rindo_name x) = false) name_tails).
  { destruct H as [Ha | H]; [| exact H].
    apply isascii_Forall in Ha.
    pose proof (norm_rindo_name_keeps _ _ Ha) as Hy.
    rewrite Forall_forall in Hy.
    assert (Hno : forall c, 128 <= c -> ~ In c (norm_rindo_name x)).
    { intros c Hc Hin. apply list_elem_of_In in Hin. specialize (Hy c Hin). lia. }
    repeat split.
    - apply not_true_iff_false. intros E. apply contains_head in E.
      revert E. apply Hno. lia.
    - apply not_true_iff_false. intros E. apply contains_head in E.
      revert E. apply Hno. lia.
    - unfold name_tails. repeat constructor;
        apply not_true_iff_false; intros E; apply endswith_head in E;
        revert E; apply Hno; lia. }
  destruct Hs as [Hr [Hk Ht]]. now apply norm_rindo_name_settled.
Qed.

(** C8 fails as stated: a name whose tail shows only once the brackets
    are gone is shortened again by a second pass. *)
Lemma norm_rindo_name_second_pass :
  norm_rindo_name (u "林道大平線（支線）") = u "大平線支線"
  /\ norm_rindo_name (norm_rindo_name (u "林道大平線（支線）")) = u "大平線支"
  /\ norm_rindo_name (norm_rindo_name (u "林道大平線（支線）"))
     <> norm_rindo_name (u "林道大平線（支線）").
Proof. vm_compute. repeat split; discriminate. Qed.

Lemma norm_rindo_name_idempotent_when_settled_witness :
  norm_rindo_name (norm_rindo_name (u "林道 大平線")) = norm_rindo_name (u "林道 大平線")
  /\ norm_rindo_name (norm_rindo_name (u "Route 7 (north)")) = norm_rindo_name (u "Route 7 (north)").
Proof.
  split.
  - apply (norm_rindo_name_idempotent_when_settled (u "林道 大平線")).
    right. vm_compute. repeat constructor.
  - apply (norm_rindo_name_idempotent_when_settled (u "Route 7 (north)")).
    left. vm_compute. reflexivity.
Defined.

(** A literal between two optional groups is found where the literal
    occurs. *)
Lemma re_search_optional_around (pre post : regex) (p s : pstr) :
  nullable pre = true -> nullable post = true ->
  re_search (RSeq pre (RSeq (RLit p) post)) s = contains p s.
Proof.
  intros Hpre Hpost. apply eq_true_iff_eq.
  rewrite re_search_spec, contains_spec. split.
  - intros [l [m [t [-> H]]]].
    apply matches_seq_inv in H as [a [bc [-> [_ H]]]].
    apply matches_seq_inv in H as [b [c [-> [Hb _]]]].
    apply matches_lit in Hb as ->.
    exists (l ++ a), (c ++ t). now rewrite <- !app_assoc.
  - intros [l [t ->]]. exists l, p, t. split; [reflexivity |].
    change p with ([] ++ p). apply M_seq; [now apply nullable_spec |].
    assert (H : matches (RSeq (RLit p) post) (p ++ []))
      by (apply M_seq; [now apply matches_lit | now apply nullable_spec]).
    now rewrite app_nil_r in H.
Qed.

Lemma pick_status_cases (t : pstr) :
  pick_status t =
  if contains (u "通行止") t then Some (u "通行止")
  else if existsb (fun p => contains p t)
            [u "通行規制"; u "規制"; u "片側交互"; u "大型車通行止"]
  then Some (u "規制")
  else if existsb (fun p => contains p t) [u "解除"; u "通行可"; u "通行可能"]
  then Some (u "解除")
  else None.
Proof.
  rewrite <- (re_search_optional_around
                (ROpt (RAlts [RLit (u "全面"); RLit (u "全線")]))
                (ROpt (RLit (u "め")))) by reflexivity.
  rewrite <- !re_search_literals.
  unfold pick_status.
  change P_STATUS with
    [ (RSeq (ROpt (RAlts [RLit (u "全面"); RLit (u "全線")]))
         (RSeq (RLit (u "通行止")) (ROpt (RLit (u "め")))), u "通行止");
      (RAlts (map RLit [u "通行規制"; u "規制"; u "片側交互"; u "大型車通行止"]), u "規制");
      (RAlts (map RLit [u "解除"; u "通行可"; u "通行可能"]), u "解除") ].
  cbn [find fst snd].
  repeat match goal with |- context [re_search ?r t] => destruct (re_search r t) end;
    reflexivity.
Qed.

Lemma yn_pick_status_cases (isdecimal : N -> bool) (t : pstr) :
  _yn_pick_status isdecimal t =
  if existsb (fun p => contains p t) [u "通行止"; u "全面通行止"]
  then (st_closed, u "通行止")
  else if existsb (fun p => contains p t) [u "規制はありません"; u "規制なし"]
  then (st_open, u "規制はありません")
  else if existsb (fun p => contains p t)
            [u "規制"; u "片側"; u "交互"; u "迂回"; u "う回"; u "チェーン"; u "チェーン規制"]
          || re_search (_YMN_NUM_PAT isdecimal) t
  then (st_regulated, u "規制")
  else (st_open, u "開放").
Proof.
  rewrite <- !re_search_literals. reflexivity.
Qed.

(** C3, amended: in _yn_pick_status closure phrasing wins over
    everything and no-restriction phrasing over the restriction signals;
    in pick_status closure phrasing wins too, but a restriction keyword
    is found before the lifted phrasing is looked for. *)
Theorem classifier_precedence (isdecimal : N -> bool) (t : pstr) :
  (contains (u "通行止") t = true ->
   _yn_pick_status isdecimal t = (st_closed, u "通行止")
   /\ pick_status t = Some (u "通行止"))
  /\ (contains (u "通行止") t = false ->
      contains (u "規制はありません") t = true \/ contains (u "規制なし") t = true ->
      _yn_pick_status isdecimal t = (st_open, u "規制はありません"))
  /\ (contains (u "通行止") t = false ->
      contains (u "規制") t = true ->
      pick_status t = Some (u "規制")).
Proof.
  rewrite yn_pick_status_cases, pick_status_cases.
  split; [| split].
  - intros H. cbn [existsb]. now rewrite H.
  - intros H [H1 | H2]; cbn [existsb].
    + rewrite H. assert (E : contains (u "全面通行止") t = false).
      { apply not_true_iff_false. intros E. apply not_true_iff_false in H. apply H.
        apply contains_spec in E as [l [r ->]].
        apply contains_app_r. change (u "全面通行止") with (u "全面" ++ u "通行止").
        rewrite <- app_assoc. apply contains_app_r, contains_app_l.
        vm_compute. reflexivity. }
      rewrite E, H1. reflexivity.
    + rewrite H. assert (E : contains (u "全面通行止") t = false).
      { apply not_true_iff_false. intros E. apply not_true_iff_false in H. apply H.
        apply contains_spec in E as [l [r ->]].
        apply contains_app_r. change (u "全面通行止") with (u "全面" ++ u "通行止").
        rewrite <- app_assoc. apply contains_app_r, contains_app_l.
        vm_compute. reflexivity. }
      rewrite E, H2, orb_true_r. reflexivity.
  - intros H H'. rewrite H. cbn [existsb]. rewrite H', orb_true_r. reflexivity.
Qed.

(** C3 fails as stated: 解除 (lifted) next to 規制, without 通行止, is
    labelled 規制 by pick_status. *)
Lemma pick_status_lifted_after_restriction :
  contains (u "解除") (u "大平線 通行規制解除") = true
  /\ contains (u "規制") (u "大平線 通行規制解除") = true
  /\ contains (u "通行止") (u "大平線 通行規制解除") = false
  /\ pick_status (u "大平線 通行規制解除") = Some (u "規制").
Proof. vm_compute. auto. Qed.

Lemma classifier_precedence_witness :
  _yn_pick_status ascii_digit (u "規制なし 幅員3.6m") = (st_open, u "規制はありません")
  /\ pick_status (u "通行規制解除") = Some (u "規制")
  /\ pick_status (u "全面通行止め 規制解除") = Some (u "通行止").
Proof.
  split; [| split].
  - apply (proj1 (proj2 (classifier_precedence ascii_digit (u "規制なし 幅員3.6m")))).
    + vm_compute. reflexivity.
    + right. vm_compute. reflexivity.
  - apply (proj2 (proj2 (classifier_precedence ascii_digit (u "通行規制解除")))).
    + vm_compute. reflexivity.
    + vm_compute. reflexivity.
  - apply (proj1 (classifier_precedence ascii_digit (u "全面通行止め 規制解除"))).
    vm_compute. reflexivity.
Defined.

Lemma index_of_snoc (evs : list edict) (e : edict) :
  index_of (evs ++ [e]) = index_step (index_of evs) (length evs, e).
Proof.
  unfold index_of. rewrite imap_app, foldl_app. simpl.
  rewrite Nat.add_0_r. reflexivity.
Qed.

Lemma index_of_nil : index_of [] = ∅.
Proof. reflexivity. Qed.

(** What the index holds under a key is a position of a record with
    that id, and no later record has it. *)
Lemma index_of_lookup_Some (evs : list edict) (k : pstr) (i : nat) :
  index_of evs !! k = Some i ->
  k <> []
  /\ (exists e, evs !! i = Some e /\ get "id" e = PStr k)
  /\ (forall j e, (i < j)%nat -> evs !! j = Some e -> get "id" e <> PStr k).
Proof.
  revert i. induction evs as [|x l IH] using rev_ind; intros i.
  - rewrite index_of_nil, lookup_empty. discriminate.
  - rewrite index_of_snoc. unfold index_step. cbn [fst snd].
    assert (Hold : index_of l !! k = Some i ->
                   get "id" x <> PStr k ->
                   k <> []
                   /\ (exists e, (l ++ [x]) !! i = Some e /\ get "id" e = PStr k)
                   /\ (forall j e, (i < j)%nat -> (l ++ [x]) !! j = Some e ->
                                   get "id" e <> PStr k)).
    { intros H Hx. destruct (IH i H) as [Hk [[e [He Hid]] Hlast]].
      split; [exact Hk |]. split.
      - exists e. split; [| exact Hid].
        rewrite lookup_app_l; [exact He | now apply lookup_lt_Some in He].
      - intros j e' Hj He'. apply lookup_snoc_Some in He' as [[_ He'] | [_ <-]].
        + now apply (Hlast j).
        + exact Hx. }
    destruct (get "id" x) as [|[|c s]] eqn:Hx.
    + intros H. apply Hold; [exact H | discriminate].
    + intros H. apply Hold; [exact H |].
      intros E. injection E as <-. now destruct (IH i H) as [Hk _].
    + destruct (decide (c :: s = k)) as [<- | Hne].
      * rewrite lookup_insert_eq. intros [= <-]. split; [discriminate |]. split.
        -- exists x. split; [apply list_lookup_middle; reflexivity | exact Hx].
        -- intros j e Hj He. apply lookup_lt_Some in He.
           rewrite length_app in He. simpl in He. lia.
      * rewrite lookup_insert_ne by exact Hne. intros H.
        apply Hold; [exact H | congruence].
Qed.

(** Conversely, the last record with a non-empty id is the one the
    index holds under it. *)
Lemma index_of_last (evs : list edict) (k : pstr) (i : nat) (e : edict) :
  k <> [] ->
  evs !! i = Some e ->
  get "id" e = PStr k ->
  (forall j e', (i < j)%nat -> evs !! j = Some e' -> get "id" e' <> PStr k) ->
  index_of evs !! k = Some i.
Proof.
  intros Hk. revert i e. induction evs as [|x l IH] using rev_ind; intros i e He Hid Hlast.
  - discriminate.
  - rewrite index_of_snoc. unfold index_step. cbn [fst snd].
    apply lookup_snoc_Some in He as [[Hi He] | [-> ->]].
    + assert (Hx : get "id" x <> PStr k).
      { apply (Hlast (length l)); [exact Hi |]. apply list_lookup_middle. reflexivity. }
      assert (H : index_of l !! k = Some i).
      { apply (IH i e He Hid). intros j e' Hj He'. apply (Hlast j); [exact Hj |].
        rewrite lookup_app_l; [exact He' | now apply lookup_lt_Some in He']. }
      destruct (get "id" x) as [|[|c s]]; [exact H | exact H |].
      rewrite lookup_insert_ne; [exact H | congruence].
    + rewrite Hid. destruct k as [|c s]; [congruence |]. apply lookup_insert_eq.
Qed.

Lemma index_of_lookup_None (evs : list edict) (k : pstr) (e : edict) :
  index_of evs !! k = None -> k <> [] -> e ∈ evs -> get "id" e <> PStr k.
Proof.
  induction evs as [|x l IH] using rev_ind; intros H Hk Hin.
  - now apply elem_of_nil in Hin.
  - rewrite index_of_snoc in H. unfold index_step in H. cbn [fst snd] in H.
    apply elem_of_app in Hin as [Hin | Hin].
    + apply IH; [| exact Hk | exact Hin].
      destruct (get "id" x) as [|[|c s]]; [exact H | exact H |].
      apply lookup_insert_None in H as [H _]. exact H.
    + apply list_elem_of_singleton in Hin as ->.
      destruct (get "id" x) as [|[|c s]]; [discriminate | congruence |].
      apply lookup_insert_None in H as [_ H]. congruence.
Qed.

(** ** The payload *)
Lemma hex8_length (w : N) : length (hex8 w) = 8%nat.
Proof. reflexivity. Qed.

Lemma sha1_hexdigest_length (m : octets) : length (sha1_hexdigest m) = 40%nat.
Proof.
  unfold sha1_hexdigest. destruct (sha1 m) as [[[[h0 h1] h2] h3] h4].
  rewrite !length_app, !hex8_length. reflexivity.
Qed.

Lemma make_event_id_length (pref norm src eid : pstr) :
  make_event_id pref norm src = Some eid -> length eid = 16%nat.
Proof.
  unfold make_event_id. destruct (utf8_encode _) as [bs|]; [| discriminate].
  intros [= <-]. rewrite length_take, sha1_hexdigest_length. reflexivity.
Qed.

Lemma payload_of_inv (L : netloc_checks) (now pref url raw norm : pstr)
    (ev : edict) (eid : pstr) (payload : edict) :
  payload_of L now pref url raw norm ev = Some (eid, payload) ->
  eid <> []
  /\ payload !! "id"%string = Some (PStr eid)
  /\ payload !! "norm_name"%string = Some (PStr norm)
  /\ payload !! "status"%string = Some (get "status" ev)
  /\ payload !! "updated_at"%string = Some (PStr now).
Proof.
  unfold payload_of. destruct (canonical_url L _) as [src|]; [| discriminate].
  cbn. destruct (make_event_id pref norm src) as [eid'|] eqn:E; [| discriminate].
  cbn. intros [= <- <-]. apply make_event_id_length in E.
  split; [intros ->; discriminate |]. repeat split; reflexivity.
Qed.

Lemma not_none_union_lookup (payload old : edict) (k : string) :
  (not_none payload ∪ old) !! k =
  match payload !! k with
  | Some (PStr v) => Some (PStr v)
  | _ => old !! k
  end.
Proof.
  unfold not_none. rewrite lookup_union, map_lookup_filter.
  destruct (payload !! k) as [[|v]|]; cbn.
  - rewrite option_guard_False by (intros H; now apply H). now rewrite (left_id_L None _).
  - rewrite option_guard_True by discriminate. cbn.
    destruct (old !! k); reflexivity.
  - now rewrite (left_id_L None _).
Qed.

Lemma merge_one_cases (L : netloc_checks) (now pref url : pstr)
    (idx : gmap pstr nat) (evs : list edict) (ev : edict) :
  merge_one L now pref url idx evs ev =
  if pstr_eqb (raw_name_of ev) [] && pstr_eqb (norm_of ev) [] then Some evs
  else
    '(eid, payload) ← payload_of L now pref url (raw_name_of ev) (norm_of ev) ev;
    match idx !! eid with
    | Some i => Some (alter (fun old => not_none payload ∪ old) i evs)
    | None => Some (evs ++ [payload])
    end.
Proof.
  unfold merge_one. destruct (raw_name_of ev), (norm_of ev); reflexivity.
Qed.

Lemma pstr_eqb_nil_false (s : pstr) : s <> [] -> pstr_eqb s [] = false.
Proof. intros H. apply not_true_iff_false. now rewrite pstr_eqb_eq. Qed.



Lemma payload_of_key (L : netloc_checks) (now pref url : pstr) (ev : edict)
    (eid : pstr) (payload : edict) :
  payload_of L now pref url (raw_name_of ev) (norm_of ev) ev = Some (eid, payload) ->
  event_key L pref url ev = Some eid.
Proof.
  unfold payload_of, event_key.
  destruct (canonical_url L _) as [src|]; [| discriminate]. cbn.
  destruct (make_event_id pref (norm_of ev) src); [| discriminate].
  cbn. now intros [= <- _].
Qed.

Lemma key_payload_of (L : netloc_checks) (now pref url : pstr) (ev : edict) (eid : pstr) :
  event_key L pref url ev = Some eid ->
  exists payload,
    payload_of L now pref url (raw_name_of ev) (norm_of ev) ev = Some (eid, payload).
Proof.
  unfold payload_of, event_key.
  destruct (canonical_url L _) as [src|]; [| discriminate]. cbn.
  destruct (make_event_id pref (norm_of ev) src); [| discriminate].
  cbn. intros [= <-]. eauto.
Qed.

Lemma get_lookup (k : string) (d : edict) (v : pyval) :
  d !! k = Some v -> get k d = v.
Proof. unfold get. now intros ->. Qed.

Lemma get_not_none_union (payload old : edict) (k : string) (v : pstr) :
  payload !! k = Some (PStr v) -> get k (not_none payload ∪ old) = PStr v.
Proof.
  intros H. apply get_lookup. rewrite not_none_union_lookup, H. reflexivity.
Qed.

Lemma loop_inv_start (base : list edict) : loop_inv base base.
Proof.
  split.
  - intros j e0 H. eauto.
  - intros j e Hj H. apply lookup_lt_Some in H. lia.
Qed.

Lemma merge_one_inv (L : netloc_checks) (now pref url : pstr)
    (base evs evs' : list edict) (ev : edict) :
  loop_inv base evs ->
  merge_one L now pref url (index_of base) evs ev = Some evs' ->
  loop_inv base evs'.
Proof.
  intros [Hb Hc]. rewrite merge_one_cases.
  destruct (_ && _); [intros [= <-]; now split |].
  destruct (payload_of _ _ _ _ _ _ _) as [[eid payload]|] eqn:Hp; [| discriminate].
  cbn. apply payload_of_inv in Hp as (Hne & Hid & _).
  destruct (index_of base !! eid) as [i|] eqn:Hi; intros [= <-].
  - apply index_of_lookup_Some in Hi as (_ & [e0 [He0 Hid0]] & _).
    split.
    + intros j e0' Hj. destruct (Hb j e0' Hj) as [e [He Hide]].
      destruct (decide (i = j)) as [<- | Hij].
      * exists (not_none payload ∪ e). split.
        -- now rewrite list_lookup_alter_eq, He.
        -- rewrite (get_not_none_union _ _ _ _ Hid). congruence.
      * exists e. split; [| exact Hide]. now rewrite list_lookup_alter_ne.
    + intros j e Hj He. apply lookup_lt_Some in He0.
      rewrite list_lookup_alter_ne in He by lia. now apply (Hc j).
  - split.
    + intros j e0 Hj. destruct (Hb j e0 Hj) as [e [He Hide]].
      exists e. split; [| exact Hide].
      rewrite lookup_app_l; [exact He | now apply lookup_lt_Some in He].
    + intros j e Hj He. apply lookup_snoc_Some in He as [[_ He] | [_ <-]].
      * now apply (Hc j).
      * exists eid. split; [now apply get_lookup | exact Hi].
Qed.

Lemma merge_loop_inv (L : netloc_checks) (now pref url : pstr)
    (base evs evs' : list edict) (news : list edict) :
  loop_inv base evs ->
  merge_loop L now pref url (index_of base) evs news = Some evs' ->
  loop_inv base evs'.
Proof.
  revert evs. induction news as [|x news IH]; intros evs Hinv; cbn [merge_loop].
  - now intros [= <-].
  - destruct (merge_one _ _ _ _ _ evs x) as [evs1|] eqn:H1; [| discriminate].
    cbn. apply IH. now apply (merge_one_inv _ _ _ _ _ _ _ _ Hinv H1).
Qed.

(** The merge leaves in the store only statuses that were there or that
    a raw event brought. *)
Lemma merge_one_status (Q : pyval -> Prop) (L : netloc_checks) (now pref url : pstr)
    (idx : gmap pstr nat) (evs evs' : list edict) (ev : edict) :
  Forall (fun e => Q (get "status" e)) evs ->
  Q (get "status" ev) ->
  merge_one L now pref url idx evs ev = Some evs' ->
  Forall (fun e => Q (get "status" e)) evs'.
Proof.
  intros Hevs Hev. rewrite merge_one_cases.
  destruct (_ && _); [now intros [= <-] |].
  destruct (payload_of _ _ _ _ _ _ _) as [[eid payload]|] eqn:Hp; [| discriminate].
  cbn. apply payload_of_inv in Hp as (_ & _ & _ & Hst & _).
  destruct (idx !! eid) as [i|]; intros [= <-].
  - apply Forall_lookup. intros j e He.
    destruct (decide (i = j)) as [<- | Hij].
    + rewrite list_lookup_alter_eq in He.
      destruct (evs !! i) as [old|] eqn:Ho; [| discriminate].
      injection He as <-. unfold get at 1. rewrite not_none_union_lookup, Hst.
      destruct (get "status" ev) as [|v] eqn:E.
      * rewrite Forall_lookup in Hevs. exact (Hevs i old Ho).
      * exact Hev.
    + rewrite list_lookup_alter_ne in He by exact Hij.
      rewrite Forall_lookup in Hevs. exact (Hevs j e He).
  - apply Forall_app. split; [exact Hevs |].
    constructor; [| constructor]. now rewrite (get_lookup _ _ _ Hst).
Qed.

Lemma merge_loop_status (Q : pyval -> Prop) (L : netloc_checks) (now pref url : pstr)
    (idx : gmap pstr nat) (news evs evs' : list edict) :
  Forall (fun e => Q (get "status" e)) evs ->
  Forall (fun e => Q (get "status" e)) news ->
  merge_loop L now pref url idx evs news = Some evs' ->
  Forall (fun e => Q (get "status" e)) evs'.
Proof.
  revert evs. induction news as [|x news IH]; intros evs Hevs Hnews; cbn [merge_loop].
  - now intros [= <-].
  - inversion Hnews as [|? ? Hx Hrest]; subst.
    destruct (merge_one L now pref url idx evs x) as [evs1|] eqn:H1; [| discriminate].
    cbn. apply IH; [| exact Hrest].
    exact (merge_one_status Q _ _ _ _ _ _ _ _ Hevs Hx H1).
Qed.

(** ** What the extractors emit *)
Lemma harvest_event_fields (G : re_groups) (nm st text : pstr) :
  get "norm_name" (harvest_event G nm st text) = PStr nm
  /\ get "status" (harvest_event G nm st text) = PStr st
  /\ get "name" (harvest_event G nm st text) = PStr (nm ++ s_rindo).
Proof. repeat split; reflexivity. Qed.

Lemma pick_status_label (t l : pstr) :
  pick_status t = Some l -> In l STATUS_LABELS.
Proof.
  rewrite pick_status_cases.
  repeat match goal with
         | |- context [if ?b then _ else _] => destruct b
         end; intros [= <-]; vm_compute; auto.
Qed.


Lemma table_row_events_harvested (G : re_groups) (name_idx : option nat)
    (tr : list pstr) (e : edict) :
  In e (table_row_events G name_idx tr) -> harvested G e.
Proof.
  unfold table_row_events. destruct (_ <? 2)%nat; [intros [] |].
  destruct (pick_status _) as [[|c st]|] eqn:Hs; try (intros []).
  match goal with |- context [bad_name ?n] => destruct (bad_name n) eqn:Hb end;
    [intros [] |].
  intros [<- | []]. eexists _, _, _. split; [reflexivity |]. split; [exact Hb |].
  exact (pick_status_label _ _ Hs).
Qed.

Lemma table_events_harvested (G : re_groups) (rows : list (list pstr)) (e : edict) :
  In e (table_events G rows) -> harvested G e.
Proof.
  unfold table_events. destruct rows as [|row0 rows]; [intros [] |].
  intros H. apply in_flat_map in H as [tr [_ H]].
  exact (table_row_events_harvested _ _ _ _ H).
Qed.

Lemma line_events_harvested (G : re_groups) (text : pstr) (e : edict) :
  In e (line_events G text) -> harvested G e.
Proof.
  unfold line_events. destruct (strip text) as [|c line] eqn:Hl; [intros [] |].
  destruct (_ || _); [intros [] |].
  intros H. apply in_flat_map in H as [n [_ H]].
  destruct (bad_name (norm_rindo_name n)) eqn:Hb; [destruct H |].
  destruct H as [<- | []]. eexists _, _, _. split; [reflexivity |]. split; [exact Hb |].
  destruct (pick_status (c :: line)) as [[|c' st]|] eqn:Hs.
  - vm_compute. auto.
  - exact (pick_status_label _ _ Hs).
  - vm_compute. auto.
Qed.

Lemma harvest_from_html_harvested (G : re_groups) (doc : html_doc) (e : edict) :
  In e (harvest_from_html G doc) -> harvested G e.
Proof.
  unfold harvest_from_html, tier_tables, tier_nodes, tier_body.
  rewrite !in_app_iff, !in_flat_map.
  intros [[rows [_ H]] | [[t [_ H]] | [t [_ H]]]].
  - exact (table_events_harvested _ _ _ H).
  - exact (line_events_harvested _ _ _ H).
  - exact (line_events_harvested _ _ _ H).
Qed.

Lemma generic_code_values (stj : pstr) :
  generic_code stj = [] \/ In (generic_code stj) STATUS_CODES.
Proof.
  unfold generic_code, STATUS_CODES.
  repeat match goal with
         | |- context [if ?b then _ else _] => destruct b
         end; simpl; auto.
Qed.

Lemma extract_generic_jp_fields (G : re_groups) (text base_url pref : pstr)
    (e : edict) :
  In e (extract_generic_jp G text base_url pref) ->
  exists nm code,
    get "norm_name" e = PStr nm /\ nm <> []
    /\ get "status" e = PStr code /\ In code STATUS_CODES.
Proof.
  unfold extract_generic_jp. intros H. apply in_flat_map in H as [[raw stj] [_ H]].
  cbn [fst snd] in H.
  destruct (generic_code_values stj) as [Hc | Hc].
  - rewrite Hc in H. destruct H.
  - destruct (generic_code stj) as [|c code] eqn:Ec; [destruct H |].
    destruct (norm_rindo_name raw) as [|n nm] eqn:En; [destruct H |].
    destruct H as [<- | []].
    exists (n :: nm), (c :: code). repeat split; [discriminate | exact Hc].
Qed.

(** C2, amended: a harvested event carries one of the three labels of
    P_STATUS, an event of extract_generic_jp one of closed, regulated and
    open, and the merge leaves in the store only statuses that were in it
    or that came with a raw event. *)
Theorem stored_status_is_extractor_status :
  (forall G doc e, In e (harvest_from_html G doc) -> status_among STATUS_LABELS e)
  /\ (forall G text base_url pref e,
        In e (extract_generic_jp G text base_url pref) -> status_among STATUS_CODES e)
  /\ (forall allowed L now base news pref url base',
        Forall (status_among allowed) (events base) ->
        Forall (status_among allowed) news ->
        merge_events L now base news pref url = Some base' ->
        Forall (status_among allowed) (events base')).
Proof.
  split; [| split].
  - intros G doc e H. apply harvest_from_html_harvested in H as (nm & st & text & -> & _ & Hst).
    exists st. split; [exact Hst | apply harvest_event_fields].
  - intros G text base_url pref e H.
    apply extract_generic_jp_fields in H as (nm & code & _ & _ & Hs & Hc).
    exists code. auto.
  - intros allowed L now base news pref url base' Hb Hn Hm.
    unfold merge_events in Hm.
    destruct (merge_loop _ _ _ _ _ _ _) as [evs|] eqn:Hl; [| discriminate].
    injection Hm as <-. cbn [events].
    exact (merge_loop_status (fun v => exists s, In s allowed /\ v = PStr s)
             _ _ _ _ _ _ _ _ Hb Hn Hl).
Qed.



(** C2 fails as stated: the row of [table_page] reaches the store with
    the label 通行止 as its status. *)
Lemma merge_events_stores_label :
  (map (get "status") <$>
     (events <$> merge_events plain_netlocs (u "2024-10-01T09:00:00+09:00") empty_store
                   (harvest_from_html no_matches table_page) sample_pref sample_url))
  = Some [PStr (u "通行止")]
  /\ ~ In (u "通行止") STATUS_CODES.
Proof.
  split; [by_vm |]. vm_compute. intros [H | [H | [H | []]]]; discriminate.
Qed.

Lemma harvest_table_page :
  harvest_from_html no_matches table_page
  = [harvest_event no_matches (u "大平") (u "通行止") (u "大平林道 全面通行止")].
Proof. by_vm. Qed.

Lemma stored_status_is_extractor_status_witness :
  status_among STATUS_LABELS
    (harvest_event no_matches (u "大平") (u "通行止") (u "大平林道 全面通行止")).
Proof.
  apply (proj1 stored_status_is_extractor_status no_matches table_page).
  rewrite harvest_table_page. left. reflexivity.
Defined.



(** The reason of the stored record survives a merge that brings none,
    and its status is replaced. *)
Lemma merge_one_keeps_reason :
  (map (fun e => (get "status" e, get "reason" e, get "updated_at" e)) <$>
     merge_one plain_netlocs (u "2024-10-02T09:00:00+09:00") sample_pref sample_url
       (index_of [rec_taihei]) [rec_taihei] (ev_of "大平林道" "大平" "規制"))
  = Some [(PStr (u "規制"), PStr (u "落石"), PStr (u "2024-10-02T09:00:00+09:00"))].
Proof. by_vm. Qed.

(** C4 at a page whose table yields an event: the paragraph and the
    body lines add theirs all the same. *)
Lemma harvest_from_html_runs_every_tier :
  map (fun e => (get "norm_name" e, get "status" e))
      (tier_tables komori_matches table_and_text_page)
  = [(PStr (u "大平"), PStr (u "通行止"))]
  /\ map (fun e => (get "norm_name" e, get "status" e))
         (harvest_from_html komori_matches table_and_text_page)
     = [(PStr (u "大平"), PStr (u "通行止"));
        (PStr (u "小森"), PStr (u "規制"));
        (PStr (u "小森"), PStr (u "規制"))].
Proof. split; by_vm. Qed.

(** The index is built once: two raw events of one batch with the same
    new id are both appended. *)
Lemma merge_events_appends_twice :
  (map (get "id") <$>
     (events <$> merge_events plain_netlocs (u "2024-10-01T09:00:00+09:00") empty_store
                   (harvest_from_html komori_matches table_and_text_page)
                   sample_pref sample_url))
  = Some [PStr (u "31525d973b8761cc"); PStr (u "0abe5e445906c5c8"); PStr (u "0abe5e445906c5c8")].
Proof. by_vm. Qed.

(** ** The crawl *)
(** C5, amended: a URL whose conditional request is answered with 304
    is marked as seen and nothing else changes: neither its fingerprint
    nor the event store, and no reading of the clock is made. *)
Theorem visit_not_modified_skips (W : world) (dry_run : bool) (ag : agency)
    (auto : bool) (s : crawl_state) (url : pstr) (depth : nat)
    (rest : list (pstr * nat)) (r : response) :
  url ∉ seen s ->
  http_get W url
    (truthy_str (fp_etag (default no_fingerprint (fps s !! url))))
    (truthy_str (fp_last_modified (default no_fingerprint (fps s !! url)))) = Some r ->
  status_code r = 304 ->
  visit W dry_run false ag auto s url depth rest
  = Ok {| tick := tick s; fps := fps s; out := out s;
          total_changes := total_changes s; queue := rest;
          seen := {[ url ]} ∪ seen s |}.
Proof.
  intros Hseen Hget Hst. unfold visit. cbn [seen fps tick out total_changes].
  rewrite bool_decide_eq_false_2 by exact Hseen.
  unfold conditional_get. rewrite Hget, Hst. reflexivity.
Qed.

(** C5 fails as stated: after the 304 the fingerprint still has the
    checked_at of the run before, though the clock has moved on. *)
Lemma visit_not_modified_keeps_checked_at :
  (s' ← ok_value (visit world_not_modified false false sample_agency false
                    seen_before sample_url O []);
   fp ← fps s' !! sample_url;
   fp_checked_at fp)
  = Some (u "2024-10-01T09:00:00")
  /\ clock world_not_modified (tick seen_before) = u "2024-10-02T09:00:01".
Proof. split; by_vm. Qed.

Lemma visit_not_modified_skips_witness :
  visit world_not_modified false false sample_agency false seen_before sample_url O []
  = Ok {| tick := tick seen_before; fps := fps seen_before; out := out seen_before;
          total_changes := total_changes seen_before; queue := [];
          seen := {[ sample_url ]} ∪ seen seen_before |}.
Proof.
  apply (visit_not_modified_skips world_not_modified false sample_agency false
           seen_before sample_url O []
           {| status_code := 304; headers := ∅; content := [] |}).
  - change (sample_url ∉ (∅ : gset pstr)). apply not_elem_of_empty.
  - reflexivity.
  - reflexivity.
Defined.


Lemma divmod64 (c : N) : c = 64 * (c / 64) + c mod 64 /\ c mod 64 < 64.
Proof. split; [apply N.div_mod' | now apply N.mod_lt]. Qed.

Lemma utf8_decode_encode1 (bad : pstr) (c : N) (b rest : octets) :
  utf8_encode1 c = Some b ->
  utf8_decode_with bad (b ++ rest) = c :: utf8_decode_with bad rest.
Proof.
  unfold utf8_encode1.
  destruct (N.ltb_spec c 128) as [H1 | H1].
  { intros [= <-]. cbn [app utf8_decode_with]. now nbool. }
  destruct (N.ltb_spec c 2048) as [H2 | H2].
  { intros [= <-].
    destruct (divmod64 c) as [E Hr].
    set (q := c / 64) in *. set (r := c mod 64) in *.
    cbn [app utf8_decode_with]. unfold is_cont. nbool. cbn [andb].
    f_equal. lia. }
  destruct (N.ltb_spec c 65536) as [H3 | H3].
  { destruct ((55296 <=? c) && (c <=? 57343)) eqn:Hs; [discriminate |].
    intros [= <-].
    assert (Hsur : c < 55296 \/ 57343 < c).
    { apply andb_false_iff in Hs as [Hs | Hs];
        [left; now apply N.leb_gt in Hs | right; now apply N.leb_gt in Hs]. }
    destruct (divmod64 c) as [E Hr].
    destruct (divmod64 (c / 64)) as [E' Hr'].
    replace (c / 4096) with (c / 64 / 64) by (rewrite N.Div0.div_div; reflexivity).
    set (q := c / 64) in *. set (r := c mod 64) in *.
    set (q' := q / 64) in *. set (r' := q mod 64) in *.
    cbn [app utf8_decode_with]. unfold is_cont.
    replace (224 + q' <? 128) with false by (symmetry; apply N.ltb_ge; lia).
    replace ((194 <=? 224 + q') && (224 + q' <=? 223)) with false
      by (symmetry; apply andb_false_iff; right; apply N.leb_gt; lia).
    replace ((224 <=? 224 + q') && (224 + q' <=? 239)) with true
      by (symmetry; apply andb_true_iff; split; apply N.leb_le; lia).
    destruct (N.eqb_spec (224 + q') 224) as [Ha | Ha];
      destruct (N.eqb_spec (224 + q') 237) as [Hb | Hb]; try lia;
      nbool; cbn [andb]; f_equal; lia. }
  destruct (N.ltb_spec c 1114112) as [H4 | H4]; [| discriminate].
  intros [= <-].
  destruct (divmod64 c) as [E Hr].
  destruct (divmod64 (c / 64)) as [E' Hr'].
  destruct (divmod64 (c / 64 / 64)) as [E'' Hr''].
  replace (c / 4096) with (c / 64 / 64) by (rewrite N.Div0.div_div; reflexivity).
  replace (c / 262144) with (c / 64 / 64 / 64) by (rewrite !N.Div0.div_div; reflexivity).
  set (q := c / 64) in *. set (r := c mod 64) in *.
  set (q' := q / 64) in *. set (r' := q mod 64) in *.
  set (q'' := q' / 64) in *. set (r'' := q' mod 64) in *.
  cbn [app utf8_decode_with]. unfold is_cont.
  replace (240 + q'' <? 128) with false by (symmetry; apply N.ltb_ge; lia).
  replace ((194 <=? 240 + q'') && (240 + q'' <=? 223)) with false
    by (symmetry; apply andb_false_iff; right; apply N.leb_gt; lia).
  replace ((224 <=? 240 + q'') && (240 + q'' <=? 239)) with false
    by (symmetry; apply andb_false_iff; right; apply N.leb_gt; lia).
  replace ((240 <=? 240 + q'') && (240 + q'' <=? 244)) with true
    by (symmetry; apply andb_true_iff; split; apply N.leb_le; lia).
  destruct (N.eqb_spec (240 + q'') 240) as [Ha | Ha];
    destruct (N.eqb_spec (240 + q'') 244) as [Hb | Hb]; try lia;
    nbool; cbn [andb]; f_equal; lia.
Qed.

Lemma utf8_decode_encode (bad : pstr) (s : pstr) (bs : octets) :
  utf8_encode s = Some bs -> utf8_decode_with bad bs = s.
Proof.
  revert bs. induction s as [|c s IH]; intros bs; cbn [utf8_encode].
  - now intros [= <-].
  - destruct (utf8_encode1 c) as [b|] eqn:Hc; [| discriminate].
    destruct (utf8_encode s) as [bs'|]; [| discriminate].
    intros [= <-]. rewrite (utf8_decode_encode1 bad c b bs' Hc).
    f_equal. now apply IH.
Qed.

Lemma utf8_encode1_octets (c : N) (b : octets) :
  utf8_encode1 c = Some b -> Forall (fun x => x < 256) b.
Proof.
  unfold utf8_encode1.
  destruct (divmod64 c) as [E Hr].
  destruct (divmod64 (c / 64)) as [E' Hr'].
  destruct (divmod64 (c / 64 / 64)) as [E'' Hr''].
  replace (c / 4096) with (c / 64 / 64) by (rewrite N.Div0.div_div; reflexivity).
  replace (c / 262144) with (c / 64 / 64 / 64) by (rewrite !N.Div0.div_div; reflexivity).
  set (q := c / 64) in *. set (r := c mod 64) in *.
  set (q' := q / 64) in *. set (r' := q mod 64) in *.
  set (q'' := q' / 64) in *. set (r'' := q' mod 64) in *.
  destruct (N.ltb_spec c 128);
    [intros [= <-]; repeat (constructor; [lia |]); constructor |].
  destruct (N.ltb_spec c 2048);
    [intros [= <-]; repeat (constructor; [lia |]); constructor |].
  destruct (N.ltb_spec c 65536).
  { destruct (_ && _); [discriminate |].
    intros [= <-]; repeat (constructor; [lia |]); constructor. }
  destruct (N.ltb_spec c 1114112); [| discriminate].
  intros [= <-]; repeat (constructor; [lia |]); constructor.
Qed.

Lemma utf8_encode_octets (s : pstr) (bs : octets) :
  utf8_encode s = Some bs -> Forall (fun x => x < 256) bs.
Proof.
  revert bs. induction s as [|c s IH]; intros bs; cbn [utf8_encode].
  - intros [= <-]. constructor.
  - destruct (utf8_encode1 c) as [b|] eqn:Hc; [| discriminate].
    destruct (utf8_encode s) as [bs'|]; [| discriminate].
    intros [= <-]. apply Forall_app. split; [now apply (utf8_encode1_octets c) | now apply IH].
Qed.

(** An ASCII string is its own encoding; any other has an octet from
    128 on. *)
Lemma utf8_encode_ascii (s : pstr) :
  Forall (fun c => c < 128) s -> utf8_encode s = Some s.
Proof.
  induction 1 as [|c s Hc _ IH]; [reflexivity |].
  cbn [utf8_encode]. unfold utf8_encode1. rewrite (proj2 (N.ltb_lt c 128)) by exact Hc.
  now rewrite IH.
Qed.

Lemma utf8_encode1_low (c : N) (b : octets) (x : N) :
  utf8_encode1 c = Some b -> In x b -> x < 128 -> b = [c] /\ x = c.
Proof.
  unfold utf8_encode1.
  generalize (c / 64) (c mod 64) (c / 4096) (c / 262144)
             ((c / 64) mod 64) ((c / 4096) mod 64).
  intros q r q' q'' r' r''.
  destruct (N.ltb_spec c 128); [intros [= <-] [<- | []] _; auto |].
  destruct (N.ltb_spec c 2048);
    [intros [= <-] Hin Hx; cbn [In] in Hin; exfalso; intuition lia |].
  destruct (N.ltb_spec c 65536).
  { destruct (_ && _); [discriminate |].
    intros [= <-] Hin Hx. cbn [In] in Hin. exfalso. intuition lia. }
  destruct (N.ltb_spec c 1114112); [| discriminate].
  intros [= <-] Hin Hx. cbn [In] in Hin. exfalso. intuition lia.
Qed.

(** A code point below 128 occurs in the encoding only where it occurs
    in the string. *)
Lemma utf8_encode_low (s : pstr) (bs : octets) (x : N) :
  utf8_encode s = Some bs -> In x bs -> x < 128 -> In x s.
Proof.
  revert bs. induction s as [|c s IH]; intros bs; cbn [utf8_encode].
  - intros [= <-] [].
  - destruct (utf8_encode1 c) as [b|] eqn:Hc; [| discriminate].
    destruct (utf8_encode s) as [bs'|]; [| discriminate].
    intros [= <-] Hin Hx. apply in_app_or in Hin as [Hin | Hin].
    + left. now destruct (utf8_encode1_low c b x Hc Hin Hx) as [_ ->].
    + right. now apply (IH bs').
Qed.

(** ** Quoting and unquoting *)
Lemma has_In (c : N) (s : pstr) : has c s = true <-> In c s.
Proof.
  unfold has. rewrite existsb_exists. split.
  - intros [x [Hx E]]. apply N.eqb_eq in E. now subst.
  - intros H. exists c. split; [exact H | apply N.eqb_refl].
Qed.

Lemma has_false (c : N) (s : pstr) : has c s = false <-> ~ In c s.
Proof. rewrite <- has_In. symmetry. apply not_true_iff_false. Qed.

Lemma always_safe_ascii (b : N) : always_safe b = true -> b < 128 /\ b <> 37 /\ b <> 43
  /\ b <> 61 /\ b <> 38 /\ b <> 35 /\ b <> 58 /\ b <> 63 /\ b <> 47 /\ 32 < b.
Proof.
  unfold always_safe, ascii_alpha, ascii_digit, in_range.
  rewrite !orb_true_iff, !andb_true_iff, !N.leb_le, !N.eqb_eq. lia.
Qed.

Lemma hexdigit_upper_safe (d : N) : d < 16 -> always_safe (hexdigit_upper d) = true.
Proof.
  intros H. unfold hexdigit_upper, always_safe, ascii_alpha, ascii_digit, in_range.
  destruct (N.ltb_spec d 10).
  - replace ((48 <=? 48 + d) && (48 + d <=? 57)) with true
      by (symmetry; apply andb_true_iff; split; apply N.leb_le; lia).
    now rewrite orb_true_r.
  - replace ((65 <=? 55 + d) && (55 + d <=? 90)) with true
      by (symmetry; apply andb_true_iff; split; apply N.leb_le; lia).
    reflexivity.
Qed.

Lemma hexval_hexdigit_upper (d : N) : d < 16 -> hexval (hexdigit_upper d) = Some d.
Proof.
  intros H. unfold hexval, hexdigit_upper, ascii_digit, in_range.
  destruct (N.ltb_spec d 10).
  - replace ((48 <=? 48 + d) && (48 + d <=? 57)) with true
      by (symmetry; apply andb_true_iff; split; apply N.leb_le; lia).
    f_equal. lia.
  - replace ((48 <=? 55 + d) && (55 + d <=? 57)) with false
      by (symmetry; apply andb_false_iff; right; apply N.leb_gt; lia).
    replace ((65 <=? 55 + d) && (55 + d <=? 70)) with true
      by (symmetry; apply andb_true_iff; split; apply N.leb_le; lia).
    f_equal. lia.
Qed.

Lemma quote_from_bytes_chars (safe : N -> bool) (bs : octets) :
  Forall (fun b => b < 256) bs ->
  Forall (fun c => quoted_char safe c = true) (quote_from_bytes safe bs).
Proof.
  unfold quote_from_bytes. induction 1 as [|b bs Hb _ IH]; [constructor |].
  cbn [flat_map]. apply Forall_app. split; [| exact IH].
  unfold quoted_char. destruct (always_safe b || safe b) eqn:E.
  - constructor; [| constructor]. apply orb_true_iff in E as [-> | ->];
      [reflexivity | apply orb_true_r].
  - assert (b / 16 < 16) by (apply N.Div0.div_lt_upper_bound; lia).
    assert (b mod 16 < 16) by (now apply N.mod_lt).
    repeat constructor.
    + now rewrite !hexdigit_upper_safe.
    + now rewrite !hexdigit_upper_safe.
Qed.

Lemma quote_from_bytes_ext (safe1 safe2 : N -> bool) (bs : octets) :
  Forall (fun b => safe1 b = safe2 b) bs ->
  quote_from_bytes safe1 bs = quote_from_bytes safe2 bs.
Proof.
  unfold quote_from_bytes. induction 1 as [|b bs Hb _ IH]; [reflexivity |].
  cbn [flat_map]. now rewrite Hb, IH.
Qed.

Lemma utf8_decode_ascii (bs : octets) :
  Forall (fun b => b < 128) bs -> utf8_decode bs = bs.
Proof.
  intros H. apply utf8_decode_encode. now apply utf8_encode_ascii.
Qed.

Lemma unquote_from_quoted (acc bs : octets) :
  Forall (fun b => b < 256) bs ->
  unquote_from acc (quote_from_bytes (N.eqb 32) bs) = utf8_decode (acc ++ bs).
Proof.
  intros H. revert acc. unfold quote_from_bytes.
  induction H as [|b bs Hb _ IH]; intros acc.
  - cbn. now rewrite app_nil_r.
  - cbn [flat_map]. destruct (always_safe b || (32 =? b)) eqn:E.
    + assert (Hlow : b < 128 /\ b <> 37).
      { apply orb_true_iff in E as [E | E].
        - apply always_safe_ascii in E. lia.
        - apply N.eqb_eq in E. lia. }
      cbn [app unquote_from].
      rewrite (proj2 (N.leb_gt 128 b)), (proj2 (N.eqb_neq b 37)) by lia.
      rewrite IH, <- app_assoc. reflexivity.
    + assert (H1 : b / 16 < 16) by (apply N.Div0.div_lt_upper_bound; lia).
      assert (H2 : b mod 16 < 16) by (now apply N.mod_lt).
      cbn [app unquote_from].
      change (128 <=? 37) with false. change (37 =? 37) with true. cbv iota.
      rewrite (hexval_hexdigit_upper _ H1), (hexval_hexdigit_upper _ H2).
      rewrite IH, <- app_assoc. do 2 f_equal. cbn [app]. f_equal.
      symmetry. apply N.div_mod'.
Qed.

Lemma quote_from_bytes_plain (safe : N -> bool) (bs : octets) :
  ~ In 37 (quote_from_bytes safe bs) ->
  quote_from_bytes safe bs = bs /\ Forall (fun b => always_safe b || safe b = true) bs.
Proof.
  unfold quote_from_bytes. induction bs as [|b bs IH]; [intros _; split; constructor |].
  cbn [flat_map]. destruct (always_safe b || safe b) eqn:E.
  - intros H. destruct IH as [IH1 IH2].
    + intros Hin. apply H. now right.
    + split; [cbn; now rewrite IH1 | now constructor].
  - intros H. exfalso. apply H. now left.
Qed.

Lemma plus_to_space_id (s : pstr) : ~ In 43 s -> plus_to_space s = s.
Proof.
  unfold plus_to_space. induction s as [|c s IH]; [reflexivity |].
  intros H. cbn [map]. rewrite IH by (intros Hin; apply H; now right).
  destruct (N.eqb_spec c 43) as [-> | _]; [exfalso; apply H; now left | reflexivity].
Qed.

Lemma plus_to_space_plus (s : pstr) :
  ~ In 43 s -> plus_to_space (map (fun c => if c =? 32 then 43 else c) s) = s.
Proof.
  unfold plus_to_space. induction s as [|c s IH]; [reflexivity |].
  intros H. cbn [map]. rewrite IH by (intros Hin; apply H; now right).
  f_equal. destruct (N.eqb_spec c 32) as [-> | Hc]; [reflexivity |].
  destruct (N.eqb_spec c 43) as [-> | _]; [exfalso; apply H; now left | reflexivity].
Qed.

Lemma quoted_no_plus (safe : N -> bool) (s : pstr) :
  safe 43 = false -> Forall (fun c => quoted_char safe c = true) s -> ~ In 43 s.
Proof.
  intros Hs H Hin. rewrite Forall_forall in H.
  specialize (H 43 (proj2 (list_elem_of_In _ _) Hin)).
  unfold quoted_char in H. rewrite Hs in H. vm_compute in H. discriminate.
Qed.

(** What quote_plus returns is made of unreserved characters, "%" and
    "+", and unquoting it after the exchange of "+" for a space gives the
    string back. *)
Lemma quote_plus_unquote (s s' : pstr) :
  quote_plus s = Some s' ->
  unquote (plus_to_space s') = s /\ Forall (fun c => plus_char c = true) s'.
Proof.
  unfold quote_plus, quote.
  destruct (utf8_encode s) as [bs|] eqn:Hbs; [| now destruct (negb _)].
  pose proof (utf8_encode_octets _ _ Hbs) as Hoct.
  assert (Hun : unquote (quote_from_bytes (N.eqb 32) bs) = s).
  { unfold unquote. destruct (has 37 _) eqn:Hp.
    - rewrite unquote_from_quoted by exact Hoct. now apply utf8_decode_encode.
    - apply has_false in Hp. apply quote_from_bytes_plain in Hp as [-> Hsafe].
      rewrite <- (utf8_decode_ascii bs).
      + now apply utf8_decode_encode.
      + eapply Forall_impl; [exact Hsafe |]. intros b Hb. cbv beta in Hb.
        apply orb_true_iff in Hb as [Hb | Hb].
        * apply always_safe_ascii in Hb. lia.
        * apply N.eqb_eq in Hb. lia. }
  pose proof (quote_from_bytes_chars (N.eqb 32) bs Hoct) as Hch.
  assert (Hnp : ~ In 43 (quote_from_bytes (N.eqb 32) bs))
    by (now apply (quoted_no_plus (N.eqb 32))).
  destruct (negb (has 32 s)) eqn:Hsp; cbn; intros [= <-].
  - assert (E : quote_from_bytes (fun _ => false) bs = quote_from_bytes (N.eqb 32) bs).
    { apply quote_from_bytes_ext. apply Forall_forall. intros b Hb.
      symmetry. apply N.eqb_neq. intros <-.
      apply negb_true_iff, has_false in Hsp. apply Hsp.
      apply (utf8_encode_low s bs 32 Hbs); [now apply list_elem_of_In | lia]. }
    rewrite E, plus_to_space_id by exact Hnp. split; [exact Hun |].
    rewrite <- E. eapply Forall_impl; [apply quote_from_bytes_chars, Hoct |].
    intros c Hc. unfold quoted_char in Hc. unfold plus_char.
    now rewrite orb_false_r in Hc; rewrite Hc.
  - rewrite plus_to_space_plus by exact Hnp. split; [exact Hun |].
    apply Forall_forall. intros c Hc. apply list_elem_of_In, in_map_iff in Hc as [x [<- Hx]].
    rewrite Forall_forall in Hch. specialize (Hch x (proj2 (list_elem_of_In _ _) Hx)).
    unfold quoted_char in Hch. unfold plus_char.
    destruct (N.eqb_spec x 32) as [-> | Hne]; [reflexivity |].
    apply orb_true_iff in Hch as [-> | Hch]; [reflexivity |].
    apply N.eqb_eq in Hch. congruence.
Qed.

(** ** Query strings *)
Lemma cut_absent (c : N) (s : pstr) : ~ In c s -> cut c s = None.
Proof.
  induction s as [|x s IH]; [reflexivity |]. intros H. cbn [cut].
  destruct (N.eqb_spec x c) as [-> | _]; [exfalso; apply H; now left |].
  rewrite IH; [reflexivity |]. intros Hin. apply H. now right.
Qed.

Lemma cut_first (c : N) (a b : pstr) : ~ In c a -> cut c (a ++ c :: b) = Some (a, b).
Proof.
  induction a as [|x a IH]; intros H.
  - cbn. now rewrite N.eqb_refl.
  - cbn [app cut]. destruct (N.eqb_spec x c) as [-> | _]; [exfalso; apply H; now left |].
    rewrite IH; [reflexivity |]. intros Hin. apply H. now right.
Qed.

Lemma cut_Some (c : N) (s a b : pstr) :
  cut c s = Some (a, b) -> s = a ++ c :: b /\ ~ In c a.
Proof.
  revert a. induction s as [|x s IH]; intros a; [discriminate |]. cbn [cut].
  destruct (N.eqb_spec x c) as [-> | Hne].
  - intros [= <- <-]. split; [reflexivity | intros []].
  - destruct (cut c s) as [[a' b']|]; [| discriminate].
    intros [= <- <-]. destruct (IH a' eq_refl) as [-> Hn].
    split; [reflexivity |]. intros [E | Hin]; [congruence | contradiction].
Qed.

Lemma cut_None (c : N) (s : pstr) : cut c s = None -> ~ In c s.
Proof.
  induction s as [|x s IH]; [intros _ [] |]. cbn [cut].
  destruct (N.eqb_spec x c) as [-> | Hne]; [discriminate |].
  destruct (cut c s) as [[a b]|]; [discriminate |].
  intros _ [E | Hin]; [congruence | now apply IH].
Qed.

Lemma cut_or_absent (c : N) (s : pstr) : ~ In c s -> cut_or c s = (s, []).
Proof. intros H. unfold cut_or. now rewrite cut_absent. Qed.

Lemma cut_or_first (c : N) (a b : pstr) : ~ In c a -> cut_or c (a ++ c :: b) = (a, b).
Proof. intros H. unfold cut_or. now rewrite cut_first. Qed.

Lemma split_on_absent (c : N) (s : pstr) : ~ In c s -> split_on c s = [s].
Proof.
  induction s as [|x s IH]; [reflexivity |]. intros H. cbn [split_on].
  destruct (N.eqb_spec x c) as [-> | _]; [exfalso; apply H; now left |].
  rewrite IH; [reflexivity |]. intros Hin. apply H. now right.
Qed.

Lemma split_on_first (c : N) (a b : pstr) :
  ~ In c a -> split_on c (a ++ c :: b) = a :: split_on c b.
Proof.
  induction a as [|x a IH]; intros H.
  - cbn. now rewrite N.eqb_refl.
  - cbn [app split_on]. destruct (N.eqb_spec x c) as [-> | _]; [exfalso; apply H; now left |].
    rewrite IH; [reflexivity |]. intros Hin. apply H. now right.
Qed.

Lemma split_on_join (c : N) (l : list pstr) :
  l <> [] -> Forall (fun f => ~ In c f) l -> split_on c (join [c] l) = l.
Proof.
  intros Hne H. induction H as [|f l Hf Hl IH]; [congruence |].
  destruct l as [|g l].
  - cbn. now apply split_on_absent.
  - change (join [c] (f :: g :: l)) with (f ++ c :: join [c] (g :: l)).
    rewrite split_on_first by exact Hf. now rewrite IH.
Qed.

Lemma plus_char_facts (c : N) :
  plus_char c = true -> c <> 61 /\ c <> 38 /\ query_char c = true.
Proof.
  unfold query_char, plus_char. intros H. rewrite H.
  rewrite !orb_true_iff in H. destruct H as [[H | H] | H].
  - apply always_safe_ascii in H. repeat split; lia || reflexivity.
  - apply N.eqb_eq in H. subst. repeat split; lia || reflexivity.
  - apply N.eqb_eq in H. subst. repeat split; lia || reflexivity.
Qed.

Lemma Forall_not_In (P : N -> Prop) (c : N) (s : pstr) :
  Forall P s -> ~ P c -> ~ In c s.
Proof.
  intros H Hc Hin. rewrite Forall_forall in H.
  apply Hc, H, list_elem_of_In, Hin.
Qed.

Lemma encode_fields_spec (q : list (pstr * pstr)) (l : list pstr) :
  encode_fields q = Some l -> Forall2 field_of q l.
Proof.
  revert l. induction q as [|[k v] q IH]; intros l; cbn [encode_fields].
  - intros [= <-]. constructor.
  - destruct (quote_plus k) as [k'|] eqn:Hk; [| discriminate]. cbn.
    destruct (quote_plus v) as [v'|] eqn:Hv; [| discriminate]. cbn.
    destruct (encode_fields q) as [l'|]; [| discriminate]. cbn.
    intros [= <-]. constructor; [| now apply IH].
    exists k', v'. auto.
Qed.

Lemma field_of_parse (kv : pstr * pstr) (f : pstr) :
  field_of kv f ->
  parse_field f = [kv] /\ ~ In 38 f /\ Forall (fun c => query_char c = true) f.
Proof.
  intros (k' & v' & Hk & Hv & ->). destruct kv as [k v]. cbn [fst snd] in *.
  apply quote_plus_unquote in Hk as [Hk Hkc]. apply quote_plus_unquote in Hv as [Hv Hvc].
  assert (Hk61 : ~ In 61 k')
    by (apply (Forall_not_In _ _ _ Hkc); vm_compute; discriminate).
  split; [| split].
  - unfold parse_field. destruct (k' ++ 61 :: v') eqn:E; [now destruct k' |].
    rewrite <- E, cut_or_first by exact Hk61. now rewrite Hk, Hv.
  - intros Hin. apply in_app_or in Hin as [Hin | [E | Hin]].
    + revert Hin. apply (Forall_not_In _ _ _ Hkc). vm_compute. discriminate.
    + discriminate.
    + revert Hin. apply (Forall_not_In _ _ _ Hvc). vm_compute. discriminate.
  - apply Forall_app. split; [| constructor; [reflexivity |]].
    + eapply Forall_impl; [exact Hkc |]. intros c Hc. now apply plus_char_facts.
    + eapply Forall_impl; [exact Hvc |]. intros c Hc. now apply plus_char_facts.
Qed.

Lemma join_chars (P : N -> Prop) (sep : pstr) (l : list pstr) :
  Forall P sep -> Forall (Forall P) l -> Forall P (join sep l).
Proof.
  intros Hs H. induction H as [|f l Hf Hl IH]; [constructor |].
  destruct l as [|g l]; [exact Hf |].
  change (join sep (f :: g :: l)) with (f ++ sep ++ join sep (g :: l)).
  rewrite !Forall_app. auto.
Qed.

Lemma fields_parse (q : list (pstr * pstr)) (l : list pstr) :
  Forall2 field_of q l ->
  flat_map parse_field l = q
  /\ Forall (fun f => ~ In 38 f) l
  /\ Forall (Forall (fun c => query_char c = true)) l.
Proof.
  induction 1 as [|kv f q l Hf _ (IH1 & IH2 & IH3)]; [repeat split; constructor |].
  destruct (field_of_parse _ _ Hf) as (H1 & H2 & H3).
  split; [| split].
  - cbn [flat_map]. now rewrite H1, IH1.
  - now constructor.
  - now constructor.
Qed.

Lemma join_fields_nonempty (q : list (pstr * pstr)) (f : pstr) (l : list pstr) :
  Forall2 field_of q (f :: l) -> join [38] (f :: l) <> [].
Proof.
  intros H E. inversion H as [|kv f' q' l' (k' & v' & _ & _ & ->) _]; subst.
  destruct l as [|g l].
  - now destruct k'.
  - change (join [38] ((k' ++ 61 :: v') :: g :: l))
      with ((k' ++ 61 :: v') ++ 38 :: join [38] (g :: l)) in E.
    now destruct k'.
Qed.

(** Parsing an encoded query gives the pairs back. *)
Lemma parse_qsl_urlencode (q : list (pstr * pstr)) (qs : pstr) :
  urlencode q = Some qs ->
  parse_qsl qs = q /\ Forall (fun c => query_char c = true) qs.
Proof.
  unfold urlencode. destruct (encode_fields q) as [l|] eqn:Hl; [| discriminate].
  cbn. intros [= <-]. apply encode_fields_spec in Hl.
  destruct (fields_parse _ _ Hl) as (Hparse & Hamp & Hch).
  split.
  - destruct l as [|f l].
    + inversion Hl; subst. reflexivity.
    + pose proof (join_fields_nonempty _ _ _ Hl) as Hne.
      unfold parse_qsl. destruct (join [38] (f :: l)) eqn:E; [congruence |].
      rewrite <- E, split_on_join; [exact Hparse | discriminate | exact Hamp].
  - apply join_chars; [repeat constructor | exact Hch].
Qed.

Lemma filter_area_id_twice (q : list (pstr * pstr)) :
  filter (fun kv => fst kv ≠ s_area_id) (filter (fun kv => fst kv ≠ s_area_id) q)
  = filter (fun kv => fst kv ≠ s_area_id) q.
Proof.
  induction q as [|kv q IH]; [reflexivity |].
  rewrite (filter_cons _ kv q).
  destruct (decide (fst kv ≠ s_area_id)) as [H | H]; [| exact IH].
  rewrite filter_cons. destruct (decide (fst kv ≠ s_area_id)); [| contradiction].
  now rewrite IH.
Qed.

Lemma urlsplit_eq (L : netloc_checks) (url : pstr) :
  urlsplit L url =
  let '(scheme, r) := split_scheme (cleaned url) in
  let '(netloc, r2) := split_netloc r in
  if netloc_passes L netloc
  then Some (scheme, netloc, fst (cut_or 63 (fst (cut_or 35 r2))),
             snd (cut_or 63 (fst (cut_or 35 r2))), snd (cut_or 35 r2))
  else None.
Proof.
  unfold urlsplit, netloc_passes, cleaned.
  destruct (split_scheme _) as [scheme r]. destruct (split_netloc r) as [netloc r2].
  destruct (xorb _ _); [reflexivity |]. cbn [negb andb].
  destruct (has 91 netloc && has 93 netloc && negb _); [reflexivity |]. cbn [negb andb].
  destruct (cut_or 35 r2) as [r3 frag]. cbn [fst snd].
  destruct (cut_or 63 r3) as [path query]. cbn [fst snd].
  destruct (negb (isascii netloc) && negb _); reflexivity.
Qed.

Lemma split_scheme_cases (s : pstr) :
  (split_scheme s = ([], s) /\ no_scheme s = true)
  \/ (exists c pre rest,
        s = (c :: pre) ++ 58 :: rest
        /\ ascii_alpha c = true /\ forallb scheme_char (c :: pre) = true
        /\ split_scheme s = (map ascii_lower (c :: pre), rest)).
Proof.
  unfold split_scheme, no_scheme. destruct (cut 58 s) as [[[|c pre] rest]|] eqn:E; auto.
  destruct (ascii_alpha c && forallb scheme_char (c :: pre)) eqn:T; auto.
  right. apply andb_true_iff in T as [T1 T2]. apply cut_Some in E as [-> _].
  exists c, pre, rest. auto.
Qed.

Lemma split_scheme_none (s : pstr) : no_scheme s = true -> split_scheme s = ([], s).
Proof.
  unfold split_scheme, no_scheme. destruct (cut 58 s) as [[[|c pre] rest]|]; auto.
  intros H. apply negb_true_iff in H. now rewrite H.
Qed.

Lemma no_scheme_non_alpha (c : N) (s : pstr) :
  ascii_alpha c = false -> no_scheme (c :: s) = true.
Proof.
  intros H. unfold no_scheme. destruct (cut 58 (c :: s)) as [[[|c' pre] rest]|] eqn:E; auto.
  apply cut_Some in E as [E _]. injection E as <- _. now rewrite H.
Qed.

Lemma scheme_char_facts (c : N) :
  scheme_char c = true ->
  c <> 58 /\ c <> 63 /\ tab_cr_lf c = false /\ 32 < c
  /\ scheme_char (ascii_lower c) = true /\ ascii_lower (ascii_lower c) = ascii_lower c.
Proof.
  unfold scheme_char, ascii_alpha, ascii_digit, ascii_lower, in_range, tab_cr_lf.
  intros H.
  assert (Hc : 65 <= c <= 90 \/ 97 <= c <= 122 \/ 48 <= c <= 57 \/ c = 43 \/ c = 45 \/ c = 46).
  { rewrite !orb_true_iff, !andb_true_iff, !N.leb_le, !N.eqb_eq in H. lia. }
  clear H. split; [lia |]. split; [lia |]. split; [| split; [lia |]; split].
  - rewrite !orb_false_iff, !N.eqb_neq. lia.
  - destruct ((65 <=? c) && (c <=? 90)) eqn:E.
    + apply andb_true_iff in E as [E1 E2]. apply N.leb_le in E1, E2.
      rewrite !orb_true_iff, !andb_true_iff, !N.leb_le, !N.eqb_eq. lia.
    + apply andb_false_iff in E. rewrite !N.leb_gt in E.
      rewrite !orb_true_iff, !andb_true_iff, !N.leb_le, !N.eqb_eq. lia.
  - destruct ((65 <=? c) && (c <=? 90)) eqn:E; [| now rewrite E].
    apply andb_true_iff in E as [E1 E2]. apply N.leb_le in E1, E2.
    replace ((65 <=? c + 32) && (c + 32 <=? 90)) with false; [reflexivity |].
    symmetry. apply andb_false_iff. right. apply N.leb_gt. lia.
Qed.

Lemma ascii_alpha_lower (c : N) : ascii_alpha c = true -> ascii_alpha (ascii_lower c) = true.
Proof.
  unfold ascii_alpha, ascii_lower, in_range. intros H.
  assert (Hc : 65 <= c <= 90 \/ 97 <= c <= 122)
    by (rewrite !orb_true_iff, !andb_true_iff, !N.leb_le in H; lia).
  destruct (N.leb_spec 65 c), (N.leb_spec c 90); cbn [andb];
    rewrite !orb_true_iff, !andb_true_iff, !N.leb_le; lia.
Qed.

Lemma ascii_alpha_scheme_char (c : N) : ascii_alpha c = true -> scheme_char c = true.
Proof. unfold scheme_char. now intros ->. Qed.

Lemma scheme_ok_lower (c : N) (pre : pstr) :
  ascii_alpha c = true -> forallb scheme_char (c :: pre) = true ->
  scheme_ok (map ascii_lower (c :: pre)).
Proof.
  intros Ha Hs. right. exists (ascii_lower c), (map ascii_lower pre).
  rewrite forallb_forall in Hs. repeat split.
  - now apply ascii_alpha_lower.
  - change (forallb scheme_char (map ascii_lower (c :: pre)) = true).
    apply forallb_forall. intros x Hx. apply in_map_iff in Hx as [y [<- Hy]].
    now apply scheme_char_facts, Hs.
  - change (map ascii_lower (map ascii_lower (c :: pre)) = map ascii_lower (c :: pre)).
    rewrite map_map. apply map_ext_in. intros x Hx. now apply scheme_char_facts, Hs.
Qed.

Lemma split_scheme_scheme (scheme rest : pstr) :
  scheme_ok scheme -> scheme <> [] ->
  split_scheme (scheme ++ 58 :: rest) = (scheme, rest).
Proof.
  intros [-> | (c & pre & -> & Ha & Hs & Hl)] Hne; [congruence |].
  unfold split_scheme. rewrite cut_first.
  - now rewrite Ha, Hs, Hl.
  - intros Hin. rewrite forallb_forall in Hs. apply Hs in Hin.
    now apply scheme_char_facts in Hin.
Qed.

Lemma prefix_before (c : N) (a l b r : pstr) :
  a ++ l = b ++ c :: r -> ~ In c a -> exists t, b = a ++ t.
Proof.
  revert b. induction a as [|y a IH]; intros b E Hn; [eauto |].
  destruct b as [|z b]; cbn in E.
  - injection E as -> _. exfalso. apply Hn. now left.
  - injection E as -> E. destruct (IH b E) as [t ->].
    + intros Hin. apply Hn. now right.
    + eauto.
Qed.

Lemma no_scheme_query (path x : pstr) :
  no_scheme path = true -> no_scheme (path ++ 63 :: x) = true.
Proof.
  unfold no_scheme. destruct (cut 58 path) as [[pre post]|] eqn:E.
  - apply cut_Some in E as [-> Hn]. rewrite <- app_assoc. cbn [app].
    now rewrite cut_first.
  - intros _. apply cut_None in E.
    destruct (cut 58 (path ++ 63 :: x)) as [[[|c pre] post]|] eqn:E'; auto.
    apply cut_Some in E' as [E' Hn].
    destruct (prefix_before 58 path (63 :: x) (c :: pre) post E' E) as [t Ht].
    rewrite Ht, <- app_assoc in E'. apply app_inv_head in E'.
    destruct t as [|y t]; cbn in E'; [discriminate |]. injection E' as <- _.
    apply negb_true_iff, andb_false_iff. right.
    apply not_true_iff_false. intros Hall. rewrite forallb_forall in Hall.
    assert (Hin : In 63 (c :: pre)) by (rewrite Ht; apply in_or_app; right; now left).
    specialize (Hall 63 Hin). vm_compute in Hall. discriminate.
Qed.

Lemma no_scheme_prefix (path x : pstr) :
  no_scheme (path ++ 63 :: x) = true -> no_scheme path = true.
Proof.
  unfold no_scheme. destruct (cut 58 path) as [[pre post]|] eqn:E; [| reflexivity].
  apply cut_Some in E as [-> Hn]. rewrite <- app_assoc. cbn [app].
  now rewrite cut_first.
Qed.

Lemma urlunsplit_eq (scheme netloc path qs : pstr) :
  urlunsplit_3_12_4 scheme netloc path qs [] =
  match scheme with
  | [] => unsplit_body scheme netloc path ++ query_tail qs
  | _ => scheme ++ 58 :: unsplit_body scheme netloc path ++ query_tail qs
  end.
Proof.
  unfold urlunsplit_3_12_4. fold (unsplit_body scheme netloc path).
  destruct scheme as [|c scheme], qs as [|q qs]; cbn [query_tail];
    rewrite ?app_nil_r, <- ?app_assoc; reflexivity.
Qed.

Lemma startswith_slash (path : pstr) :
  startswith [47] path = true -> exists p, path = 47 :: p.
Proof.
  intros H. apply startswith_spec in H as [r ->]. eauto.
Qed.

Lemma unsplit_body_cases (scheme netloc path : pstr) :
  url_parts scheme netloc path ->
  (unsplit_body scheme netloc path = [47; 47] ++ netloc ++ path
   /\ (path = [] \/ exists p, path = 47 :: p))
  \/ (unsplit_body scheme netloc path = path
      /\ netloc = [] /\ startswith [47; 47] path = false).
Proof.
  intros P. unfold unsplit_body. destruct netloc as [|n netloc].
  - destruct (startswith [47; 47] path) eqn:E.
    + left. split; [reflexivity |]. right.
      apply startswith_spec in E as [r ->]. eauto.
    + destruct (_ && _ && _) eqn:T; [| right; auto].
      left. split; [reflexivity |]. apply andb_true_iff in T as [_ T].
      apply orb_true_iff in T as [T | T].
      * left. now apply pstr_eqb_eq.
      * right. now apply startswith_slash.
  - left. destruct (parts_rooted _ _ _ P) as [-> | [p ->]]; [discriminate | |].
    + split; [reflexivity | now left].
    + split; [reflexivity | right; eauto].
Qed.

Lemma span_until_app (stop : N -> bool) (a b : pstr) :
  Forall (fun c => stop c = false) a ->
  (b = [] \/ exists c b', b = c :: b' /\ stop c = true) ->
  span_until stop (a ++ b) = (a, b).
Proof.
  intros Ha Hb. induction Ha as [|x a Hx _ IH]; cbn [app span_until].
  - destruct Hb as [-> | (c & b' & -> & Hc)]; [reflexivity |].
    cbn [span_until]. now rewrite Hc.
  - now rewrite Hx, IH.
Qed.

Lemma span_until_spec (stop : N -> bool) (s a b : pstr) :
  span_until stop s = (a, b) ->
  s = a ++ b /\ Forall (fun c => stop c = false) a
  /\ (b = [] \/ exists c b', b = c :: b' /\ stop c = true).
Proof.
  revert a. induction s as [|x s IH]; intros a; cbn [span_until].
  - intros [= <- <-]. repeat split; [constructor | now left].
  - destruct (stop x) eqn:Hx.
    + intros [= <- <-]. repeat split; [constructor | right; eauto].
    + destruct (span_until stop s) as [a' b']. intros [= <- <-].
      destruct (IH a' eq_refl) as (-> & Ha & Hb).
      repeat split; [now constructor | exact Hb].
Qed.

Lemma query_tail_cases (qs : pstr) :
  query_tail qs = [] \/ exists t, query_tail qs = 63 :: t.
Proof. destruct qs; [now left | right; cbn; eauto]. Qed.

Lemma split_netloc_rooted (netloc rest : pstr) :
  Forall (fun c => netloc_delim c = false) netloc ->
  (rest = [] \/ exists c r, rest = c :: r /\ netloc_delim c = true) ->
  split_netloc ([47; 47] ++ netloc ++ rest) = (netloc, rest).
Proof. intros H1 H2. cbn [app split_netloc]. now apply span_until_app. Qed.

Lemma split_netloc_none (path tail : pstr) :
  startswith [47; 47] path = false ->
  (tail = [] \/ exists t, tail = 63 :: t) ->
  split_netloc (path ++ tail) = ([], path ++ tail).
Proof.
  intros H Ht. destruct path as [|a [|b p]].
  - destruct Ht as [-> | [t ->]]; reflexivity.
  - destruct Ht as [-> | [t ->]]; cbn [app].
    + unfold split_netloc. destruct a as [|a]; [reflexivity |].
      repeat (destruct a as [a | a |]; try reflexivity).
    + unfold split_netloc. destruct a as [|a]; [reflexivity |].
      repeat (destruct a as [a | a |]; try reflexivity).
  - cbn [app]. cbn in H. rewrite andb_true_r in H.
    destruct (N.eqb_spec 47 a) as [<- | Ha].
    + destruct (N.eqb_spec 47 b) as [<- | Hb]; [discriminate |].
      unfold split_netloc. destruct b as [|b]; [reflexivity |].
      repeat (destruct b as [b | b |]; try reflexivity). congruence.
    + unfold split_netloc. destruct a as [|a]; [reflexivity |].
      repeat (destruct a as [a | a |]; try reflexivity). congruence.
Qed.

Lemma lstrip_c0_length (s : pstr) : (length (lstrip_c0 s) <= length s)%nat.
Proof.
  induction s as [|c s IH]; [reflexivity |]. cbn [lstrip_c0].
  destruct (c0_or_space c); cbn [length]; lia.
Qed.

Lemma lstrip_c0_fixed (s : pstr) :
  lstrip_c0 s = s <-> s = [] \/ exists c r, s = c :: r /\ c0_or_space c = false.
Proof.
  split.
  - destruct s as [|c s]; [now left |]. cbn [lstrip_c0].
    destruct (c0_or_space c) eqn:Hc; [| right; eauto].
    intros E. pose proof (lstrip_c0_length s) as H. rewrite E in H. cbn in H. lia.
  - intros [-> | (c & r & -> & Hc)]; [reflexivity |]. cbn [lstrip_c0]. now rewrite Hc.
Qed.

Lemma lstrip_c0_idem (s : pstr) : lstrip_c0 (lstrip_c0 s) = lstrip_c0 s.
Proof.
  induction s as [|c s IH]; [reflexivity |]. cbn [lstrip_c0].
  destruct (c0_or_space c) eqn:Hc; [exact IH |]. cbn [lstrip_c0]. now rewrite Hc.
Qed.

Lemma query_char_facts (c : N) :
  query_char c = true -> c <> 35 /\ c <> 58 /\ c <> 63 /\ tab_cr_lf c = false.
Proof.
  unfold query_char, plus_char. rewrite !orb_true_iff, !N.eqb_eq.
  intros [[[[H | ->] | ->] | ->] | ->]; try (repeat split; (discriminate || reflexivity)).
  apply always_safe_ascii in H. unfold tab_cr_lf.
  repeat split; try lia. rewrite !orb_false_iff, !N.eqb_neq. lia.
Qed.

Lemma scheme_char_no_hash (c : N) : scheme_char c = true -> c <> 35 /\ c <> 47.
Proof.
  unfold scheme_char, ascii_alpha, ascii_digit, in_range.
  rewrite !orb_true_iff, !andb_true_iff, !N.leb_le, !N.eqb_eq. lia.
Qed.

Lemma scheme_ok_chars (scheme : pstr) : scheme_ok scheme -> Forall url_char scheme.
Proof.
  intros [-> | (c & pre & -> & _ & Hs & _)]; [constructor |].
  rewrite forallb_forall in Hs. apply Forall_forall. intros x Hx.
  apply list_elem_of_In, Hs in Hx. split.
  - now apply scheme_char_facts.
  - now apply scheme_char_no_hash.
Qed.

Lemma query_tail_chars (qs : pstr) :
  Forall (fun c => query_char c = true) qs -> Forall url_char (query_tail qs).
Proof.
  intros H. assert (Hq : Forall url_char qs).
  { eapply Forall_impl; [exact H |]. intros c Hc. apply query_char_facts in Hc.
    split; tauto. }
  destruct qs as [|q qs]; [constructor |]. cbn [query_tail].
  constructor; [split; [reflexivity | discriminate] | exact Hq].
Qed.

Lemma parts_chars (scheme netloc path : pstr) :
  url_parts scheme netloc path -> Forall url_char (netloc ++ path).
Proof.
  intros P. pose proof (parts_clean _ _ _ P) as Hc.
  pose proof (parts_netloc _ _ _ P) as Hn. destruct (parts_path _ _ _ P) as [_ Hp].
  apply Forall_forall. intros c Hin. split.
  - rewrite Forall_forall in Hc. now apply Hc.
  - intros ->. apply elem_of_app in Hin as [Hin | Hin].
    + rewrite Forall_forall in Hn. apply Hn in Hin. discriminate.
    + apply Hp. now apply list_elem_of_In.
Qed.

Lemma unsplit_body_chars (scheme netloc path : pstr) :
  url_parts scheme netloc path -> Forall url_char (unsplit_body scheme netloc path).
Proof.
  intros P. pose proof (parts_chars _ _ _ P) as H.
  destruct (unsplit_body_cases _ _ _ P) as [[-> _] | (-> & -> & _)]; [| exact H].
  cbn [app]. repeat constructor; try discriminate. exact H.
Qed.

Lemma urlunsplit_chars (scheme netloc path qs : pstr) :
  url_parts scheme netloc path -> Forall (fun c => query_char c = true) qs ->
  Forall url_char (urlunsplit_3_12_4 scheme netloc path qs []).
Proof.
  intros P Hq. rewrite urlunsplit_eq.
  pose proof (unsplit_body_chars _ _ _ P) as Hb.
  pose proof (query_tail_chars _ Hq) as Ht.
  pose proof (scheme_ok_chars _ (parts_scheme _ _ _ P)) as Hs.
  destruct scheme as [|c scheme].
  - apply Forall_app. now split.
  - apply Forall_app. split; [exact Hs |].
    constructor; [split; [reflexivity | discriminate] |].
    apply Forall_app. now split.
Qed.

Lemma unsplit_lstrip (scheme netloc path qs : pstr) :
  url_parts scheme netloc path ->
  lstrip_c0 (urlunsplit_3_12_4 scheme netloc path qs []) = urlunsplit_3_12_4 scheme netloc path qs [].
Proof.
  intros P. rewrite urlunsplit_eq. apply lstrip_c0_fixed.
  destruct (parts_scheme _ _ _ P) as [-> | (c & pre & -> & Ha & Hs & _)].
  - destruct (unsplit_body_cases _ _ _ P) as [[-> _] | (-> & -> & _)].
    + right. exists 47. eexists. split; [reflexivity | reflexivity].
    + destruct (parts_bare _ _ _ P eq_refl) as [_ Hl].
      apply lstrip_c0_fixed in Hl as [-> | (c & r & -> & Hc)].
      * cbn [app]. destruct (query_tail_cases qs) as [-> | [t ->]]; [now left |].
        right. exists 63, t. split; reflexivity.
      * right. exists c. eexists. split; [reflexivity | exact Hc].
  - right. exists c. eexists. split; [reflexivity |].
    apply ascii_alpha_scheme_char, scheme_char_facts in Ha.
    unfold c0_or_space. apply N.leb_gt. tauto.
Qed.

Lemma unsplit_cleaned (scheme netloc path qs : pstr) :
  url_parts scheme netloc path -> Forall (fun c => query_char c = true) qs ->
  cleaned (urlunsplit_3_12_4 scheme netloc path qs []) = urlunsplit_3_12_4 scheme netloc path qs [].
Proof.
  intros P Hq. unfold cleaned. rewrite (unsplit_lstrip _ _ _ _ P).
  apply remove_class_id. eapply Forall_impl; [exact (urlunsplit_chars _ _ _ _ P Hq) |].
  now intros c [Hc _].
Qed.

Lemma unsplit_split_scheme (scheme netloc path qs : pstr) :
  url_parts scheme netloc path ->
  split_scheme (urlunsplit_3_12_4 scheme netloc path qs [])
  = (scheme, unsplit_body scheme netloc path ++ query_tail qs).
Proof.
  intros P. rewrite urlunsplit_eq. destruct scheme as [|c scheme].
  - apply split_scheme_none.
    destruct (unsplit_body_cases _ _ _ P) as [[-> _] | (-> & -> & _)].
    + now apply no_scheme_non_alpha.
    + destruct (parts_bare _ _ _ P eq_refl) as [Hn _].
      destruct (query_tail_cases qs) as [-> | [t ->]].
      * now rewrite app_nil_r.
      * now apply no_scheme_query.
  - apply split_scheme_scheme; [exact (parts_scheme _ _ _ P) | discriminate].
Qed.

Lemma unsplit_split_netloc (scheme netloc path qs : pstr) :
  url_parts scheme netloc path ->
  split_netloc (unsplit_body scheme netloc path ++ query_tail qs)
  = (netloc, path ++ query_tail qs).
Proof.
  intros P. destruct (unsplit_body_cases _ _ _ P) as [[-> Hp] | (-> & -> & Hp)].
  - rewrite <- !app_assoc. apply split_netloc_rooted; [exact (parts_netloc _ _ _ P) |].
    destruct Hp as [-> | [p ->]].
    + cbn [app]. destruct (query_tail_cases qs) as [-> | [t ->]]; [now left |].
      right. exists 63, t. now split.
    + right. exists 47. eexists. split; [reflexivity | reflexivity].
  - apply split_netloc_none; [exact Hp | apply query_tail_cases].
Qed.

Lemma cut_query_tail (path qs : pstr) :
  ~ In 63 path -> ~ In 35 path -> Forall (fun c => query_char c = true) qs ->
  cut_or 35 (path ++ query_tail qs) = (path ++ query_tail qs, [])
  /\ cut_or 63 (path ++ query_tail qs) = (path, qs).
Proof.
  intros H63 H35 Hq. split.
  - apply cut_or_absent. intros Hin. apply in_app_or in Hin as [Hin | Hin]; [auto |].
    pose proof (query_tail_chars _ Hq) as Ht. rewrite Forall_forall in Ht.
    apply list_elem_of_In, Ht in Hin. now destruct Hin.
  - destruct qs as [|q qs]; cbn [query_tail].
    + rewrite app_nil_r. now apply cut_or_absent.
    + now apply cut_or_first.
Qed.

(** Second pass: urlsplit reads back what urlunsplit wrote. *)
Lemma urlsplit_urlunsplit (L : netloc_checks) (scheme netloc path qs : pstr) :
  url_parts scheme netloc path -> netloc_passes L netloc = true ->
  Forall (fun c => query_char c = true) qs ->
  urlsplit L (urlunsplit_3_12_4 scheme netloc path qs []) = Some (scheme, netloc, path, qs, []).
Proof.
  intros P HL Hq. rewrite urlsplit_eq, (unsplit_cleaned _ _ _ _ P Hq).
  rewrite (unsplit_split_scheme _ _ _ _ P), (unsplit_split_netloc _ _ _ _ P), HL.
  destruct (parts_path _ _ _ P) as [H63 H35].
  destruct (cut_query_tail path qs H63 H35 Hq) as [-> E]. cbn [fst snd].
  now rewrite E.
Qed.

Lemma lstrip_c0_In (c : N) (s : pstr) : In c (lstrip_c0 s) -> In c s.
Proof.
  induction s as [|x s IH]; [auto |]. cbn [lstrip_c0].
  destruct (c0_or_space x); [| auto]. intros H. right. auto.
Qed.

Lemma remove_class_In (cls : N -> bool) (c : N) (s : pstr) :
  In c (remove_class cls s) -> In c s.
Proof.
  unfold remove_class. intros H. apply list_elem_of_In in H.
  apply list_elem_of_filter in H as [_ H]. now apply list_elem_of_In.
Qed.

Lemma cleaned_In (c : N) (url : pstr) : In c (cleaned url) -> In c url.
Proof. intros H. now apply remove_class_In, lstrip_c0_In in H. Qed.

Lemma lstrip_c0_head (s : pstr) :
  lstrip_c0 s = [] \/ exists c r, lstrip_c0 s = c :: r /\ c0_or_space c = false.
Proof. apply lstrip_c0_fixed, lstrip_c0_idem. Qed.

Lemma cleaned_head (url : pstr) :
  cleaned url = [] \/ exists c r, cleaned url = c :: r /\ c0_or_space c = false.
Proof.
  unfold cleaned. destruct (lstrip_c0_head url) as [-> | (c & r & -> & Hc)]; [now left |].
  right. exists c, (remove_class tab_cr_lf r). split; [| exact Hc].
  unfold remove_class. rewrite filter_cons_True; [reflexivity |].
  unfold c0_or_space in Hc. apply N.leb_gt in Hc. unfold tab_cr_lf.
  rewrite !orb_false_iff, !N.eqb_neq. lia.
Qed.

Lemma cleaned_clean (url : pstr) : Forall (fun c => tab_cr_lf c = false) (cleaned url).
Proof. apply remove_class_Forall. Qed.

Lemma split_netloc_cases (r netloc r2 : pstr) :
  split_netloc r = (netloc, r2) ->
  (r = [47; 47] ++ netloc ++ r2
   /\ Forall (fun c => netloc_delim c = false) netloc
   /\ (r2 = [] \/ exists c r', r2 = c :: r' /\ netloc_delim c = true))
  \/ (netloc = [] /\ r2 = r /\ startswith [47; 47] r = false).
Proof.
  destruct (startswith [47; 47] r) eqn:E.
  - apply startswith_spec in E as [t ->]. cbn [app split_netloc]. intros H.
    apply span_until_spec in H as (-> & Hn & Hr). left. auto.
  - pose proof (split_netloc_none r [] E (or_introl eq_refl)) as H.
    rewrite app_nil_r in H. rewrite H. intros [= <- <-]. right. auto.
Qed.

Lemma prefix_head (P : N -> Prop) (r2 path t : pstr) :
  r2 = path ++ t ->
  (r2 = [] \/ exists d r', r2 = d :: r' /\ P d) ->
  path = [] \/ exists d p, path = d :: p /\ P d.
Proof.
  destruct path as [|y p]; [now left |]. intros -> [H | (d & r' & E & Hd)]; [discriminate |].
  injection E as <- _. right. eauto.
Qed.

Lemma cut_or_query (r2 path query : pstr) :
  cut_or 63 r2 = (path, query) ->
  ~ In 63 path /\ exists t, r2 = path ++ t /\ (t = [] \/ t = 63 :: query).
Proof.
  unfold cut_or. destruct (cut 63 r2) as [[a b]|] eqn:E.
  - intros [= <- <-]. apply cut_Some in E as [-> Hn]. split; [exact Hn |]. eauto.
  - intros [= <- <-]. apply cut_None in E. split; [exact E |].
    exists []. rewrite app_nil_r. auto.
Qed.

Lemma rooted_path (r2 path t : pstr) :
  r2 = path ++ t -> ~ In 63 path -> ~ In 35 path ->
  (r2 = [] \/ exists c r', r2 = c :: r' /\ netloc_delim c = true) ->
  path = [] \/ exists p, path = 47 :: p.
Proof.
  intros E H63 H35 Hr.
  destruct (prefix_head _ _ _ _ E Hr) as [-> | (d & p & -> & Hd)]; [now left |].
  right. exists p. f_equal. unfold netloc_delim in Hd.
  rewrite !orb_true_iff, !N.eqb_eq in Hd. destruct Hd as [[-> | ->] | ->].
  - reflexivity.
  - exfalso. apply H63. now left.
  - exfalso. apply H35. now left.
Qed.

(** First pass: the parts urlsplit returns for a text without "#". *)
Lemma urlsplit_parts (L : netloc_checks) (u0 scheme netloc path query frag : pstr) :
  ~ In 35 u0 ->
  urlsplit L u0 = Some (scheme, netloc, path, query, frag) ->
  url_parts scheme netloc path /\ netloc_passes L netloc = true.
Proof.
  intros H35. rewrite urlsplit_eq.
  pose proof (cleaned_clean u0) as Hclean.
  assert (Hhash : ~ In 35 (cleaned u0)) by (intros H; now apply H35, cleaned_In).
  pose proof (cleaned_head u0) as Hhead.
  set (c := cleaned u0) in *. clearbody c. clear H35 u0.
  destruct (split_scheme c) as [sch r] eqn:Es.
  destruct (split_netloc r) as [nl r2] eqn:En.
  destruct (netloc_passes L nl) eqn:EL; [| discriminate].
  intros [= <- <- <- <- <-]. split; [| exact EL].
  (* the rest [r] after the scheme is the end of the text *)
  assert (Hr : exists pre, c = pre ++ r).
  { destruct (split_scheme_cases c) as [[E _] | (x & pre & rest & Ec & _ & _ & E)];
      rewrite E in Es; injection Es as <- <-.
    - now exists [].
    - exists ((x :: pre) ++ [58]). now rewrite <- app_assoc. }
  destruct Hr as [pre Hr].
  assert (Hr2 : exists pre2, c = pre2 ++ nl ++ r2
                /\ (nl <> [] ->
                    Forall (fun c => netloc_delim c = false) nl
                    /\ (r2 = [] \/ exists d r', r2 = d :: r' /\ netloc_delim d = true))).
  { destruct (split_netloc_cases _ _ _ En) as [(E & Hn & Hd) | (-> & -> & _)].
    - exists (pre ++ [47; 47]). rewrite <- app_assoc. rewrite Hr, E. auto.
    - exists pre. split; [exact Hr | congruence]. }
  destruct Hr2 as (pre2 & Hc & Hnl).
  destruct (cut_or 35 r2) as [r3 fr] eqn:E35. cbn [fst snd].
  assert (Hr3 : r3 = r2).
  { rewrite cut_or_absent in E35; [congruence |].
    intros H. apply Hhash. rewrite Hc. apply in_or_app. right. apply in_or_app. now right. }
  subst r3. destruct (cut_or 63 r2) as [p q] eqn:E63. cbn [fst snd].
  apply cut_or_query in E63 as (H63 & t & Et & Ht).
  assert (Hp35 : ~ In 35 p).
  { intros H. apply Hhash. rewrite Hc, Et. apply in_or_app. right.
    apply in_or_app. right. apply in_or_app. now left. }
  split.
  - destruct (split_scheme_cases c) as [[E _] | (x & pr & rest & _ & Ha & Hs & E)];
      rewrite E in Es; injection Es as <- <-.
    + now left.
    + now apply scheme_ok_lower.
  - destruct nl as [|n nl]; [constructor |]. now apply Hnl.
  - auto.
  - rewrite Hc, Et in Hclean. apply Forall_app in Hclean as [_ Hclean].
    apply Forall_app in Hclean as [Hn Hclean]. apply Forall_app in Hclean as [Hp _].
    apply Forall_app. auto.
  - intros Hne. destruct (Hnl Hne) as [_ Hd]. exact (rooted_path _ _ _ Et H63 Hp35 Hd).
  - intros ->.
    destruct (split_scheme_cases c) as [[E Hno] | (x & pr & rest & _ & _ & _ & E)];
      rewrite E in Es; [| discriminate].
    injection Es as <-.
    destruct (split_netloc_cases _ _ _ En) as [(E' & Hn & Hd) | (-> & -> & _)].
    + destruct (rooted_path _ _ _ Et H63 Hp35 Hd) as [-> | [p' ->]].
      * now split.
      * split; [now apply no_scheme_non_alpha | reflexivity].
    + split.
      * destruct Ht as [-> | ->].
        -- rewrite app_nil_r in Et. now subst.
        -- subst c. now apply no_scheme_prefix in Hno.
      * apply lstrip_c0_fixed.
        destruct (prefix_head _ _ _ _ Et Hhead) as [-> | (d & p' & -> & Hd)]; [now left |].
        right. eauto.
Qed.

Lemma cut_or_hash (url : pstr) : ~ In 35 (fst (cut_or 35 url)).
Proof.
  unfold cut_or. destruct (cut 35 url) as [[a b]|] eqn:E; cbn [fst].
  - now apply cut_Some in E.
  - now apply cut_None.
Qed.

Lemma url_char_no_hash (v : pstr) : Forall url_char v -> ~ In 35 v.
Proof.
  intros H Hin. rewrite Forall_forall in H. apply list_elem_of_In, H in Hin.
  now destruct Hin.
Qed.

Lemma canonical_url_eq (L : netloc_checks) (url : pstr) :
  canonical_url L url =
  match urlsplit L (fst (cut_or 35 url)) with
  | Some (scheme, netloc, path, query, _) =>
    match urlencode (filter (fun kv => fst kv ≠ s_area_id) (parse_qsl query)) with
    | Some qs => Some (urlunsplit L scheme netloc path qs [])
    | None => None
    end
  | None => None
  end.
Proof.
  unfold canonical_url.
  destruct (urlsplit L _) as [[[[[scheme netloc] path] query] frag]|]; reflexivity.
Qed.

(** ** The urlunsplit of the releases up to 3.12.3 *)
(** With the library of such a release canonical_url is
    [canonical_url_3_11]. *)
Lemma canonical_url_earlier (L : netloc_checks) (url : pstr) :
  unsplit_keeps_slashes L = false -> canonical_url L url = canonical_url_3_11 L url.
Proof.
  intros H. unfold canonical_url, canonical_url_3_11, urlunsplit. now rewrite H.
Qed.

Lemma urlunsplit_3_11_eq (scheme netloc path qs : pstr) :
  urlunsplit_3_11 scheme netloc path qs [] =
  match scheme with
  | [] => unsplit_body_3_11 scheme netloc path ++ query_tail qs
  | _ => scheme ++ 58 :: unsplit_body_3_11 scheme netloc path ++ query_tail qs
  end.
Proof.
  unfold urlunsplit_3_11. fold (unsplit_body_3_11 scheme netloc path).
  destruct scheme as [|c scheme], qs as [|q qs]; cbn [query_tail];
    rewrite ?app_nil_r, <- ?app_assoc; reflexivity.
Qed.

(** With an authority both versions write the same. *)
Lemma urlunsplit_3_11_authority (scheme netloc path qs frag : pstr) :
  netloc <> [] ->
  urlunsplit_3_11 scheme netloc path qs frag
  = urlunsplit_3_12_4 scheme netloc path qs frag.
Proof.
  intros Hn. unfold urlunsplit_3_11, urlunsplit_3_12_4.
  rewrite (pstr_eqb_nil_false _ Hn). cbn [negb orb].
  destruct netloc as [|n nl]; [now destruct Hn |].
  assert (E : (if negb (pstr_eqb path []) && negb (startswith [47] path)
               then 47 :: path else path)
              = match path with
                | [] => []
                | c :: _ => if c =? 47 then path else 47 :: path
                end).
  { destruct path as [|c p]; [reflexivity |].
    rewrite (pstr_eqb_nil_false (c :: p)) by discriminate.
    cbn [negb andb startswith]. rewrite andb_true_r, (N.eqb_sym 47 c).
    now destruct (c =? 47). }
  rewrite E. reflexivity.
Qed.

Lemma unsplit_body_3_11_cases (scheme netloc path : pstr) :
  (exists p, unsplit_body_3_11 scheme netloc path = [47; 47] ++ netloc ++ p
             /\ (p = path \/ p = 47 :: path))
  \/ (unsplit_body_3_11 scheme netloc path = path /\ netloc = []).
Proof.
  unfold unsplit_body_3_11. destruct netloc as [|n nl].
  - change (pstr_eqb [] []) with true. cbn [negb orb].
    destruct (_ && _ && _); [| now right].
    left. destruct (_ && _); eauto.
  - rewrite (pstr_eqb_nil_false (n :: nl)) by discriminate. cbn [negb orb].
    left. destruct (_ && _); eauto.
Qed.

Lemma unsplit_body_3_11_chars (scheme netloc path : pstr) :
  url_parts scheme netloc path -> Forall url_char (unsplit_body_3_11 scheme netloc path).
Proof.
  intros P. pose proof (parts_chars _ _ _ P) as H.
  destruct (unsplit_body_3_11_cases scheme netloc path)
    as [(p & -> & [-> | ->]) | (-> & ->)]; [| | exact H].
  - cbn [app]. repeat constructor; try discriminate. exact H.
  - apply Forall_app in H as [Hn Hp]. cbn [app].
    repeat constructor; try discriminate. apply Forall_app. split; [exact Hn |].
    constructor; [split; [reflexivity | discriminate] | exact Hp].
Qed.

Lemma urlunsplit_3_11_chars (scheme netloc path qs : pstr) :
  url_parts scheme netloc path -> Forall (fun c => query_char c = true) qs ->
  Forall url_char (urlunsplit_3_11 scheme netloc path qs []).
Proof.
  intros P Hq. rewrite urlunsplit_3_11_eq.
  pose proof (unsplit_body_3_11_chars _ _ _ P) as Hb.
  pose proof (query_tail_chars _ Hq) as Ht.
  pose proof (scheme_ok_chars _ (parts_scheme _ _ _ P)) as Hs.
  destruct scheme as [|c scheme].
  - apply Forall_app. now split.
  - apply Forall_app. split; [exact Hs |].
    constructor; [split; [reflexivity | discriminate] |].
    apply Forall_app. now split.
Qed.

Lemma unsplit_3_11_lstrip (scheme netloc path qs : pstr) :
  url_parts scheme netloc path ->
  lstrip_c0 (urlunsplit_3_11 scheme netloc path qs [])
  = urlunsplit_3_11 scheme netloc path qs [].
Proof.
  intros P. rewrite urlunsplit_3_11_eq. apply lstrip_c0_fixed.
  destruct (parts_scheme _ _ _ P) as [-> | (c & pre & -> & Ha & Hs & _)].
  - destruct (unsplit_body_3_11_cases [] netloc path)
      as [(p & -> & _) | (-> & ->)].
    + right. exists 47. eexists. split; [reflexivity | reflexivity].
    + destruct (parts_bare _ _ _ P eq_refl) as [_ Hl].
      apply lstrip_c0_fixed in Hl as [-> | (c & r & -> & Hc)].
      * cbn [app]. destruct (query_tail_cases qs) as [-> | [t ->]]; [now left |].
        right. exists 63, t. split; reflexivity.
      * right. exists c. eexists. split; [reflexivity | exact Hc].
  - right. exists c. eexists. split; [reflexivity |].
    apply ascii_alpha_scheme_char, scheme_char_facts in Ha.
    unfold c0_or_space. apply N.leb_gt. tauto.
Qed.

(** ** What canonical_url returns *)
Lemma canonical_url_inv (L : netloc_checks) (url v : pstr) :
  canonical_url L url = Some v ->
  exists scheme netloc path query frag qs,
    urlsplit L (fst (cut_or 35 url)) = Some (scheme, netloc, path, query, frag)
    /\ urlencode (filter (fun kv => fst kv ≠ s_area_id) (parse_qsl query)) = Some qs
    /\ v = urlunsplit L scheme netloc path qs [].
Proof.
  rewrite canonical_url_eq.
  destruct (urlsplit L (fst (cut_or 35 url)))
    as [[[[[scheme netloc] path] query] frag]|] eqn:E1; [| discriminate].
  destruct (urlencode _) as [qs|] eqn:E2; [| discriminate].
  intros [= <-]. exists scheme, netloc, path, query, frag, qs. auto.
Qed.

(** Where the two versions of urlunsplit agree, or the later one is at
    hand, canonical_url writes what the later one writes. *)
Lemma urlunsplit_later (L : netloc_checks) (scheme netloc path qs : pstr) :
  unsplit_keeps_slashes L = true \/ netloc <> [] ->
  urlunsplit L scheme netloc path qs [] = urlunsplit_3_12_4 scheme netloc path qs [].
Proof.
  unfold urlunsplit. intros [-> | Hn]; [reflexivity |].
  destruct (unsplit_keeps_slashes L); [reflexivity |].
  now apply urlunsplit_3_11_authority.
Qed.

Lemma has_authority_netloc (L : netloc_checks) (url : pstr)
    (scheme netloc path query frag : pstr) :
  urlsplit L (fst (cut_or 35 url)) = Some (scheme, netloc, path, query, frag) ->
  has_authority L url = true -> netloc <> [].
Proof.
  unfold has_authority. intros ->. destruct netloc; [discriminate | discriminate].
Qed.

(** The canonical form of a URL is its own canonical form, on the later
    urlunsplit and, on the earlier one, for a URL with an authority. *)
Lemma canonical_url_fixed (L : netloc_checks) (url v : pstr) :
  canonical_url L url = Some v ->
  unsplit_keeps_slashes L = true \/ has_authority L url = true ->
  canonical_url L v = Some v.
Proof.
  intros H Hlib. apply canonical_url_inv in H
    as (scheme & netloc & path & query & frag & qs & E1 & E2 & ->).
  assert (Hn : unsplit_keeps_slashes L = true \/ netloc <> []).
  { destruct Hlib as [H | H]; [now left | right].
    exact (has_authority_netloc _ _ _ _ _ _ _ E1 H). }
  rewrite (urlunsplit_later L _ _ _ _ Hn).
  apply urlsplit_parts in E1 as [P HL]; [| apply cut_or_hash].
  apply parse_qsl_urlencode in E2 as E3. destruct E3 as [Hq Hch].
  pose proof (urlunsplit_chars _ _ _ _ P Hch) as Hv.
  rewrite canonical_url_eq.
  rewrite (cut_or_absent 35 _ (url_char_no_hash _ Hv)). cbn [fst].
  rewrite (urlsplit_urlunsplit L _ _ _ _ P HL Hch).
  rewrite Hq, filter_area_id_twice, E2.
  now rewrite (urlunsplit_later L _ _ _ _ Hn).
Qed.

(** C10, amended: the canonical form of a URL is its own canonical form
    (a second application returns it unchanged and does not raise), and
    an event without a source_url of its own gets the same id whether
    the merge is given the URL or its canonical form, on the urlunsplit
    of CPython 3.12.4 and later for every URL and on the earlier one for
    every URL with an authority. *)
Theorem canonical_url_idempotent (L : netloc_checks) (url v : pstr) :
  canonical_url L url = Some v ->
  unsplit_keeps_slashes L = true \/ has_authority L url = true ->
  canonical_url L v = Some v
  /\ forall pref ev, get "source_url" ev = PNone ->
       event_key L pref v ev = event_key L pref url ev
       /\ event_key L pref url ev = make_event_id pref (norm_of ev) v.
Proof.
  intros H Hlib. pose proof (canonical_url_fixed L url v H Hlib) as Hv.
  split; [exact Hv |]. intros pref ev He. unfold event_key. rewrite He.
  cbn [str_or]. rewrite H, Hv. split; reflexivity.
Qed.

Lemma canonical_url_idempotent_witness :
  canonical_url plain_netlocs_3_11
    (u "https://www.pref.yamanashi.jp/rindoujyouhou/kisei.php?id=12&area_id=3#top")
  = Some (u "https://www.pref.yamanashi.jp/rindoujyouhou/kisei.php?id=12")
  /\ canonical_url plain_netlocs_3_11
       (u "https://www.pref.yamanashi.jp/rindoujyouhou/kisei.php?id=12")
     = Some (u "https://www.pref.yamanashi.jp/rindoujyouhou/kisei.php?id=12").
Proof.
  assert (H : canonical_url plain_netlocs_3_11
    (u "https://www.pref.yamanashi.jp/rindoujyouhou/kisei.php?id=12&area_id=3#top")
  = Some (u "https://www.pref.yamanashi.jp/rindoujyouhou/kisei.php?id=12"))
    by by_vm.
  split; [exact H |].
  apply (canonical_url_idempotent plain_netlocs_3_11 _ _ H).
  right. by_vm.
Defined.

(** C10 fails as stated on the urlunsplit of the releases up to 3.12.3:
    a URL typed with slashes too many has no authority, its canonical
    form loses two of the slashes, and the canonical form of that is yet
    another URL, under which the same road gets another id. *)
Lemma canonical_url_second_pass_other_id :
  canonical_url plain_netlocs_3_11 (u "https://////www.pref.yamanashi.jp/rindo")
  = Some (u "https:////www.pref.yamanashi.jp/rindo")
  /\ canonical_url plain_netlocs_3_11 (u "https:////www.pref.yamanashi.jp/rindo")
     = Some (u "https://www.pref.yamanashi.jp/rindo")
  /\ make_event_id sample_pref (u "大平") (u "https:////www.pref.yamanashi.jp/rindo")
     = Some (u "57c277cd19555a03")
  /\ make_event_id sample_pref (u "大平") (u "https://www.pref.yamanashi.jp/rindo")
     = Some (u "7db99e408459e599").
Proof. repeat split; by_vm. Qed.

(** On the older urlunsplit a path that starts with "//" comes back as
    an authority, and a second pass changes the URL once more; on the
    current one the URL is kept. *)
Lemma canonical_url_3_11_second_pass :
  canonical_url_3_11 plain_netlocs (u "http://////x") = Some (u "http:////x")
  /\ canonical_url_3_11 plain_netlocs (u "http:////x") = Some (u "http://x")
  /\ canonical_url plain_netlocs (u "http://////x") = Some (u "http://////x").
Proof. vm_compute. auto. Qed.

(** At the URL of canonical_url_ex1 the older urlunsplit gives the same
    result. *)
Lemma canonical_url_3_11_ex1 :
  canonical_url_3_11 plain_netlocs
    (u "https://www.pref.yamanashi.jp/rindoujyouhou/kisei.php?id=12&area_id=3#top")
  = Some (u "https://www.pref.yamanashi.jp/rindoujyouhou/kisei.php?id=12").
Proof. vm_compute. reflexivity. Qed.

Lemma forallb_Forall_true {A} (P : A -> bool) (l : list A) :
  forallb P l = true -> Forall (fun c => P c = true) l.
Proof.
  induction l as [|x l IH]; [constructor |]. cbn [forallb].
  intros H. apply andb_true_iff in H as [Hx Hl]. constructor; auto.
Qed.

Lemma hexdigit_hex_lower (d : N) : d < 16 -> hex_lower (hexdigit d) = true.
Proof.
  intros H. unfold hexdigit, hex_lower, in_range.
  destruct (N.ltb_spec d 10);
    rewrite orb_true_iff, !andb_true_iff, !N.leb_le; lia.
Qed.

Lemma hex8_hex_lower (w : N) : Forall (fun c => hex_lower c = true) (hex8 w).
Proof.
  unfold hex8. apply Forall_forall. intros c Hc.
  apply list_elem_of_fmap in Hc as (i & -> & _).
  apply hexdigit_hex_lower. apply N.mod_lt. discriminate.
Qed.

Lemma sha1_hexdigest_hex_lower (m : octets) :
  Forall (fun c => hex_lower c = true) (sha1_hexdigest m).
Proof.
  unfold sha1_hexdigest. destruct (sha1 m) as [[[[h0 h1] h2] h3] h4].
  rewrite !Forall_app. repeat split; apply hex8_hex_lower.
Qed.

Lemma utf8_encode1_encodable (c : N) : encodable c = true -> is_Some (utf8_encode1 c).
Proof.
  unfold encodable, utf8_encode1. intros H.
  destruct (N.ltb_spec c 128); [eauto |].
  destruct (N.ltb_spec c 2048); [eauto |].
  destruct (N.ltb_spec c 65536).
  - destruct ((55296 <=? c) && (c <=? 57343)) eqn:E; [| eauto].
    apply andb_true_iff in E as [E1 E2]. apply N.leb_le in E1, E2.
    rewrite orb_true_iff, andb_true_iff, !N.ltb_lt in H. lia.
  - destruct (N.ltb_spec c 1114112); [eauto |].
    rewrite orb_true_iff, andb_true_iff, !N.ltb_lt in H. lia.
Qed.

Lemma utf8_encode_encodable (s : pstr) :
  Forall (fun c => encodable c = true) s -> is_Some (utf8_encode s).
Proof.
  induction 1 as [|c s Hc _ IH]; [cbn; eauto |]. cbn [utf8_encode].
  destruct (utf8_encode1_encodable c Hc) as [b ->]. destruct IH as [bs ->]. eauto.
Qed.

(** make_event_id (562-563): on text that can be encoded the id is there,
    and it is sixteen lower-case hexadecimal digits. *)
Theorem make_event_id_hex16 (pref norm src : pstr) :
  Forall (fun c => encodable c = true) (pref ++ norm ++ src) ->
  exists eid,
    make_event_id pref norm src = Some eid
    /\ length eid = 16%nat
    /\ Forall (fun c => hex_lower c = true) eid.
Proof.
  intros H. unfold make_event_id.
  destruct (utf8_encode_encodable (pref ++ [124] ++ norm ++ [124] ++ src)) as [bs Hbs].
  { rewrite !Forall_app in H. destruct H as (Hp & Hn & Hs).
    rewrite !Forall_app. repeat split; try assumption; repeat constructor. }
  rewrite Hbs. cbn [mbind option_bind]. eexists. split; [reflexivity |]. split.
  - rewrite length_take, sha1_hexdigest_length. reflexivity.
  - apply Forall_take, sha1_hexdigest_hex_lower.
Qed.

Lemma make_event_id_hex16_witness :
  exists eid,
    make_event_id (u "山梨県") (u "大平") (u "https://example.jp/rindo.html") = Some eid
    /\ length eid = 16%nat
    /\ Forall (fun c => hex_lower c = true) eid.
Proof.
  apply (make_event_id_hex16 (u "山梨県") (u "大平") (u "https://example.jp/rindo.html")).
  apply forallb_Forall_true. by_vm.
Defined.

(** The index of the merge (567) holds, under an id, the position of
    the last record with that id, and nothing under an id no record has
    or under the empty id. *)
Theorem index_of_last_record (evs : list edict) (k : pstr) (i : nat) :
  index_of evs !! k = Some i <->
  k <> []
  /\ (exists e, evs !! i = Some e /\ get "id" e = PStr k)
  /\ (forall j e, (i < j)%nat -> evs !! j = Some e -> get "id" e <> PStr k).
Proof.
  split.
  - apply index_of_lookup_Some.
  - intros (Hk & (e & He & Hid) & Hlast). exact (index_of_last evs k i e Hk He Hid Hlast).
Qed.

Lemma index_of_absent (evs : list edict) (k : pstr) :
  Forall (fun e => get "id" e <> PStr k) evs -> index_of evs !! k = None.
Proof.
  intros H. destruct (index_of evs !! k) as [i|] eqn:E; [| reflexivity].
  apply index_of_lookup_Some in E as (_ & (e & He & Hid) & _).
  rewrite Forall_lookup in H. now destruct (H i e He).
Qed.

Lemma merge_events_single (L : netloc_checks) (now : pstr) (base : store)
    (ev : edict) (pref url : pstr) :
  merge_events L now base [ev] pref url =
  evs ← merge_one L now pref url (index_of (events base)) (events base) ev;
  Some {| events := evs; updated := PStr now |}.
Proof.
  unfold merge_events. cbn [merge_loop].
  destruct (merge_one _ _ _ _ _ _ _); reflexivity.
Qed.

Lemma merge_one_named (L : netloc_checks) (now pref url : pstr)
    (idx : gmap pstr nat) (evs : list edict) (ev : edict) (eid : pstr) (payload : edict) :
  raw_name_of ev <> [] \/ norm_of ev <> [] ->
  payload_of L now pref url (raw_name_of ev) (norm_of ev) ev = Some (eid, payload) ->
  merge_one L now pref url idx evs ev =
  Some match idx !! eid with
       | Some i => alter (fun old => not_none payload ∪ old) i evs
       | None => evs ++ [payload]
       end.
Proof.
  intros Hname Hp. rewrite merge_one_cases.
  replace (pstr_eqb (raw_name_of ev) [] && pstr_eqb (norm_of ev) []) with false.
  - rewrite Hp. cbn. destruct (idx !! eid); reflexivity.
  - symmetry. apply andb_false_iff.
    destruct Hname as [H | H]; [left | right]; now apply pstr_eqb_nil_false.
Qed.

Lemma index_of_snoc_id (evs : list edict) (e : edict) (k : pstr) :
  k <> [] -> get "id" e = PStr k -> index_of (evs ++ [e]) !! k = Some (length evs).
Proof.
  intros Hk Hid. rewrite index_of_snoc. unfold index_step. cbn [fst snd].
  rewrite Hid. destruct k as [|c s]; [congruence |]. apply lookup_insert_eq.
Qed.

(** A raw event with a name whose id no record of the store has is
    appended as its payload, None fields included, and a later merge
    finds it under its id. *)
Theorem merge_events_inserts (L : netloc_checks) (now : pstr) (base : store)
    (ev : edict) (pref url : pstr) (eid : pstr) (payload : edict) :
  raw_name_of ev <> [] \/ norm_of ev <> [] ->
  payload_of L now pref url (raw_name_of ev) (norm_of ev) ev = Some (eid, payload) ->
  Forall (fun e => get "id" e <> PStr eid) (events base) ->
  merge_events L now base [ev] pref url
  = Some {| events := events base ++ [payload]; updated := PStr now |}
  /\ stored (events base ++ [payload]) eid = Some payload.
Proof.
  intros Hname Hp Hnew. split.
  - rewrite merge_events_single, (merge_one_named _ _ _ _ _ _ _ _ _ Hname Hp).
    now rewrite (index_of_absent _ _ Hnew).
  - apply payload_of_inv in Hp as (Hne & Hid & _).
    unfold stored. rewrite (index_of_snoc_id _ payload eid Hne (get_lookup _ _ _ Hid)).
    cbn. apply list_lookup_middle. reflexivity.
Qed.

(** The index is built once, before the loop (567): two raw events of
    one call that have the same id, an id no record of the store has, are
    both appended, and the store then holds two records under that id. *)
Theorem merge_events_same_new_id_twice (L : netloc_checks) (now : pstr) (base : store)
    (ev1 ev2 : edict) (pref url : pstr) (eid : pstr) :
  raw_name_of ev1 <> [] \/ norm_of ev1 <> [] ->
  raw_name_of ev2 <> [] \/ norm_of ev2 <> [] ->
  event_key L pref url ev1 = Some eid ->
  event_key L pref url ev2 = Some eid ->
  Forall (fun e => get "id" e <> PStr eid) (events base) ->
  exists p1 p2,
    merge_events L now base [ev1; ev2] pref url
    = Some {| events := events base ++ [p1; p2]; updated := PStr now |}
    /\ get "id" p1 = PStr eid /\ get "id" p2 = PStr eid.
Proof.
  intros Hn1 Hn2 Hk1 Hk2 Hnew.
  destruct (key_payload_of L now pref url ev1 eid Hk1) as [p1 Hp1].
  destruct (key_payload_of L now pref url ev2 eid Hk2) as [p2 Hp2].
  exists p1, p2. unfold merge_events. cbn [merge_loop].
  rewrite (merge_one_named _ _ _ _ _ _ _ _ _ Hn1 Hp1), (index_of_absent _ _ Hnew).
  cbn [mbind option_bind].
  rewrite (merge_one_named _ _ _ _ _ _ _ _ _ Hn2 Hp2), (index_of_absent _ _ Hnew).
  cbn [mbind option_bind]. rewrite <- app_assoc. split; [reflexivity |].
  apply payload_of_inv in Hp1 as (_ & Hid1 & _).
  apply payload_of_inv in Hp2 as (_ & Hid2 & _).
  split; now apply get_lookup.
Qed.

Lemma merge_events_inserts_witness :
  merge_events plain_netlocs (u "2024-10-02T09:00:00+09:00") store_taihei
    [ev_komori] sample_pref sample_url
  = Some {| events := events store_taihei ++ [snd payload_komori];
            updated := PStr (u "2024-10-02T09:00:00+09:00") |}
  /\ stored (events store_taihei ++ [snd payload_komori]) (fst payload_komori)
     = Some (snd payload_komori).
Proof.
  apply (merge_events_inserts plain_netlocs (u "2024-10-02T09:00:00+09:00") store_taihei
           ev_komori sample_pref sample_url (fst payload_komori) (snd payload_komori)).
  - left. vm_compute. discriminate.
  - by_vm.
  - repeat constructor. vm_compute. discriminate.
Defined.

Lemma merge_events_same_new_id_twice_witness :
  exists p1 p2,
    merge_events plain_netlocs (u "2024-10-02T09:00:00+09:00") store_taihei
      [ev_komori; ev_of "林道小森線" "小森" "通行止"] sample_pref sample_url
    = Some {| events := events store_taihei ++ [p1; p2];
              updated := PStr (u "2024-10-02T09:00:00+09:00") |}
    /\ get "id" p1 = PStr (fst payload_komori)
    /\ get "id" p2 = PStr (fst payload_komori).
Proof.
  apply (merge_events_same_new_id_twice plain_netlocs (u "2024-10-02T09:00:00+09:00")
           store_taihei ev_komori (ev_of "林道小森線" "小森" "通行止")
           sample_pref sample_url (fst payload_komori)).
  - left. vm_compute. discriminate.
  - left. vm_compute. discriminate.
  - by_vm.
  - by_vm.
  - repeat constructor. vm_compute. discriminate.
Defined.

(** ** The frame of the merge and merging twice *)
Lemma merge_one_length (L : netloc_checks) (now pref url : pstr)
    (idx : gmap pstr nat) (evs evs' : list edict) (ev : edict) :
  merge_one L now pref url idx evs ev = Some evs' ->
  (length evs <= length evs')%nat.
Proof.
  rewrite merge_one_cases. destruct (_ && _); [now intros [= <-] |].
  destruct (payload_of _ _ _ _ _ _ _) as [[eid payload]|]; [| discriminate].
  cbn. destruct (idx !! eid) as [i|]; intros [= <-].
  - now rewrite length_alter.
  - rewrite length_app. cbn. lia.
Qed.

Lemma merge_loop_length (L : netloc_checks) (now pref url : pstr)
    (idx : gmap pstr nat) (news evs evs' : list edict) :
  merge_loop L now pref url idx evs news = Some evs' ->
  (length evs <= length evs')%nat.
Proof.
  revert evs. induction news as [|x news IH]; intros evs; cbn [merge_loop].
  - now intros [= <-].
  - destruct (merge_one L now pref url idx evs x) as [evs1|] eqn:H1; [| discriminate].
    cbn. intros H. apply IH in H. apply merge_one_length in H1. lia.
Qed.

(** One turn leaves alone a record of the base list whose id is not the
    id of the raw event. *)
Lemma merge_one_frame (L : netloc_checks) (now pref url : pstr)
    (base evs evs' : list edict) (ev : edict) (j : nat) (e0 e : edict) :
  loop_inv base evs ->
  merge_one L now pref url (index_of base) evs ev = Some evs' ->
  base !! j = Some e0 ->
  PStr <$> event_key L pref url ev <> Some (get "id" e0) ->
  evs !! j = Some e -> evs' !! j = Some e.
Proof.
  intros [Hb _] Hm Hj Hkey He. rewrite merge_one_cases in Hm.
  destruct (_ && _); [now injection Hm as <- |].
  destruct (payload_of _ _ _ _ _ _ _) as [[eid payload]|] eqn:Hp; [| discriminate].
  cbn in Hm. apply payload_of_key in Hp. rewrite Hp in Hkey. cbn in Hkey.
  destruct (index_of base !! eid) as [i|] eqn:Hi; injection Hm as <-.
  - destruct (decide (i = j)) as [-> | Hij].
    + apply index_of_lookup_Some in Hi as (_ & (e1 & He1 & Hid) & _).
      rewrite Hj in He1. injection He1 as <-. congruence.
    + now rewrite list_lookup_alter_ne.
  - rewrite lookup_app_l; [exact He | now apply lookup_lt_Some in He].
Qed.

Lemma merge_loop_frame (L : netloc_checks) (now pref url : pstr)
    (base : list edict) (news evs evs' : list edict) (j : nat) (e0 e : edict) :
  loop_inv base evs ->
  merge_loop L now pref url (index_of base) evs news = Some evs' ->
  base !! j = Some e0 ->
  Forall (fun ev => PStr <$> event_key L pref url ev <> Some (get "id" e0)) news ->
  evs !! j = Some e -> evs' !! j = Some e.
Proof.
  revert evs. induction news as [|x news IH]; intros evs Hinv; cbn [merge_loop].
  - now intros [= <-].
  - destruct (merge_one L now pref url (index_of base) evs x) as [evs1|] eqn:H1;
      [| discriminate].
    cbn. intros Hl Hj Hall He. inversion Hall as [|? ? Hx Hrest]; subst.
    apply (IH evs1); try assumption.
    + exact (merge_one_inv _ _ _ _ _ _ _ _ Hinv H1).
    + exact (merge_one_frame _ _ _ _ _ _ _ _ _ _ _ Hinv H1 Hj Hx He).
Qed.

(** merge_events (565-603) deletes nothing and moves nothing: the store
    is stamped with the time of the merge, every record stays at its
    position under its id, and a record whose id is the id of no raw
    event of the call is not changed at all. *)
Theorem merge_events_frame (L : netloc_checks) (now : pstr) (base base' : store)
    (news : list edict) (pref url : pstr) :
  merge_events L now base news pref url = Some base' ->
  updated base' = PStr now
  /\ (length (events base) <= length (events base'))%nat
  /\ (forall j e0,
        events base !! j = Some e0 ->
        exists e,
          events base' !! j = Some e
          /\ get "id" e = get "id" e0
          /\ (Forall (fun ev => PStr <$> event_key L pref url ev <> Some (get "id" e0)) news ->
              e = e0)).
Proof.
  unfold merge_events.
  destruct (merge_loop _ _ _ _ _ _ _) as [evs|] eqn:Hl; [| discriminate].
  intros [= <-]. cbn [events updated]. split; [reflexivity |]. split.
  - exact (merge_loop_length _ _ _ _ _ _ _ _ Hl).
  - intros j e0 Hj.
    destruct (merge_loop_inv _ _ _ _ _ _ _ _ (loop_inv_start (events base)) Hl) as [Hb _].
    destruct (Hb j e0 Hj) as (e & He & Hid). exists e. split; [exact He |]. split; [exact Hid |].
    intros Hall.
    pose proof (merge_loop_frame _ _ _ _ _ _ _ _ j e0 e0 (loop_inv_start (events base))
                  Hl Hj Hall Hj) as H.
    congruence.
Qed.

Lemma merge_events_frame_witness :
  updated store_taihei_open = PStr (u "2024-10-02T09:00:00+09:00")
  /\ (length (events store_taihei) <= length (events store_taihei_open))%nat
  /\ (forall j e0,
        events store_taihei !! j = Some e0 ->
        exists e,
          events store_taihei_open !! j = Some e
          /\ get "id" e = get "id" e0
          /\ (Forall (fun ev => PStr <$> event_key plain_netlocs sample_pref sample_url ev
                                <> Some (get "id" e0))
                [ev_of "大平林道" "大平" "open"] ->
              e = e0)).
Proof.
  apply (merge_events_frame plain_netlocs (u "2024-10-02T09:00:00+09:00") store_taihei
           store_taihei_open [ev_of "大平林道" "大平" "open"] sample_pref sample_url).
  by_vm.
Defined.

Lemma index_step_id (m : gmap pstr nat) (i : nat) (a b : edict) :
  get "id" a = get "id" b -> index_step m (i, a) = index_step m (i, b).
Proof. unfold index_step. cbn [fst snd]. now intros ->. Qed.

(** The index reads the ids alone: a change of a record that keeps its
    id leaves the index as it is. *)
Lemma index_of_alter (f : edict -> edict) (i : nat) (evs : list edict) :
  (forall e, evs !! i = Some e -> get "id" (f e) = get "id" e) ->
  index_of (alter f i evs) = index_of evs.
Proof.
  revert i. induction evs as [|x l IH] using rev_ind; intros i Hf; [reflexivity |].
  destruct (decide (i < length l)%nat) as [Hi | Hi].
  - rewrite alter_app_l by exact Hi. rewrite !index_of_snoc, length_alter, IH; [reflexivity |].
    intros e He. apply Hf. rewrite lookup_app_l; [exact He | exact Hi].
  - replace i with (length l + (i - length l))%nat by lia.
    rewrite alter_app_r. destruct (i - length l)%nat as [|k] eqn:Ek.
    + cbn [alter list_alter]. rewrite !index_of_snoc. apply index_step_id.
      apply Hf. replace i with (length l) by lia. apply list_lookup_middle. reflexivity.
    + reflexivity.
Qed.

Lemma not_none_union_twice (payload old : edict) :
  not_none payload ∪ (not_none payload ∪ old) = not_none payload ∪ old.
Proof.
  apply map_eq. intros k. rewrite !not_none_union_lookup.
  destruct (payload !! k) as [[|v]|]; reflexivity.
Qed.

Lemma not_none_union_self (payload : edict) : not_none payload ∪ payload = payload.
Proof.
  apply map_eq. intros k. rewrite not_none_union_lookup.
  destruct (payload !! k) as [[|v]|]; reflexivity.
Qed.

Lemma alter_snoc_last {A} (f : A -> A) (l : list A) (x : A) :
  alter f (length l) (l ++ [x]) = l ++ [f x].
Proof.
  replace (length l) with (length l + 0)%nat at 1 by lia.
  now rewrite alter_app_r.
Qed.

Lemma alter_alter_same {A} (f : A -> A) (i : nat) (l : list A) :
  (forall x, l !! i = Some x -> f (f x) = f x) ->
  alter f i (alter f i l) = alter f i l.
Proof.
  intros H. apply list_eq. intros j. destruct (decide (i = j)) as [<- | Hij].
  - rewrite !list_lookup_alter_eq. destruct (l !! i) as [x|] eqn:E; [| reflexivity].
    cbn. f_equal. now apply H.
  - now rewrite !list_lookup_alter_ne.
Qed.

(** Merging a raw event a second time, at the same time stamp, changes
    nothing: the second merge finds the record the first one wrote or
    updated and writes the same fields again. *)
Theorem merge_events_again (L : netloc_checks) (now : pstr) (base b1 : store)
    (ev : edict) (pref url : pstr) :
  merge_events L now base [ev] pref url = Some b1 ->
  merge_events L now b1 [ev] pref url = Some b1.
Proof.
  rewrite !merge_events_single, !merge_one_cases.
  destruct (pstr_eqb (raw_name_of ev) [] && pstr_eqb (norm_of ev) []).
  { cbn. now intros [= <-]. }
  destruct (payload_of L now pref url (raw_name_of ev) (norm_of ev) ev)
    as [[eid payload]|] eqn:Hp; [| discriminate].
  cbn [mbind option_bind]. apply payload_of_inv in Hp as (Hne & Hid & _).
  apply get_lookup in Hid.
  destruct (index_of (events base) !! eid) as [i|] eqn:Hi.
  - cbn. intros [= <-]. cbn [events].
    assert (Hk : forall e, events base !! i = Some e ->
                           get "id" (not_none payload ∪ e) = get "id" e).
    { intros e He. apply index_of_lookup_Some in Hi as (_ & (e1 & He1 & Hid1) & _).
      rewrite He in He1. injection He1 as <-. rewrite Hid1.
      apply get_lookup. rewrite not_none_union_lookup.
      unfold get in Hid. destruct (payload !! "id"%string) as [[|v]|]; cbn in Hid; congruence. }
    rewrite (index_of_alter (fun old => not_none payload ∪ old) i _ Hk), Hi. cbn.
    rewrite alter_alter_same; [reflexivity |]. intros x _. apply not_none_union_twice.
  - cbn. intros [= <-]. cbn [events].
    rewrite (index_of_snoc_id _ payload eid Hne Hid). cbn.
    now rewrite alter_snoc_last, not_none_union_self.
Qed.

Lemma merge_events_again_witness :
  merge_events plain_netlocs (u "2024-10-02T09:00:00+09:00") store_taihei_open
    [ev_of "大平林道" "大平" "open"] sample_pref sample_url
  = Some store_taihei_open.
Proof.
  apply (merge_events_again plain_netlocs (u "2024-10-02T09:00:00+09:00") store_taihei).
  by_vm.
Defined.

(** ** What canonical_url returns *)
(** canonical_url (94-99) keeps the scheme, the authority and the path
    that urlsplit reads before the first "#", drops the fragment, and
    keeps the pairs of the query in their order, those named area_id
    left out: on the urlunsplit of CPython 3.12.4 and later for every
    URL, on the earlier one for every URL with an authority. *)
Theorem canonical_url_parts (L : netloc_checks) (url v : pstr) :
  canonical_url L url = Some v ->
  unsplit_keeps_slashes L = true \/ has_authority L url = true ->
  exists scheme netloc path query frag qs,
    urlsplit L (fst (cut_or 35 url)) = Some (scheme, netloc, path, query, frag)
    /\ urlsplit L v = Some (scheme, netloc, path, qs, [])
    /\ parse_qsl qs = filter (fun kv => fst kv ≠ s_area_id) (parse_qsl query)
    /\ Forall (fun kv => fst kv <> s_area_id) (parse_qsl qs).
Proof.
  intros H Hlib.
  apply canonical_url_inv in H as (scheme & netloc & path & query & frag & qs & E1 & E2 & ->).
  assert (Hn : unsplit_keeps_slashes L = true \/ netloc <> []).
  { destruct Hlib as [H | H]; [now left | right].
    exact (has_authority_netloc _ _ _ _ _ _ _ E1 H). }
  rewrite (urlunsplit_later L _ _ _ _ Hn).
  exists scheme, netloc, path, query, frag, qs. split; [exact E1 |].
  apply urlsplit_parts in E1 as [P HL]; [| apply cut_or_hash].
  apply parse_qsl_urlencode in E2 as [Hq Hch].
  split; [exact (urlsplit_urlunsplit L _ _ _ _ P HL Hch) |]. split; [exact Hq |].
  rewrite Hq. apply Forall_forall. intros kv Hkv.
  now apply list_elem_of_filter in Hkv as [Hkv _].
Qed.

Lemma canonical_url_parts_witness :
  exists scheme netloc path query frag qs,
    urlsplit plain_netlocs_3_11
      (fst (cut_or 35 (u "https://www.pref.yamanashi.jp/rindoujyouhou/kisei.php?id=12&area_id=3#top")))
    = Some (scheme, netloc, path, query, frag)
    /\ urlsplit plain_netlocs_3_11
         (u "https://www.pref.yamanashi.jp/rindoujyouhou/kisei.php?id=12")
       = Some (scheme, netloc, path, qs, [])
    /\ parse_qsl qs = filter (fun kv => fst kv ≠ s_area_id) (parse_qsl query)
    /\ Forall (fun kv => fst kv <> s_area_id) (parse_qsl qs).
Proof.
  apply (canonical_url_parts plain_netlocs_3_11
           (u "https://www.pref.yamanashi.jp/rindoujyouhou/kisei.php?id=12&area_id=3#top")).
  - by_vm.
  - right. by_vm.
Defined.

(** The result of canonical_url has no "#", no tab, carriage return or
    line feed, and no control character or blank in front. *)
Theorem canonical_url_clean (L : netloc_checks) (url v : pstr) :
  canonical_url L url = Some v ->
  ~ In 35 v
  /\ Forall (fun c => tab_cr_lf c = false) v
  /\ lstrip_c0 v = v.
Proof.
  intros H. apply canonical_url_inv in H as (scheme & netloc & path & query & frag & qs & E1 & E2 & ->).
  apply urlsplit_parts in E1 as [P HL]; [| apply cut_or_hash].
  apply parse_qsl_urlencode in E2 as [_ Hch].
  assert (Hv : Forall url_char (urlunsplit L scheme netloc path qs [])).
  { unfold urlunsplit. destruct (unsplit_keeps_slashes L).
    - exact (urlunsplit_chars _ _ _ _ P Hch).
    - exact (urlunsplit_3_11_chars _ _ _ _ P Hch). }
  split; [exact (url_char_no_hash _ Hv) |]. split.
  - eapply Forall_impl; [exact Hv |]. now intros c [Hc _].
  - unfold urlunsplit. destruct (unsplit_keeps_slashes L).
    + exact (unsplit_lstrip _ _ _ _ P).
    + exact (unsplit_3_11_lstrip _ _ _ _ P).
Qed.

Lemma canonical_url_clean_witness :
  ~ In 35 (u "https://www.pref.yamanashi.jp/rindoujyouhou/kisei.php?id=12")
  /\ Forall (fun c => tab_cr_lf c = false)
       (u "https://www.pref.yamanashi.jp/rindoujyouhou/kisei.php?id=12")
  /\ lstrip_c0 (u "https://www.pref.yamanashi.jp/rindoujyouhou/kisei.php?id=12")
     = u "https://www.pref.yamanashi.jp/rindoujyouhou/kisei.php?id=12".
Proof.
  apply (canonical_url_clean plain_netlocs
           (u " https://www.pref.yamanashi.jp/rindoujyouhou/kisei.php?id=12&area_id=3#top")).
  by_vm.
Defined.

(** canonical_url reads the URL up to its first "#" only: whatever
    follows as a fragment makes no difference. *)
Theorem canonical_url_ignores_fragment (L : netloc_checks) (url frag : pstr) :
  ~ In 35 url ->
  canonical_url L (url ++ [35] ++ frag) = canonical_url L url.
Proof.
  intros H. rewrite !canonical_url_eq. cbn [app].
  now rewrite (cut_or_first 35 url frag H), (cut_or_absent 35 url H).
Qed.

Lemma canonical_url_ignores_fragment_witness :
  canonical_url plain_netlocs (u "https://example.jp/rindo.html" ++ [35] ++ u "kisei")
  = canonical_url plain_netlocs (u "https://example.jp/rindo.html").
Proof.
  apply (canonical_url_ignores_fragment plain_netlocs (u "https://example.jp/rindo.html")).
  apply has_false. by_vm.
Defined.

(** ** The normaliser only deletes *)
Lemma remove_from_sublist (old : pstr) (k : nat) (s : pstr) :
  remove_from old k s `sublist_of` s.
Proof.
  revert k. induction s as [|c s IH]; intros k; [constructor |].
  change (remove_from old k (c :: s))
    with (match k with
          | S k' => remove_from old k' s
          | O => if startswith old (c :: s) then remove_from old (length old - 1) s
                 else c :: remove_from old 0 s
          end).
  destruct k as [|k'].
  - destruct (startswith old (c :: s)).
    + apply sublist_cons, IH.
    + apply sublist_skip, IH.
  - apply sublist_cons, IH.
Qed.

Lemma remove_at_end_sublist (alts : list pstr) (s : pstr) :
  remove_at_end alts s `sublist_of` s.
Proof.
  induction s as [|c s IH].
  - rewrite remove_at_end_nil. constructor.
  - change (remove_at_end alts (c :: s))
      with (if existsb (pstr_eqb (c :: s)) alts then []
            else if existsb (fun a => pstr_eqb (c :: s) (a ++ [10])) alts then [10]
            else c :: remove_at_end alts s).
    destruct (existsb (pstr_eqb (c :: s)) alts); [apply sublist_nil_l |].
    destruct (existsb _ alts) eqn:E; [| apply sublist_skip, IH].
    apply existsb_exists in E as (a & _ & E). apply pstr_eqb_eq in E. rewrite E.
    apply sublist_inserts_l. reflexivity.
Qed.

(** norm_rindo_name (344-350) only deletes: what it returns is the input
    with characters left out, in the same order, and holds no white
    space and none of the characters （）()・･‐-—―ｰ. *)
Theorem norm_rindo_name_only_deletes (x : pstr) :
  norm_rindo_name x `sublist_of` x
  /\ Forall (fun c => isspace c = false) (norm_rindo_name x)
  /\ Forall (fun c => ~ In c punct_chars) (norm_rindo_name x).
Proof.
  destruct (norm_rindo_name_clean x) as [Hb Hp]. split; [| split].
  - destruct x as [|c x]; [constructor |]. unfold norm_rindo_name, remove_class, remove_all.
    etransitivity; [apply sublist_filter |].
    etransitivity; [apply remove_at_end_sublist |].
    etransitivity; [apply remove_from_sublist |].
    etransitivity; [apply remove_from_sublist |].
    apply sublist_filter.
  - eapply Forall_impl; [exact Hb |]. intros c Hc. unfold cls_blank in Hc.
    now apply orb_false_iff in Hc as [_ Hc].
  - eapply Forall_impl; [exact Hp |]. intros c Hc Hin. unfold cls_punct in Hc.
    apply not_true_iff_false in Hc. apply Hc. apply existsb_exists.
    exists c. split; [exact Hin | apply N.eqb_refl].
Qed.

(** ** pick_status by key words *)
Lemma contains_trans (a b t : pstr) :
  contains a b = true -> contains b t = true -> contains a t = true.
Proof.
  rewrite !contains_spec. intros (l1 & r1 & ->) (l2 & r2 & ->).
  exists (l2 ++ l1), (r1 ++ r2). now rewrite <- !app_assoc.
Qed.

Lemma contains_false_trans (a b t : pstr) :
  contains a b = true -> contains a t = false -> contains b t = false.
Proof.
  intros Hab Hat. destruct (contains b t) eqn:E; [| reflexivity].
  now rewrite (contains_trans a b t Hab E) in Hat.
Qed.

(** pick_status (352-356) with P_STATUS (296-300) reads five key words:
    the label is 通行止 when the text holds 通行止; otherwise 規制 when it
    holds 規制 or 片側交互; otherwise 解除 when it holds 解除 or 通行可;
    otherwise there is none.  The optional 全面, 全線 and め and the
    alternatives 通行規制, 大型車通行止 and 通行可能 change nothing. *)
Theorem pick_status_key_words (t : pstr) :
  pick_status t =
  if contains (u "通行止") t then Some (u "通行止")
  else if contains (u "規制") t || contains (u "片側交互") t then Some (u "規制")
  else if contains (u "解除") t || contains (u "通行可") t then Some (u "解除")
  else None.
Proof.
  rewrite pick_status_cases. cbn [existsb].
  destruct (contains (u "通行止") t) eqn:E1; [reflexivity |].
  rewrite (contains_false_trans (u "通行止") (u "大型車通行止") t eq_refl E1).
  rewrite !orb_false_r.
  destruct (contains (u "規制") t) eqn:E2.
  - now rewrite orb_true_r.
  - rewrite (contains_false_trans (u "規制") (u "通行規制") t eq_refl E2). cbn [orb].
    destruct (contains (u "片側交互") t); [reflexivity |].
    destruct (contains (u "通行可") t) eqn:E3.
    + now rewrite !orb_true_r.
    + rewrite (contains_false_trans (u "通行可") (u "通行可能") t eq_refl E3).
      now rewrite !orb_false_r.
Qed.

(** ** pick_reason *)
Lemma first_literal_Some (alts : list pstr) (s a : pstr) :
  first_literal alts s = Some a -> In a alts /\ contains a s = true.
Proof.
  induction s as [|c s IH].
  - cbn [first_literal]. destruct (find _ alts) as [a'|] eqn:E; [| discriminate].
    intros [= <-]. apply find_some in E as [Hin Hs]. split; [exact Hin |].
    cbn [contains]. now rewrite Hs.
  - cbn [first_literal]. destruct (find _ alts) as [a'|] eqn:E.
    + intros [= <-]. apply find_some in E as [Hin Hs]. split; [exact Hin |].
      change (contains a' (c :: s)) with (startswith a' (c :: s) || contains a' s).
      now rewrite Hs.
    + intros H. destruct (IH H) as [Hin Hc]. split; [exact Hin |].
      change (contains a (c :: s)) with (startswith a (c :: s) || contains a s).
      now rewrite Hc, orb_true_r.
Qed.

Lemma first_literal_None (alts : list pstr) (s : pstr) :
  first_literal alts s = None <-> Forall (fun a => contains a s = false) alts.
Proof.
  induction s as [|c s IH].
  - cbn [first_literal]. destruct (find _ alts) as [a'|] eqn:E.
    + split; [discriminate |]. intros H. apply find_some in E as [Hin Hs].
      rewrite Forall_forall in H. apply list_elem_of_In, H in Hin.
      cbn [contains] in Hin. now rewrite Hs in Hin.
    + split; [| reflexivity]. intros _. apply Forall_forall. intros a Ha.
      apply list_elem_of_In in Ha. pose proof (find_none _ _ E a Ha) as Hs.
      cbn [contains]. cbn beta in Hs. now rewrite Hs.
  - cbn [first_literal]. destruct (find _ alts) as [a'|] eqn:E.
    + split; [discriminate |]. intros H. apply find_some in E as [Hin Hs].
      rewrite Forall_forall in H. apply list_elem_of_In, H in Hin.
      change (contains a' (c :: s)) with (startswith a' (c :: s) || contains a' s) in Hin.
      now rewrite Hs in Hin.
    + rewrite IH. rewrite !Forall_forall. split; intros H a Ha.
      * change (contains a (c :: s)) with (startswith a (c :: s) || contains a s).
        rewrite (H a Ha), orb_false_r.
        apply list_elem_of_In in Ha. exact (find_none _ _ E a Ha).
      * specialize (H a Ha).
        change (contains a (c :: s)) with (startswith a (c :: s) || contains a s) in H.
        now apply orb_false_iff in H as [_ H].
Qed.

(** pick_reason (358-360): the reason is one of the words of REASONS
    (301) and occurs in the text, and there is none exactly when no word
    of REASONS occurs in it. *)
Theorem pick_reason_word (t : pstr) :
  (pick_reason t = None <-> Forall (fun a => contains a t = false) REASONS)
  /\ (forall a, pick_reason t = Some a -> In a REASONS /\ contains a t = true).
Proof.
  split; [apply first_literal_None |]. intros a. apply first_literal_Some.
Qed.

(** ** The identity of what the extractors emit *)
Lemma bad_name_false_parts (nm : pstr) :
  bad_name nm = false ->
  nm <> [] /\ (2 <= length nm)%nat
  /\ Forall (fun b => contains b nm = false) BAD_NAME_SUBSTR.
Proof.
  unfold bad_name. rewrite !orb_false_iff. intros [[H1 H2] H3].
  split; [| split].
  - intros ->. discriminate.
  - now apply Nat.ltb_ge in H2.
  - apply Forall_forall. intros b Hb. apply list_elem_of_In in Hb.
    destruct (contains b nm) eqn:E; [| reflexivity].
    assert (existsb (fun b => contains b nm) BAD_NAME_SUBSTR = true)
      by (apply existsb_exists; eauto).
    congruence.
Qed.

(** An event of harvest_from_html (385-485) is named by its normalised
    name followed by 林道; the normalised name has two characters or
    more and none of the words of BAD_NAME_SUBSTR; the snippet is at most
    160 characters long; and, the event having no source_url of its own,
    merge_events files it under the normalised name and the canonical
    URL of the page. *)
Theorem harvested_event_identity (L : netloc_checks) (G : re_groups) (doc : html_doc)
    (pref url : pstr) (e : edict) :
  In e (harvest_from_html G doc) ->
  exists nm snippet,
    get "norm_name" e = PStr nm
    /\ get "name" e = PStr (nm ++ s_rindo)
    /\ (2 <= length nm)%nat
    /\ Forall (fun b => contains b nm = false) BAD_NAME_SUBSTR
    /\ get "snippet" e = PStr snippet /\ (length snippet <= 160)%nat
    /\ get "source_url" e = PNone
    /\ event_key L pref url e = (src ← canonical_url L url; make_event_id pref nm src).
Proof.
  intros H. apply harvest_from_html_harvested in H as (nm & st & text & -> & Hbad & _).
  apply bad_name_false_parts in Hbad as (Hne & Hlen & Hbad).
  exists nm, (take 160 text). repeat split; try assumption; try reflexivity.
  - rewrite length_take. lia.
  - unfold event_key, norm_of.
    change (get "source_url" (harvest_event G nm st text)) with PNone.
    change (get "norm_name" (harvest_event G nm st text)) with (PStr nm).
    cbn [str_or]. destruct nm as [|c nm]; [congruence | reflexivity].
Qed.

Lemma harvested_event_identity_witness :
  exists nm snippet,
    get "norm_name" (harvest_event no_matches (u "大平") (u "通行止") (u "大平林道 全面通行止"))
    = PStr nm
    /\ get "name" (harvest_event no_matches (u "大平") (u "通行止") (u "大平林道 全面通行止"))
       = PStr (nm ++ s_rindo)
    /\ (2 <= length nm)%nat
    /\ Forall (fun b => contains b nm = false) BAD_NAME_SUBSTR
    /\ get "snippet" (harvest_event no_matches (u "大平") (u "通行止") (u "大平林道 全面通行止"))
       = PStr snippet
    /\ (length snippet <= 160)%nat
    /\ get "source_url" (harvest_event no_matches (u "大平") (u "通行止")
                           (u "大平林道 全面通行止")) = PNone
    /\ event_key plain_netlocs sample_pref sample_url
         (harvest_event no_matches (u "大平") (u "通行止") (u "大平林道 全面通行止"))
       = (src ← canonical_url plain_netlocs sample_url; make_event_id sample_pref nm src).
Proof.
  apply (harvested_event_identity plain_netlocs no_matches table_page).
  rewrite harvest_table_page. left. reflexivity.
Defined.

Lemma generic_code_cases (stj : pstr) (c : N) (code : pstr) :
  generic_code stj = c :: code -> In (c :: code) STATUS_CODES.
Proof.
  intros H. destruct (generic_code_values stj) as [E | E]; [congruence |]. now rewrite <- H.
Qed.

(** An event of extract_generic_jp (488-512) carries the prefecture and
    the base URL it was called with, a status among closed, regulated and
    open, and a name that is its non-empty normalised name followed by
    林道.  Called, as run calls it, with the canonical URL of the page, its
    events are filed by merge_events under that same URL, on the
    urlunsplit of CPython 3.12.4 and later for every page and on the
    earlier one for every page whose URL has an authority. *)
Theorem generic_event_identity (L : netloc_checks) (G : re_groups)
    (text url base_url pref : pstr) (e : edict) :
  canonical_url L url = Some base_url ->
  In e (extract_generic_jp G text base_url pref) ->
  exists nm code,
    nm <> []
    /\ get "norm_name" e = PStr nm
    /\ get "name" e = PStr (nm ++ s_rindo)
    /\ get "status" e = PStr code /\ In code STATUS_CODES
    /\ get "pref" e = PStr pref
    /\ get "source_url" e = PStr base_url
    /\ (unsplit_keeps_slashes L = true \/ has_authority L url = true ->
        event_key L pref url e = make_event_id pref nm base_url).
Proof.
  intros Hc H. unfold extract_generic_jp in H.
  apply in_flat_map in H as [[raw stj] [_ H]]. cbn [fst snd] in H.
  destruct (generic_code stj) as [|c code] eqn:Ec; [destruct H |].
  destruct (norm_rindo_name raw) as [|n nm] eqn:En; [destruct H |].
  destruct H as [<- | []].
  exists (n :: nm), (c :: code).
  split; [discriminate |]. split; [reflexivity |]. split; [reflexivity |].
  split; [reflexivity |]. split; [exact (generic_code_cases _ _ _ Ec) |].
  split; [reflexivity |]. split; [reflexivity |].
  intros Hlib. unfold event_key, norm_of.
  match goal with
  | |- context [get "source_url" ?d] => change (get "source_url" d) with (PStr base_url)
  end.
  match goal with
  | |- context [get "norm_name" ?d] => change (get "norm_name" d) with (PStr (n :: nm))
  end.
  cbn [str_or]. destruct base_url as [|b base].
  - now rewrite Hc.
  - now rewrite (canonical_url_fixed L url (b :: base) Hc Hlib).
Qed.

Lemma generic_event_identity_witness :
  exists nm code,
    nm <> []
    /\ get "norm_name" ev_generic = PStr nm
    /\ get "name" ev_generic = PStr (nm ++ s_rindo)
    /\ get "status" ev_generic = PStr code /\ In code STATUS_CODES
    /\ get "pref" ev_generic = PStr sample_pref
    /\ get "source_url" ev_generic = PStr sample_url
    /\ event_key plain_netlocs_3_11 sample_pref (sample_url ++ u "#top") ev_generic
       = make_event_id sample_pref nm sample_url.
Proof.
  destruct (generic_event_identity plain_netlocs_3_11 generic_matches
              (u "大平線は通行止です") (sample_url ++ u "#top") sample_url sample_pref
              ev_generic)
    as (nm & code & H1 & H2 & H3 & H4 & H5 & H6 & H7 & H8).
  - by_vm.
  - assert (E : extract_generic_jp generic_matches (u "大平線は通行止です")
                  sample_url sample_pref = [ev_generic]) by by_vm.
    rewrite E. left. reflexivity.
  - exists nm, code. repeat split; try assumption. apply H8. right. by_vm.
Defined.

Lemma header_lookup (name : string) (hdr : gmap string pstr) (v : pstr) :
  header name hdr = Some v -> hdr !! name = Some v.
Proof.
  unfold header. destruct (hdr !! name) as [[|c w]|]; [discriminate | | discriminate].
  now intros [= <-].
Qed.

(** conditional_get (543-560) hands out the body of every response other
    than 304 whose length or SHA-1 is not the recorded one; in
    particular the body of a URL that has no entry in the state. *)
Theorem conditional_get_new_content (W : world) (url : pstr) (st : fingerprint)
    (r : response) :
  http_get W url (truthy_str (fp_etag st)) (truthy_str (fp_last_modified st)) = Some r ->
  status_code r <> 304 ->
  fp_length st <> Some (length (content r))
  \/ fp_sha1 st <> Some (sha1_hexdigest (content r)) ->
  conditional_get W url st = (content_type (headers r), Some (content r), headers r).
Proof.
  intros Hget Hst Hnew. unfold conditional_get. rewrite Hget.
  apply N.eqb_neq in Hst. rewrite Hst.
  replace (_ || _ || _ || _) with true; [reflexivity |]. symmetry.
  destruct Hnew as [H | H].
  - rewrite (bool_decide_eq_true_2 (Some (length (content r)) ≠ fp_length st)) by congruence.
    now rewrite orb_true_r.
  - rewrite (bool_decide_eq_true_2 (Some (sha1_hexdigest (content r)) ≠ fp_sha1 st))
      by congruence.
    now rewrite orb_true_r.
Qed.

Lemma conditional_get_new_content_witness :
  conditional_get world_table_page sample_url no_fingerprint
  = (content_type (headers resp_table_page), Some (content resp_table_page),
     headers resp_table_page).
Proof.
  apply (conditional_get_new_content world_table_page sample_url no_fingerprint
           resp_table_page).
  - reflexivity.
  - discriminate.
  - left. discriminate.
Defined.

(** A response that comes back with the headers and the body its
    fingerprint was taken from is not processed again, whether or not the
    server answers 304. *)
Theorem conditional_get_same_response (W : world) (url : pstr) (r : response)
    (checked : pstr) :
  http_get W url (truthy_str (headers r !! "etag"%string))
    (truthy_str (headers r !! "last-modified"%string)) = Some r ->
  conditional_get W url (fingerprint_of (headers r) (content r) checked)
  = (content_type (headers r), None, headers r).
Proof.
  intros Hget. unfold conditional_get, fingerprint_of.
  cbn [fp_etag fp_last_modified fp_length fp_sha1]. rewrite Hget.
  destruct (status_code r =? 304); [reflexivity |].
  replace (_ || _ || _ || _) with false; [reflexivity |]. symmetry.
  rewrite !orb_false_iff. repeat split.
  - destruct (header "etag" (headers r)) as [e|] eqn:E; [| reflexivity].
    apply header_lookup in E. apply bool_decide_eq_false_2. intros H. now apply H.
  - destruct (header "last-modified" (headers r)) as [e|] eqn:E; [| reflexivity].
    apply header_lookup in E. apply bool_decide_eq_false_2. intros H. now apply H.
  - apply bool_decide_eq_false_2. intros H. now apply H.
  - apply bool_decide_eq_false_2. intros H. now apply H.
Qed.

Lemma conditional_get_same_response_witness :
  conditional_get world_table_page sample_url
    (fingerprint_of (headers resp_table_page) (content resp_table_page)
       (u "2024-10-02T09:00:02"))
  = (content_type (headers resp_table_page), None, headers resp_table_page).
Proof.
  apply (conditional_get_same_response world_table_page sample_url resp_table_page).
  reflexivity.
Defined.

(** What a turn of the queue loop that ends without an exception leaves:
    the state with the URL taken off the queue, when the URL was seen
    before or nothing is to be processed, or else the state with the
    fingerprint of the processed response. *)
Lemma visit_cases (W : world) (dry_run full : bool) (ag : agency) (auto : bool)
    (s s' : crawl_state) (url : pstr) (depth : nat) (rest : list (pstr * nat)) :
  visit W dry_run full ag auto s url depth rest = Ok s' ->
  (s' = {| tick := tick s; fps := fps s; out := out s;
           total_changes := total_changes s; queue := rest; seen := seen s |})
  \/ (s' = {| tick := tick s; fps := fps s; out := out s;
              total_changes := total_changes s; queue := rest;
              seen := {[ url ]} ∪ seen s |})
  \/ (exists hdr body url' t o changes more,
        s' = {| tick := S t;
                fps := <[ url' := fingerprint_of hdr body (clock W t) ]> (fps s);
                out := o; total_changes := changes;
                queue := rest ++ map (fun u2 => (u2, S depth)) more;
                seen := {[ url ]} ∪ seen s |}
        /\ (tick s <= t)%nat
        /\ (dry_run = true -> o = out s /\ changes = total_changes s)
        /\ (total_changes s <= changes)%nat).
Proof.
  unfold visit. cbn [seen fps tick out total_changes].
  destruct (bool_decide (url ∈ seen s)); [intros [= <-]; now left |].
  match goal with
  | |- context [if full then ?a else ?b] =>
    destruct (if full then a else b) as [[ct [body|]] hdr]
  end; [| intros [= <-]; right; now left].
  destruct (dispatch _ _ _ _ _ _ _ _ _) as [[[[evs more] url'] ticks]|];
    [| discriminate].
  cbn [raise_none bind_outcome]. intros H. right. right.
  destruct evs as [|e evs].
  - cbn in H. injection H as <-.
    exists hdr, body, url', (tick s + ticks)%nat, (out s), (total_changes s), more.
    repeat split; lia.
  - destruct dry_run.
    + cbn in H. injection H as <-.
      exists hdr, body, url', (tick s + ticks)%nat, (out s), (total_changes s), more.
      repeat split; lia.
    + destruct (merge_events _ _ _ _ _ _) as [o|]; [| discriminate].
      cbn in H. injection H as <-.
      exists hdr, body, url', (S (tick s + ticks)), o, (S (total_changes s)), more.
      repeat split; try discriminate; lia.
Qed.

Lemma crawl_ind_fps (P : crawl_state -> crawl_state -> Prop)
    (W : world) (dry_run full : bool) (ag : agency) (auto : bool) :
  (forall s, P s s) ->
  (forall s1 s2 s3, P s1 s2 -> P s2 s3 -> P s1 s3) ->
  (forall s s' url depth rest,
     visit W dry_run full ag auto s url depth rest = Ok s' -> P s s') ->
  forall fuel s s', crawl W dry_run full ag auto fuel s = Ok s' -> P s s'.
Proof.
  intros Hrefl Htrans Hstep. induction fuel as [|fuel IH]; intros s s'.
  - cbn [crawl]. destruct (queue s) as [|[url depth] rest]; [| discriminate].
    intros [= <-]. apply Hrefl.
  - cbn [crawl]. destruct (queue s) as [|[url depth] rest].
    + intros [= <-]. apply Hrefl.
    + destruct (visit W dry_run full ag auto s url depth rest) as [s1| |] eqn:E;
        cbn [bind_outcome]; try discriminate.
      intros H. apply (Htrans s s1 s'); [exact (Hstep _ _ _ _ _ E) | exact (IH _ _ H)].
Qed.

Lemma crawl_targets_ind (P : crawl_state -> crawl_state -> Prop)
    (W : world) (dry_run full : bool) (fuel : nat) :
  (forall s, P s s) ->
  (forall s1 s2 s3, P s1 s2 -> P s2 s3 -> P s1 s3) ->
  (forall s q sn, P s {| tick := tick s; fps := fps s; out := out s;
                         total_changes := total_changes s; queue := q; seen := sn |}) ->
  (forall ag auto s s' url depth rest,
     visit W dry_run full ag auto s url depth rest = Ok s' -> P s s') ->
  forall ts s s', crawl_targets W dry_run full fuel ts s = Ok s' -> P s s'.
Proof.
  intros Hrefl Htrans Hstart Hstep. induction ts as [|[[ag url] auto] ts IH]; intros s s'.
  - cbn [crawl_targets]. intros [= <-]. apply Hrefl.
  - cbn [crawl_targets].
    destruct (crawl W dry_run full ag auto fuel _) as [s1| |] eqn:E;
      cbn [bind_outcome]; try discriminate.
    intros H. eapply Htrans; [apply (Hstart s [(url, O)] ∅) |].
    eapply Htrans; [| exact (IH _ _ H)].
    exact (crawl_ind_fps P W dry_run full ag auto Hrefl Htrans (Hstep ag auto) _ _ _ E).
Qed.

(** run (639-791) never drops an entry of the state: every URL that has
    a fingerprint in the state that was read has one in the state that
    is saved. *)
Theorem run_keeps_fingerprints (W : world) (F : files) (dry_run full : bool)
    (limit : option Z) (fuel : nat) (r : saved) (state : gmap pstr fingerprint) :
  run W F dry_run full limit fuel = Ok r ->
  saved_state r = Some state ->
  forall url, is_Some (load_json (STATE_FILE F) ∅ !! url) -> is_Some (state !! url).
Proof.
  unfold run. destruct (limit_targets limit _) as [|tg tgs].
  { intros [= <-]. discriminate. }
  destruct (crawl_targets _ _ _ _ _ _) as [s| |] eqn:E; cbn [bind_outcome]; try discriminate.
  intros [= <-]. cbn [saved_state]. intros [= <-].
  revert E.
  apply (crawl_targets_ind
           (fun s1 s2 => forall url, is_Some (fps s1 !! url) -> is_Some (fps s2 !! url))).
  - auto.
  - auto.
  - auto.
  - intros ag auto s1 s2 url depth rest Hv u Hu.
    apply visit_cases in Hv as [-> | [-> | (hdr & body & url' & t & o & ch & more & -> & _)]];
      cbn [fps]; try exact Hu.
    destruct (decide (url' = u)) as [-> | Hne].
    + rewrite lookup_insert_eq. eauto.
    + now rewrite lookup_insert_ne.
Qed.

Lemma run_keeps_fingerprints_witness :
  run world_not_modified
    {| REG_FILE := Some [sample_agency]; STATE_FILE := Some (fps seen_before);
       OUT_FILE := None |} false false None 5
  = Ok {| saved_out := None; saved_state := Some (fps seen_before) |}
  /\ is_Some (fps seen_before !! sample_url).
Proof.
  assert (H : run world_not_modified
                {| REG_FILE := Some [sample_agency]; STATE_FILE := Some (fps seen_before);
                   OUT_FILE := None |} false false None 5
              = Ok {| saved_out := None; saved_state := Some (fps seen_before) |}) by by_vm.
  split; [exact H |].
  apply (run_keeps_fingerprints world_not_modified
           {| REG_FILE := Some [sample_agency]; STATE_FILE := Some (fps seen_before);
              OUT_FILE := None |} false false None 5
           {| saved_out := None; saved_state := Some (fps seen_before) |}
           (fps seen_before) H eq_refl sample_url).
  cbn [load_json STATE_FILE]. unfold seen_before. cbn [fps].
  rewrite lookup_singleton_eq. eauto.
Defined.

(** In a dry run the crawl leaves the event store and the count of
    changes as they are, whatever the pages hold. *)
Theorem dry_run_keeps_store (W : world) (full : bool) (fuel : nat)
    (ts : list (agency * pstr * bool)) (s s' : crawl_state) :
  crawl_targets W true full fuel ts s = Ok s' ->
  out s' = out s /\ total_changes s' = total_changes s.
Proof.
  apply (crawl_targets_ind
           (fun s1 s2 => out s2 = out s1 /\ total_changes s2 = total_changes s1)).
  - auto.
  - intros s1 s2 s3 [H1 H2] [H3 H4]. split; congruence.
  - auto.
  - intros ag auto s1 s2 url depth rest Hv.
    apply visit_cases in Hv
      as [-> | [-> | (hdr & body & url' & t & o & ch & more & -> & _ & Hdry & _)]];
      cbn [out total_changes]; auto.
Qed.

Lemma dry_run_keeps_store_witness :
  out state_taihei_dry = out state_taihei
  /\ total_changes state_taihei_dry = total_changes state_taihei.
Proof.
  apply (dry_run_keeps_store world_table_page false 5
           [(sample_agency, sample_url, false)] state_taihei state_taihei_dry).
  by_vm.
Defined.

(** A turn of the queue loop that processes a body, fetched with or
    without --full, records the
    fingerprint of the response under the URL the branch on the content
    type leaves (the canonical URL for a PDF, the URL itself otherwise),
    stamped with a reading of the clock not earlier than the turn's
    first; the URL is marked as seen and the links found are queued one
    level deeper. *)
Theorem visit_records_fingerprint (W : world) (dry_run full : bool) (ag : agency)
    (auto : bool) (s s' : crawl_state) (url : pstr) (depth : nat)
    (rest : list (pstr * nat)) (ct : pstr) (body : octets) (hdr : gmap string pstr)
    (evs : list edict) (more : list pstr) (url' : pstr) (ticks : nat) :
  url ∉ seen s ->
  (if full then
     match http_get W url None None with
     | Some r => (content_type (headers r), Some (content r), headers r)
     | None => ([], None, ∅)
     end
   else conditional_get W url (default no_fingerprint (fps s !! url)))
  = (ct, Some body, hdr) ->
  dispatch W ag auto ({[ url ]} ∪ seen s) (clock W (tick s)) url depth ct body
  = Some (evs, more, url', ticks) ->
  visit W dry_run full ag auto s url depth rest = Ok s' ->
  exists t,
    (tick s <= t)%nat
    /\ fps s' = <[ url' := fingerprint_of hdr body (clock W t) ]> (fps s)
    /\ tick s' = S t
    /\ queue s' = rest ++ map (fun u2 => (u2, S depth)) more
    /\ seen s' = {[ url ]} ∪ seen s.
Proof.
  intros Hseen Hget Hd. unfold visit. cbn [seen fps tick out total_changes].
  rewrite bool_decide_eq_false_2 by exact Hseen. rewrite Hget, Hd.
  cbn [raise_none bind_outcome]. destruct evs as [|e evs].
  - cbn. intros [= <-]. exists (tick s + ticks)%nat. repeat split. lia.
  - destruct dry_run.
    + cbn. intros [= <-]. exists (tick s + ticks)%nat. repeat split. lia.
    + destruct (merge_events _ _ _ _ _ _) as [o|]; [| discriminate].
      cbn. intros [= <-]. exists (S (tick s + ticks)). repeat split. lia.
Qed.

Lemma targets_of_none (agencies : list agency) :
  Forall (fun ag => ag_watch ag = [] /\ ag_auto_seeds ag = []) agencies ->
  targets_of agencies = [].
Proof.
  induction 1 as [|ag l [Hw Hs] _ IH]; [reflexivity |].
  unfold targets_of in *. cbn [flat_map]. now rewrite Hw, Hs, IH.
Qed.

Lemma limit_targets_nil {A} (limit : option Z) : limit_targets limit (@nil A) = [].
Proof.
  unfold limit_targets. destruct limit as [z|]; [| reflexivity].
  destruct (z =? 0)%Z; [reflexivity |]. destruct (0 <? z)%Z; now rewrite take_nil.
Qed.

(** When the registry cannot be read, or none of its agencies has a
    watch URL or an auto seed, run returns before the crawl and saves
    nothing, not even the state. *)
Theorem run_without_targets (W : world) (F : files) (dry_run full : bool)
    (limit : option Z) (fuel : nat) :
  Forall (fun ag => ag_watch ag = [] /\ ag_auto_seeds ag = []) (load_json (REG_FILE F) []) ->
  run W F dry_run full limit fuel = Ok {| saved_out := None; saved_state := None |}.
Proof.
  intros H. unfold run. now rewrite (targets_of_none _ H), limit_targets_nil.
Qed.

Lemma run_without_targets_witness :
  run world_table_page
    {| REG_FILE := None; STATE_FILE := Some (fps seen_before); OUT_FILE := Some store_taihei |}
    false false None 5
  = Ok {| saved_out := None; saved_state := None |}.
Proof.
  apply (run_without_targets world_table_page
           {| REG_FILE := None; STATE_FILE := Some (fps seen_before);
              OUT_FILE := Some store_taihei |}).
  constructor.
Defined.

Lemma visit_records_fingerprint_witness :
  exists t,
    (tick state_taihei <= t)%nat
    /\ fps state_taihei_visited
       = <[ snd (fst dispatch_table_page)
            := fingerprint_of (headers resp_table_page) (content resp_table_page)
                 (clock world_table_page t) ]> (fps state_taihei)
    /\ tick state_taihei_visited = S t
    /\ queue state_taihei_visited
       = [] ++ map (fun u2 => (u2, 1%nat)) (snd (fst (fst dispatch_table_page)))
    /\ seen state_taihei_visited = {[ sample_url ]} ∪ seen state_taihei.
Proof.
  apply (visit_records_fingerprint world_table_page false false sample_agency false
           state_taihei state_taihei_visited sample_url O []
           (content_type (headers resp_table_page)) (content resp_table_page)
           (headers resp_table_page)
           (fst (fst (fst dispatch_table_page))) (snd (fst (fst dispatch_table_page)))
           (snd (fst dispatch_table_page)) (snd dispatch_table_page)).
  - change (sample_url ∉ (∅ : gset pstr)). apply not_elem_of_empty.
  - by_vm.
  - by_vm.
  - by_vm.
Defined.



























(** A run that is no dry run and meets no events saves the state and
    leaves the event store as it is on disk. *)
Lemma run_not_modified_saves_state_only :
  (r ← ok_value (run world_not_modified
                   {| REG_FILE := Some [sample_agency]; STATE_FILE := None;
                      OUT_FILE := None |}
                   false false None 5);
   Some (saved_out r, size <$> saved_state r))
  = Some (None, Some 0%nat).
Proof. by_vm. Qed.

(** ** status_code of make_roads_from_master.py *)
(** The tests of status_code that decide its result. *)
Lemma road_status_code_cases (T : text_lib) (s : pstr) :
  road_status_code T s =
  match s with
  | [] => st_open
  | _ =>
    if contains (u "closed") (str_lower T s) then st_closed
    else if contains (u "regulated") (str_lower T s)
            || contains (u "restriction") (str_lower T s)
            || contains (u "traffic control") (str_lower T s) then st_regulated
    else if contains (u "open") (str_lower T s) then st_open
    else if contains (u "通行止") s then st_closed
    else if contains (u "規制") s || contains (u "交互") s || contains (u "う回") s
            || contains (u "一部") s then st_regulated
    else st_open
  end.
Proof.
  destruct s as [|c s]; [reflexivity |]. unfold road_status_code.
  set (t := c :: s). set (tl := str_lower T t).
  assert (H1 : contains (u "open") tl = false -> contains (u "reopen") tl = false)
    by (apply contains_false_trans; reflexivity).
  assert (H2 : contains (u "交互") t = false -> contains (u "片側交互通行") t = false)
    by (apply contains_false_trans; reflexivity).
  revert H1 H2. cbn [existsb].
  generalize (contains (u "closed") tl) (contains (u "regulated") tl)
    (contains (u "restriction") tl) (contains (u "traffic control") tl)
    (contains (u "open") tl) (contains (u "reopen") tl)
    (contains (u "通行止") t) (contains (u "規制") t) (contains (u "片側交互通行") t)
    (contains (u "交互") t) (contains (u "う回") t) (contains (u "一部") t)
    (contains (u "解除") t) (contains (u "通行可") t) (contains (u "復旧") t).
  intros a1 a2 a3 a4 a5 a6 j1 j2 j3 j4 j5 j6 k1 k2 k3 H1 H2.
  destruct a1; [reflexivity |]. destruct (a2 || a3 || a4); [reflexivity |].
  destruct a5; [reflexivity |]. rewrite (H1 eq_refl). cbn [orb].
  destruct j1; [reflexivity |].
  destruct j4.
  - destruct j2, j3; cbn [orb]; reflexivity.
  - rewrite (H2 eq_refl). destruct j2, j5, j6, k1, k2, k3; cbn [orb]; reflexivity.
Qed.

(** status_code (46-58) depends on ten key words: in the lower-cased
    text closed, then regulated, restriction or traffic control, then
    open; failing these, in the text itself 通行止, then 規制, 交互, う回 or
    一部; everything else is open.  The tests for reopen, 片側交互通行,
    解除, 通行可 and 復旧 never change the result, and an English word
    wins over a Japanese one. *)
Theorem status_code_key_words (T : text_lib) (s : pstr) :
  road_status_code T s =
  match s with
  | [] => st_open
  | _ =>
    if contains (u "closed") (str_lower T s) then st_closed
    else if contains (u "regulated") (str_lower T s)
            || contains (u "restriction") (str_lower T s)
            || contains (u "traffic control") (str_lower T s) then st_regulated
    else if contains (u "open") (str_lower T s) then st_open
    else if contains (u "通行止") s then st_closed
    else if contains (u "規制") s || contains (u "交互") s || contains (u "う回") s
            || contains (u "一部") s then st_regulated
    else st_open
  end.
Proof. exact (road_status_code_cases T s). Qed.

(** The result of status_code is a key of SEV. *)
Lemma road_status_code_valid (T : text_lib) (s : pstr) :
  In (road_status_code T s) STATUS_CODES /\ is_Some (SEV (road_status_code T s)).
Proof.
  assert (H : In (road_status_code T s) STATUS_CODES).
  { rewrite road_status_code_cases. unfold STATUS_CODES. cbn [In].
    destruct s as [|c s]; [right; right; left; reflexivity |].
    generalize (contains (u "closed") (str_lower T (c :: s)))
      (contains (u "regulated") (str_lower T (c :: s))
       || contains (u "restriction") (str_lower T (c :: s))
       || contains (u "traffic control") (str_lower T (c :: s)))
      (contains (u "open") (str_lower T (c :: s)))
      (contains (u "通行止") (c :: s))
      (contains (u "規制") (c :: s) || contains (u "交互") (c :: s)
       || contains (u "う回") (c :: s) || contains (u "一部") (c :: s)).
    intros b1 b2 b3 b4 b5.
    destruct b1; [left; reflexivity |]. destruct b2; [right; left; reflexivity |].
    destruct b3; [right; right; left; reflexivity |].
    destruct b4; [left; reflexivity |].
    destruct b5; [right; left; reflexivity | right; right; left; reflexivity]. }
  split; [exact H |].
  destruct H as [<- | [<- | [<- | []]]].
  - exists 3. by_vm.
  - exists 2. by_vm.
  - exists 1. by_vm.
Qed.

(** status_code returns closed, regulated or open and nothing else, so
    the lookups SEV[...] of load_events (92-93) raise no KeyError. *)
Theorem status_code_total (T : text_lib) (s : pstr) :
  In (road_status_code T s) STATUS_CODES /\ is_Some (SEV (road_status_code T s)).
Proof. exact (road_status_code_valid T s). Qed.

(** ** norm_name *)
Lemma replace_char_gone (old new : N) (s : pstr) :
  new <> old -> Forall (fun c => c <> old) (replace_char old new s).
Proof.
  intros H. unfold replace_char. apply Forall_forall. intros c Hc.
  apply list_elem_of_fmap in Hc as (x & -> & _).
  destruct (N.eqb_spec x old); congruence.
Qed.

Lemma replace_char_keeps (P : N -> Prop) (old new : N) (s : pstr) :
  P new -> Forall P s -> Forall P (replace_char old new s).
Proof.
  intros Hn H. unfold replace_char. induction H as [|c s Hc _ IH]; [constructor |].
  cbn [map]. constructor; [| exact IH]. now destruct (c =? old).
Qed.

Lemma remove_alts_keeps (P : N -> Prop) (alts : list pstr) (k : nat) (s : pstr) :
  Forall P s -> Forall P (remove_alts alts k s).
Proof.
  intros H. revert k. induction H as [|c s Hc Hs IH]; intros k; [constructor |].
  cbn [remove_alts]. destruct k; [| apply IH].
  destruct (find _ alts); [apply IH | constructor; [exact Hc | apply IH]].
Qed.

Lemma remove_single_gone (c : N) (k : nat) (s : pstr) :
  Forall (fun x => x <> c) (remove_from [c] k s).
Proof.
  revert k. induction s as [|x s IH]; intros k; [constructor |].
  change (remove_from [c] k (x :: s))
    with (match k with
          | S k' => remove_from [c] k' s
          | O => if startswith [c] (x :: s) then remove_from [c] (length [c] - 1) s
                 else x :: remove_from [c] 0 s
          end).
  destruct k; [| apply IH].
  destruct (startswith [c] (x :: s)) eqn:E; [apply IH |].
  constructor; [| apply IH]. intros ->. cbn in E. now rewrite N.eqb_refl in E.
Qed.

(** What norm_name (29-44) returns contains no white space, none of
    the characters （）()・･‐-—―ｰ, no 線, none of the dashes － ― – and
    neither ヶ nor ヵ, whatever NFKC and html.unescape make of the
    input. *)
Theorem norm_name_alphabet (T : text_lib) (s : pstr) :
  Forall (fun c => isspace c = false /\ ~ In c punct_chars /\ ~ In c norm_name_gone)
    (norm_name T s).
Proof.
  destruct s as [|c0 s0]; [constructor |]. unfold norm_name.
  set (s1 := remove_bracketed _ _ None (remove_bracketed _ _ None _)).
  set (s2 := replace_char 8211 45 (replace_char 8213 45 (replace_char 65293 45 s1))).
  set (s3 := replace_char 12533 12459 (replace_char 12534 12465 s2)).
  assert (H3 : Forall (fun c => c <> 65293 /\ c <> 8213 /\ c <> 8211
                                /\ c <> 12534 /\ c <> 12533) s3).
  { assert (Ha : Forall (fun c => c <> 65293) (replace_char 65293 45 s1))
      by (apply replace_char_gone; discriminate).
    assert (Hb : Forall (fun c => c <> 65293 /\ c <> 8213)
                   (replace_char 8213 45 (replace_char 65293 45 s1))).
    { apply Forall_and. split.
      - apply replace_char_keeps; [discriminate | exact Ha].
      - apply replace_char_gone. discriminate. }
    assert (Hc : Forall (fun c => (c <> 65293 /\ c <> 8213) /\ c <> 8211) s2).
    { apply Forall_and. split.
      - apply replace_char_keeps; [split; discriminate | exact Hb].
      - apply replace_char_gone. discriminate. }
    assert (Hd : Forall (fun c => ((c <> 65293 /\ c <> 8213) /\ c <> 8211) /\ c <> 12534)
                   (replace_char 12534 12465 s2)).
    { apply Forall_and. split.
      - apply replace_char_keeps; [repeat split; discriminate | exact Hc].
      - apply replace_char_gone. discriminate. }
    assert (He : Forall (fun c => (((c <> 65293 /\ c <> 8213) /\ c <> 8211) /\ c <> 12534)
                                  /\ c <> 12533) s3).
    { apply Forall_and. split.
      - apply replace_char_keeps; [repeat split; discriminate | exact Hd].
      - apply replace_char_gone. discriminate. }
    eapply Forall_impl; [exact He |]. intros c ((((K1 & K2) & K3) & K4) & K5). auto. }
  set (s4 := remove_at_end _ (remove_at_end _ (remove_alts _ 0 (remove_all s_kanrido s3)))).
  assert (H4 : Forall (fun c => c <> 65293 /\ c <> 8213 /\ c <> 8211
                                /\ c <> 12534 /\ c <> 12533) s4).
  { now apply remove_at_end_keeps, remove_at_end_keeps, remove_alts_keeps, remove_from_keeps. }
  set (s5 := remove_all s_sen (remove_all s_rindo s4)).
  assert (H5 : Forall (fun c => c <> 32218 /\ c <> 65293 /\ c <> 8213 /\ c <> 8211
                                /\ c <> 12534 /\ c <> 12533) s5).
  { apply Forall_and. split.
    - apply remove_single_gone.
    - now apply remove_from_keeps, remove_from_keeps. }
  apply Forall_forall. intros c Hc.
  pose proof (remove_class_Forall cls_punct_blank s5) as Hcls.
  pose proof (remove_class_keeps _ cls_punct_blank s5 H5) as Hkeep.
  rewrite Forall_forall in Hcls, Hkeep. specialize (Hcls c Hc). specialize (Hkeep c Hc).
  unfold cls_punct_blank in Hcls. rewrite !orb_false_iff in Hcls.
  destruct Hcls as [[Hp Hs] _]. split; [exact Hs |]. split.
  - intros Hin. unfold cls_punct in Hp. apply not_true_iff_false in Hp. apply Hp.
    apply existsb_exists. exists c. split; [exact Hin | apply N.eqb_refl].
  - unfold norm_name_gone. cbn [In]. destruct Hkeep as (K1 & K2 & K3 & K4 & K5 & K6).
    intros [H | [H | [H | [H | [H | [H | []]]]]]]; congruence.
Qed.

Lemma pstr_ltb_irrefl (a : pstr) : pstr_ltb a a = false.
Proof.
  induction a as [|x a IH]; [reflexivity |]. cbn [pstr_ltb].
  now rewrite N.ltb_irrefl, N.eqb_refl, IH.
Qed.

Lemma pstr_ltb_trans (a b c : pstr) :
  pstr_ltb a b = true -> pstr_ltb b c = true -> pstr_ltb a c = true.
Proof.
  revert b c. induction a as [|x a IH]; intros [|y b] [|z c]; cbn [pstr_ltb];
    try discriminate; try reflexivity.
  rewrite !orb_true_iff, !andb_true_iff, !N.ltb_lt, !N.eqb_eq.
  intros [H1 | [-> H1]] [H2 | [-> H2]].
  - left. lia.
  - now left.
  - now left.
  - right. split; [reflexivity |]. exact (IH b c H1 H2).
Qed.

Lemma dict_get_set_eq {V} (k : pstr) (v : V) (d : list (pstr * V)) :
  dict_get k (dict_set k v d) = Some v.
Proof.
  unfold dict_get, dict_set.
  destruct (existsb (fun kv => pstr_eqb (fst kv) k) d) eqn:E.
  - induction d as [|[k' v'] d IH]; [discriminate |]. cbn [existsb fst] in E.
    cbn [map find fst]. destruct (pstr_eqb k' k) eqn:Ek.
    + cbn [fst]. unfold pstr_eqb at 1. rewrite bool_decide_eq_true_2 by reflexivity.
      reflexivity.
    + cbn [fst]. rewrite Ek. apply IH. exact E.
  - induction d as [|[k' v'] d IH].
    + cbn. unfold pstr_eqb. now rewrite bool_decide_eq_true_2.
    + cbn [existsb fst] in E. apply orb_false_iff in E as [Ek E].
      cbn [app find fst]. rewrite Ek. now apply IH.
Qed.

Lemma dict_get_set_ne {V} (k k' : pstr) (v : V) (d : list (pstr * V)) :
  k' <> k -> dict_get k' (dict_set k v d) = dict_get k' d.
Proof.
  intros Hne. unfold dict_get, dict_set.
  assert (Hk : pstr_eqb k k' = false)
    by (apply not_true_iff_false; rewrite pstr_eqb_eq; congruence).
  destruct (existsb (fun kv => pstr_eqb (fst kv) k) d).
  - induction d as [|[k1 v1] d IH]; [reflexivity |]. cbn [map find fst].
    destruct (pstr_eqb k1 k) eqn:E1.
    + cbn [fst]. rewrite Hk. apply pstr_eqb_eq in E1. subst k1. rewrite Hk. exact IH.
    + cbn [fst]. destruct (pstr_eqb k1 k'); [reflexivity | exact IH].
  - induction d as [|[k1 v1] d IH].
    + cbn. now rewrite Hk.
    + cbn [app find fst]. destruct (pstr_eqb k1 k'); [reflexivity | exact IH].
Qed.

Lemma cand_of_valid (T : text_lib) (e : edict) (key : pstr) (c : cand) :
  cand_of T e = Some (key, c) -> is_Some (SEV (c_status c)).
Proof.
  unfold cand_of. destruct (norm_name T _) as [|n nm]; [discriminate |].
  destruct (zfill2 _) as [|p pc]; [discriminate |].
  intros [= _ <-]. cbn [c_status]. apply road_status_code_valid.
Qed.

Lemma beats_spec (c cur : cand) :
  is_Some (SEV (c_status c)) -> is_Some (SEV (c_status cur)) ->
  exists b, beats c cur = Some b /\ (b = false <-> not_better c cur).
Proof.
  intros [sc Hc] [scur Hcur]. unfold beats, not_better, sev. rewrite Hc, Hcur. cbn.
  eexists. split; [reflexivity |].
  rewrite orb_false_iff, andb_false_iff, N.ltb_ge, N.eqb_neq. split.
  - intros [H1 [H2 | H2]].
    + left. lia.
    + destruct (N.eq_dec sc scur) as [-> | Hne]; [right; auto | left; lia].
  - intros [H | [-> H]]; [split; [lia | left; lia] | split; [lia | now right]].
Qed.

Lemma not_better_refl (c : cand) : not_better c c.
Proof. right. split; [reflexivity | apply pstr_ltb_irrefl]. Qed.

(** What is not better than [b] is not better than a candidate that
    beats [b]. *)
Lemma not_better_beaten (x b c : cand) :
  not_better x b -> ~ not_better c b -> not_better x c.
Proof.
  unfold not_better. intros Hx Hc.
  destruct (N.lt_trichotomy (sev b) (sev c)) as [Hlt | [Heq | Hgt]].
  - left. destruct Hx as [Hx | [Hx _]]; lia.
  - destruct (pstr_ltb (c_updated_at b) (c_updated_at c)) eqn:Eb.
    + destruct Hx as [Hx | [Hx Hu]]; [left; lia |]. right. split; [lia |].
      destruct (pstr_ltb (c_updated_at c) (c_updated_at x)) eqn:Ec; [| reflexivity].
      now rewrite (pstr_ltb_trans _ _ _ Eb Ec) in Hu.
    + exfalso. apply Hc. right. split; [lia | reflexivity].
  - exfalso. apply Hc. left. lia.
Qed.

Lemma load_inv_start : load_inv [] [] [].
Proof. split; [constructor |]. intros key. cbn. auto. Qed.

Lemma filter_snoc_key (done : list (pstr * cand)) (key key' : pstr) (c : cand) :
  map snd (filter (fun kc => fst kc = key') (done ++ [(key, c)]))
  = map snd (filter (fun kc => fst kc = key') done)
    ++ (if decide (key = key') then [c] else []).
Proof.
  rewrite filter_app, map_app. f_equal.
  rewrite filter_cons, filter_nil. cbn [fst].
  destruct (decide (key = key')); reflexivity.
Qed.

Lemma load_step_inv (done : list (pstr * cand)) (best : list (pstr * cand))
    (all_by_key : list (pstr * list cand)) (key : pstr) (c : cand) :
  load_inv done best all_by_key ->
  is_Some (SEV (c_status c)) ->
  exists best',
    match dict_get key best with
    | None => Some (dict_set key c best)
    | Some cur =>
      match beats c cur with
      | Some b => Some (if b then dict_set key c best else best)
      | None => None
      end
    end = Some best'
    /\ load_inv (done ++ [(key, c)]) best'
         (dict_set key (default [] (dict_get key all_by_key) ++ [c]) all_by_key).
Proof.
  intros [Hv Hinv] Hc.
  assert (Hv' : Forall (fun kc => is_Some (SEV (c_status (snd kc)))) (done ++ [(key, c)])).
  { apply Forall_app. split; [exact Hv |]. now repeat constructor. }
  pose proof (Hinv key) as Hk.
  destruct (map snd (filter (fun kc => fst kc = key) done)) as [|c0 cs] eqn:Ecs.
  - destruct Hk as [Hb Ha]. rewrite Hb. eexists. split; [reflexivity |].
    split; [exact Hv' |]. intros key'. rewrite filter_snoc_key.
    destruct (decide (key = key')) as [<- | Hne].
    + rewrite Ecs, Ha. cbn [default app]. rewrite !dict_get_set_eq. split; [reflexivity |].
      exists c. split; [reflexivity |]. split; [now left |].
      intros x [<- | []]. apply not_better_refl.
    + rewrite app_nil_r. rewrite !dict_get_set_ne by congruence. apply Hinv.
  - destruct Hk as [Ha (b & Hb & Hin & Hmax)]. rewrite Hb.
    assert (Hbv : is_Some (SEV (c_status b))).
    { assert (Hb' : In b (map snd (filter (fun kc => fst kc = key) done)))
        by (rewrite Ecs; exact Hin).
      apply in_map_iff in Hb' as ([k1 b1] & <- & Hf).
      apply list_elem_of_In, list_elem_of_filter in Hf as [_ Hf].
      rewrite Forall_forall in Hv. exact (Hv _ Hf). }
    destruct (beats_spec c b Hc Hbv) as (bb & -> & Hbb).
    eexists. split; [reflexivity |]. split; [exact Hv' |].
    intros key'. rewrite filter_snoc_key.
    destruct (decide (key = key')) as [<- | Hne].
    + rewrite Ecs, Ha. cbn [default]. rewrite dict_get_set_eq.
      change ((c0 :: cs) ++ [c]) with (c0 :: (cs ++ [c])).
      split; [reflexivity |].
      change (c0 :: (cs ++ [c])) with ((c0 :: cs) ++ [c]).
      destruct bb.
      * exists c. rewrite dict_get_set_eq. split; [reflexivity |].
        split; [apply in_or_app; right; now left |].
        intros x Hx. apply in_app_or in Hx as [Hx | [<- | []]].
        -- apply (not_better_beaten x b c (Hmax x Hx)). intros H.
           apply Hbb in H. discriminate.
        -- apply not_better_refl.
      * exists b. split; [exact Hb |]. split; [apply in_or_app; now left |].
        intros x Hx. apply in_app_or in Hx as [Hx | [<- | []]].
        -- exact (Hmax x Hx).
        -- now apply Hbb.
    + rewrite app_nil_r. rewrite dict_get_set_ne by congruence.
      assert (Hbest : dict_get key'
                        (if bb then dict_set key c best else best) = dict_get key' best).
      { destruct bb; [apply dict_get_set_ne; congruence | reflexivity]. }
      rewrite Hbest. apply Hinv.
Qed.

Lemma load_loop_inv (T : text_lib) (evs : list edict) (done : list (pstr * cand))
    (best : list (pstr * cand)) (all_by_key : list (pstr * list cand)) :
  load_inv done best all_by_key ->
  exists best' all',
    load_loop T evs best all_by_key = Some (best', all')
    /\ load_inv (done ++ cands_of T evs) best' all'.
Proof.
  revert done best all_by_key. induction evs as [|e evs IH]; intros done best all_by_key Hinv.
  - exists best, all_by_key. split; [reflexivity |]. unfold cands_of. cbn.
    now rewrite app_nil_r.
  - assert (Hc : cands_of T (e :: evs)
                 = match cand_of T e with
                   | Some kc => kc :: cands_of T evs
                   | None => cands_of T evs
                   end) by reflexivity.
    rewrite Hc. cbn [load_loop].
    destruct (cand_of T e) as [[key c]|] eqn:Ec; [| apply IH, Hinv].
    destruct (load_step_inv done best all_by_key key c Hinv (cand_of_valid _ _ _ _ Ec))
      as (best1 & Hb & Hinv1).
    destruct (IH _ _ _ Hinv1) as (best' & all' & Hl & Hinv').
    exists best', all'. split.
    + destruct (dict_get key best) as [cur|].
      * destruct (beats c cur) as [b|]; [| discriminate]. injection Hb as <-. exact Hl.
      * injection Hb as <-. exact Hl.
    + rewrite <- app_assoc in Hinv'. exact Hinv'.
Qed.

(** load_events (62-99) raises no KeyError, and for every key pref_code|
    norm_name: all_by_key holds under the key the candidates of the events
    with that key, in their order, and best holds one of them that none
    of them beats, the most severe and, among the most severe, the last
    updated; a key no event has is in neither. *)
Theorem load_events_best (T : text_lib) (evs : list edict) :
  exists best by_name all_by_key,
    load_events T evs = Some (best, by_name, all_by_key)
    /\ forall key,
         match cands_for T key evs with
         | [] => dict_get key best = None /\ dict_get key all_by_key = None
         | cs =>
           dict_get key all_by_key = Some cs
           /\ exists b, dict_get key best = Some b /\ In b cs
                        /\ forall c, In c cs -> not_better c b
         end.
Proof.
  destruct (load_loop_inv T evs [] [] [] load_inv_start) as (best & all' & Hl & _ & Hinv).
  unfold load_events. rewrite Hl. cbn [mbind option_bind].
  eexists best, _, all'. split; [reflexivity |]. exact Hinv.
Qed.

Lemma by_name_fold (vs done : list cand) (d : list (pstr * list cand)) :
  (forall nm, dict_get nm d
              = match named nm done with [] => None | cs => Some cs end) ->
  forall nm,
    dict_get nm
      (foldl (fun (d : list (pstr * list cand)) (v : cand) =>
                dict_set (c_norm_name v)
                  (default [] (dict_get (c_norm_name v) d) ++ [v]) d) d vs)
    = match named nm (done ++ vs) with [] => None | cs => Some cs end.
Proof.
  revert done d. induction vs as [|v vs IH]; intros done d Hd nm.
  - cbn [foldl]. rewrite app_nil_r. apply Hd.
  - cbn [foldl].
    replace (done ++ v :: vs) with ((done ++ [v]) ++ vs) by now rewrite <- app_assoc.
    apply IH. clear nm. intros nm. unfold named. rewrite filter_app.
    rewrite filter_cons, filter_nil.
    destruct (decide (c_norm_name v = nm)) as [<- | Hne].
    + rewrite dict_get_set_eq, Hd. unfold named.
      destruct (filter (fun v0 => c_norm_name v0 = c_norm_name v) done); reflexivity.
    + rewrite app_nil_r, dict_get_set_ne by congruence. apply Hd.
Qed.

(** load_events (96-97): by_name holds under each norm_name the
    representatives of best with that name, in the order of best, and
    nothing under a name no representative has. *)
Theorem load_events_by_name (T : text_lib) (evs : list edict) :
  exists best by_name all_by_key,
    load_events T evs = Some (best, by_name, all_by_key)
    /\ forall nm,
         dict_get nm by_name
         = match named nm (map snd best) with [] => None | cs => Some cs end.
Proof.
  destruct (load_loop_inv T evs [] [] [] load_inv_start) as (best & all' & Hl & _).
  unfold load_events. rewrite Hl. cbn [mbind option_bind].
  eexists best, _, all'. split; [reflexivity |].
  apply (by_name_fold (map snd best) [] []). intros nm. reflexivity.
Qed.
